(** * Hash partitioning of columnar tables (cpp/src/hash/hashing.cu)

    A shallow embedding of the hash partitioner: the two partitioner
    functors, the histogram kernel [compute_row_partition_numbers], the
    scatter kernel [move_to_output_buffer], the orchestrator
    [hash_partition_table] and the two entry points [hash_partition] and
    [hash].

    Conventions.
    - [hash_value_type] is an unsigned 32-bit integer and [size_type] a
      signed 32-bit integer; both are carried by [Z] and the conversions of
      the C++ arithmetic are written out in the partitioners and in the
      loops.
    - A loop whose counter is a [size_type] is [size_type_loop]: the counter
      wraps as the C++ conversions make it wrap, and the loop has no value
      when the counter turns negative or the loop does not end.  A kernel
      has a value only when all its loops have one, and a host computation
      that launches a kernel without a value, or overflows a [size_type]
      product, ends with [undefined_behaviour].
    - The number of rows of a column and the number of elements of an array
      are carried by [nat]; in the code they are [size_type] values, so only
      sizes below 2^31 stand for a table of the code.  Indices into arrays
      are computed in [nat]: the theorems bound the sizes so that no index
      computation of the code leaves [size_type].
    - A device array is a list; a store outside the array is dropped by the
      model, and the theorems about the supported range show that the stores
      they rely on are inside.
    - Memory that the code does not initialise (dynamic shared memory, a
      freshly allocated [rmm::device_buffer]) starts with arbitrary contents
      supplied by the execution environment [exec_env], which also fixes the
      order in which the atomic increments of a block take effect.
    - [Unbounded] holds the loops and the two kernels read with unbounded
      counters, in which every loop ends; the kernels of the program agree
      with them as long as no counter wraps, and their properties are proved
      through them. *)

From Stdlib Require Import ZArith List Lia Permutation Bool.
From stdpp Require Import base numbers list strings.

Local Open Scope nat_scope.

(** ** Integer types *)

(** Conversion to [uint32_t]. *)
Definition uint32_wrap (z : Z) : Z := (z mod 2 ^ 32)%Z.

(** Conversion to [int32_t] ([size_type]). *)
Definition int32_wrap (z : Z) : Z := ((z + 2 ^ 31) mod 2 ^ 32 - 2 ^ 31)%Z.

(** ** Launch constants (hashing.cu, lines 32-34 and 257) *)

Definition BLOCK_SIZE : nat := 512.
Definition ROWS_PER_THREAD : nat := 8.
Definition ELEMENT_PER_BLOCK : nat := 2.
Definition nthreads_partition : nat := 16.

Arguments BLOCK_SIZE : simpl never.
Arguments ROWS_PER_THREAD : simpl never.
Arguments ELEMENT_PER_BLOCK : simpl never.
Arguments nthreads_partition : simpl never.

(** ** Partitioner functors *)

(** [modulo_partitioner]: [hash_value % divisor], where [hash_value] is a
    [uint32_t] and [divisor] a [size_type]; the usual arithmetic conversions
    make the operation unsigned, and the result is returned as [size_type]. *)
Definition modulo_partitioner (divisor : Z) (hash_value : Z) : Z :=
  int32_wrap (uint32_wrap hash_value mod uint32_wrap divisor)%Z.

(** [is_power_two]: [0 == (number & (number - 1))]. *)
Definition is_power_two (number : Z) : bool :=
  (0 =? Z.land number (int32_wrap (number - 1)))%Z.

(** [bitwise_partitioner], the call operator of a functor constructed with
    [num_partitions]: the mask is [num_partitions - 1], and the functor
    returns [hash_value & mask]. *)
Definition bitwise_partitioner (num_partitions : Z) (hash_value : Z) : Z :=
  let mask := int32_wrap (num_partitions - 1) in
  int32_wrap (Z.land (uint32_wrap hash_value) (uint32_wrap mask)).

(** The constructor of [bitwise_partitioner] (lines 72-74), in a build that
    keeps assertions: [assert(is_power_two(num_partitions))] ends the
    program for any other argument, and no functor is constructed. *)
Definition bitwise_partitioner_constructor (num_partitions : Z)
  : option (Z -> Z) :=
  if is_power_two num_partitions
  then Some (bitwise_partitioner num_partitions)
  else None.

(** Partition index of a hash value, as [hash_partition_table] selects it. *)
Definition partition_of (num_partitions : Z) (hash_value : Z) : Z :=
  if is_power_two num_partitions
  then bitwise_partitioner num_partitions hash_value
  else modulo_partitioner num_partitions hash_value.

(** ** Columns and tables *)

(** Modelled from the spec: the type ids of cudf/types.hpp are not part of
    the sources at hand.  Section 3 (Cell) lists the fixed-width types:
    integers of widths 8, 16, 32 and 64, floating point of widths 32 and 64,
    temporal and boolean types; strings and lists are variable-width. *)
Inductive type_id : Type :=
| INT8 | INT16 | INT32 | INT64
| FLOAT32 | FLOAT64
| BOOL8
| TIMESTAMP_DAYS | TIMESTAMP_SECONDS | TIMESTAMP_MILLISECONDS
| TIMESTAMP_MICROSECONDS | TIMESTAMP_NANOSECONDS
| STRING | LIST.

(** Modelled from the spec: [is_fixed_width<T>()] of the type traits, by the
    list of Section 3. *)
Definition is_fixed_width (t : type_id) : bool :=
  match t with
  | STRING | LIST => false
  | _ => true
  end.

(** A column (view): its element type, its cells as bit patterns, and its
    validity mask when it has one ([true] marks a valid cell). *)
Record column_view : Type := mk_column {
  ctype : type_id;
  cdata : list Z;
  null_mask : option (list bool)
}.

Definition size (c : column_view) : nat := length (cdata c).

Abbreviation table_view := (list column_view).

Definition num_columns (t : table_view) : nat := length t.

Definition num_rows (t : table_view) : nat :=
  match t with
  | [] => 0
  | c :: _ => size c
  end.

(** The invariant a [table_view] is built with: all columns have the same
    number of rows. *)
Definition table_wf (t : table_view) : Prop :=
  Forall (fun c => size c = num_rows t) t.

(** Row [i] of a table: its cells in column order. *)
Definition row (t : table_view) (i : nat) : list Z :=
  map (fun c => cdata c !!! i) t.

Definition rows (t : table_view) : list (list Z) :=
  map (row t) (seq 0 (num_rows t)).

(** Modelled from the spec: [table_view::select] is not part of the sources
    at hand.  Section 3 (Key subview): the projection of the input table on
    the caller-selected column indices, in the order given.  The indices are
    column indices of the input table (Section 6); the theorems assume it
    ([Forall (fun i => i < num_columns input) columns_to_hash]). *)
Definition select (t : table_view) (column_indices : list nat) : table_view :=
  omap (fun i => t !! i) column_indices.

(** Modelled from the spec: [has_nulls(table_view)] is not part of the
    sources at hand.  Section 4.6, step 3: whether the key subview has any
    null mask. *)
Definition has_nulls (t : table_view) : bool :=
  existsb (fun c => bool_decide (is_Some (null_mask c))) t.

(** Modelled from the spec: [experimental::empty_like] is not part of the
    sources at hand.  Section 8, property 7: a copy with the same schema and
    zero rows. *)
Definition empty_like (t : table_view) : table_view :=
  map (fun c => mk_column (ctype c) [] None) t.

(** ** Row hashing *)

Definition is_valid (c : column_view) (i : nat) : bool :=
  match null_mask c with
  | None => true
  | Some m => m !!! i
  end.

(** What a row hasher reads of row [i]: per column the element type and the
    cell, or no cell when the hasher is the null-aware one and the cell is
    null. *)
Definition row_cells (nullable : bool) (t : table_view) (i : nat)
  : list (type_id * option Z) :=
  map (fun c => (ctype c,
                 if nullable && negb (is_valid c i) then None
                 else Some (cdata c !!! i))) t.

(** Modelled from the spec: [experimental::row_hasher],
    [row_hasher_initial_values] and [MurmurHash3_32] are not part of the
    sources at hand.  Section 4.1: the row hash is a pure function of the
    cells of the row in the key subview, combined in column order, a null
    cell contributing a fixed sentinel instead of its bit pattern.  The hash
    functions themselves are left abstract. *)
Record hash_functions : Type := mk_hash_functions {
  row_hasher : bool -> list (type_id * option Z) -> Z;
  row_hasher_initial_values :
    bool -> list Z -> list (type_id * option Z) -> Z
}.

(** [the_hasher(row_number)]: a [hash_value_type]. *)
Definition the_hasher (H : hash_functions) (nullable : bool)
    (t : table_view) (row_number : nat) : Z :=
  uint32_wrap (row_hasher H nullable (row_cells nullable t row_number)).

(** ** Effects: device events and errors *)

Inductive device_buffer : Type :=
| buf_row_partition_numbers
| buf_block_partition_sizes
| buf_scanned_block_partition_sizes
| buf_global_partition_sizes
| buf_row_partition_offset
| buf_table_device_view
| buf_output_column (column_index : nat)
| buf_hash_output
| buf_initial_hash.

(** What the host asks of the device, in program order. *)
Inductive event : Type :=
| ev_alloc (b : device_buffer) (n : nat)
| ev_launch_compute_row_partition_numbers (grid_size : nat) (bitwise : bool)
| ev_exclusive_scan (b : device_buffer)
| ev_memcpy_async_partition_offsets
| ev_launch_move_to_output_buffer (column_index : nat) (grid_size : nat)
| ev_tabulate.

(** How a host computation ends when it does not return:
    [cudf::logic_error], thrown by [CUDF_EXPECTS] and [CUDF_FAIL]; a failed
    [assert]; or an execution for which the code defines no result (a
    [size_type] product that overflows, a kernel whose loops do not all end
    with their counter inside [size_type]). *)
Inductive exn : Type :=
| logic_error (msg : string)
| assertion_failure
| undefined_behaviour.

(** A host computation: the events it issued, and its result or the way it
    ended without one. *)
Record host (A : Type) : Type := mk_host {
  trace : list event;
  result : exn + A
}.
Arguments mk_host {A} _ _.
Arguments trace {A} _.
Arguments result {A} _.

Definition ret {A} (a : A) : host A := mk_host [] (inr a).

Definition bind {A B} (m : host A) (f : A -> host B) : host B :=
  match result m with
  | inl e => mk_host (trace m) (inl e)
  | inr a => let r := f a in mk_host (trace m ++ trace r) (result r)
  end.

Definition emit (e : event) : host unit := mk_host [e] (inr tt).

Definition throw {A} (e : exn) : host A := mk_host [] (inl e).

Notation "x <- m ;; k" := (bind m (fun x => k))
  (at level 100, m at next level, right associativity).
Notation "m ;; k" := (bind m (fun _ => k))
  (at level 100, right associativity).

(** [std::transform] over the columns with a function that may throw: the
    columns are visited in order and the first exception ends the visit. *)
Fixpoint transform_columns {A B} (f : nat -> A -> host B) (i : nat)
    (l : list A) : host (list B) :=
  match l with
  | [] => ret []
  | a :: l' =>
      b <- f i a ;;
      bs <- transform_columns f (S i) l' ;;
      ret (b :: bs)
  end.

(** What a kernel leaves behind, for the host that launched it: the host
    computation is modelled as if it waited for the kernel, and has no
    defined result when the kernel has none. *)
Definition launch {A} (kernel : option A) : host A :=
  match kernel with
  | Some a => ret a
  | None => throw undefined_behaviour
  end.

(** The product of two [size_type] values, itself a [size_type]: signed
    overflow is undefined. *)
Definition size_type_mul (a b : Z) : host nat :=
  if bool_decide (- 2 ^ 31 <= a * b < 2 ^ 31)%Z
  then ret (Z.to_nat (a * b))
  else throw undefined_behaviour.

(** ** Execution environment *)

(** What the code leaves to the device: the order in which the atomic
    increments of one block of the histogram kernel take effect, and the
    contents of memory before its first store. *)
Record exec_env : Type := mk_env {
  (** block index, rows of the block in thread order: the rows in the order
      of their [atomicAdd] *)
  atomic_order : nat -> list nat -> list nat;
  (** dynamic shared memory of the histogram kernel: block, index *)
  histogram_smem : nat -> nat -> nat;
  (** staging buffer of the scatter kernel: column, block, index *)
  scatter_smem_cells : nat -> nat -> nat -> Z;
  (** the two offset tables of the scatter kernel, which follow the staging
      buffer: column, block, index *)
  scatter_smem_offsets : nat -> nat -> nat -> nat;
  (** a fresh output buffer: column, index *)
  output_buffer : nat -> nat -> Z;
  (** the fresh output column of [hash]: index *)
  hash_output_buffer : nat -> Z
}.

(** An order of the atomic increments is a rearrangement of the rows. *)
Definition atomic_order_ok (env : exec_env) : Prop :=
  forall b l, Permutation (atomic_order env b l) l.

(** ** Loops with a [size_type] counter *)

(** A kernel, or a part of one, ends with a value or has none. *)
Definition and_then {A B} (m : option A) (f : A -> option B) : option B :=
  match m with
  | Some a => f a
  | None => None
  end.

Notation "x <~ m ;; k" := (and_then m (fun x => k))
  (at level 100, m at next level, right associativity).

(** At most [n] steps of a computation that may stop before. *)
Fixpoint iterate {S R : Type} (step : S -> S + R) (n : positive) (s : S)
  : S + R :=
  match n with
  | xH => step s
  | xO n' =>
      match iterate step n' s with
      | inl s' => iterate step n' s'
      | inr r => inr r
      end
  | xI n' =>
      match step s with
      | inl s' =>
          match iterate step n' s' with
          | inl s'' => iterate step n' s''
          | inr r => inr r
          end
      | inr r => inr r
      end
  end.

(** [while (i < bound) { ...; i += stride; }] with [i] and [bound] of type
    [size_type] and a [stride] that is an unsigned 32-bit value, as
    [blockDim.x] and [blockDim.x * gridDim.x] are: the sum is taken in
    [uint32_t] and converted back to [size_type], so it wraps.  One step is
    the test and, when it holds, the body and the increment; the state is
    the counter and the values it had in the body so far, last first.  The
    body indexes arrays with [i], so the loop has no value when the body is
    entered with a negative [i]; this also covers the loops whose stride is
    a signed [int] (lines 260-273), where the overflowing sum is
    undefined. *)
Definition size_type_loop_step (stride bound : Z) (st : Z * list Z)
  : Z * list Z + option (list Z) :=
  let i := st.1 in
  if (i <? bound)%Z then
    if (i <? 0)%Z then inr None
    else inl (int32_wrap (uint32_wrap (uint32_wrap i + stride)), i :: st.2)
  else inr (Some (rev st.2)).

(** The value of the loop: the values of [i] in the body, in order.  The
    counter has 2^32 values, so a loop that is still running after 2^32
    steps has been in the same state twice and does not end: it has no
    value. *)
Definition size_type_loop (start stride bound : Z) : option (list Z) :=
  match iterate (size_type_loop_step stride bound) (2 ^ 32) (start, []) with
  | inl _ => None
  | inr value => value
  end.

(** The values of the counter as indices into arrays. *)
Definition size_type_indices (start stride bound : Z) : option (list nat) :=
  values <~ size_type_loop start stride bound ;;
  Some (map Z.to_nat values).

(** A loop nest: the values of the body for each value of the outer loop,
    one after the other. *)
Fixpoint for_each {A B} (body : A -> option (list B)) (l : list A)
  : option (list B) :=
  match l with
  | [] => Some []
  | a :: l' =>
      bs <~ body a ;;
      bs' <~ for_each body l' ;;
      Some (bs ++ bs')
  end.

(** [partition_number = threadIdx.x;
     while (partition_number < num_partitions) { ...; partition_number += blockDim.x; }]
    for all threads of a block, thread by thread. *)
Definition block_loop (num_partitions : nat) : option (list nat) :=
  for_each (fun threadIdx =>
              size_type_indices (int32_wrap (Z.of_nat threadIdx))
                                (uint32_wrap (Z.of_nat BLOCK_SIZE))
                                (Z.of_nat num_partitions))
           (seq 0 BLOCK_SIZE).

(** [row_number = threadIdx.x + blockIdx.x * blockDim.x;
     while (row_number < num_rows) { ...; row_number += blockDim.x * gridDim.x; }]
    for all threads of block [blockIdx], thread by thread.  The start and
    the stride are computed in [uint32_t]. *)
Definition block_rows (gridDim blockIdx num_rows : nat) : option (list nat) :=
  for_each (fun threadIdx =>
              size_type_indices
                (int32_wrap
                   (uint32_wrap
                      (Z.of_nat threadIdx
                       + uint32_wrap (Z.of_nat blockIdx * Z.of_nat BLOCK_SIZE))))
                (uint32_wrap (Z.of_nat BLOCK_SIZE * Z.of_nat gridDim))
                (Z.of_nat num_rows))
           (seq 0 BLOCK_SIZE).

(** The block that visits a row, when no row number wraps. *)
Definition block_of (gridDim row_number : nat) : nat :=
  (row_number mod (BLOCK_SIZE * gridDim)) / BLOCK_SIZE.

(** Stores of one phase of a kernel, applied in the order given. *)
Definition store {A} (buf : list A) (w : nat * A) : list A :=
  <[w.1 := w.2]> buf.

Definition apply_stores {A} (ws : list (nat * A)) (buf : list A) : list A :=
  foldl store buf ws.

(** ** Scans *)

Fixpoint exclusive_scan_from (acc : nat) (l : list nat) : list nat :=
  match l with
  | [] => []
  | x :: l' => acc :: exclusive_scan_from (acc + x) l'
  end.

(** [thrust::exclusive_scan] with initial value 0. *)
Definition exclusive_scan (l : list nat) : list nat := exclusive_scan_from 0 l.

Fixpoint inclusive_sum_from (acc : nat) (l : list nat) : list nat :=
  match l with
  | [] => []
  | x :: l' => (acc + x) :: inclusive_sum_from (acc + x) l'
  end.

(** [cub::BlockScan::InclusiveSum] over the items of a block in blocked
    arrangement (thread [t] holds the items [E * t .. E * t + E - 1]). *)
Definition InclusiveSum (items : list nat) : list nat :=
  inclusive_sum_from 0 items.

(** ** The histogram kernel [compute_row_partition_numbers] *)

(** The four arrays the kernel writes. *)
Record routing : Type := mk_routing {
  row_partition_numbers : list nat;
  row_partition_offset : list nat;
  block_partition_sizes : list nat;
  global_partition_sizes : list nat
}.

(** The partition the kernel computes for a row. *)
Definition partition_number_of (the_hasher : nat -> Z)
    (the_partitioner : Z -> Z) (row_number : nat) : nat :=
  Z.to_nat (the_partitioner (the_hasher row_number)).

(** One iteration of the row loop (lines 136-148): the row is hashed, its
    partition recorded, and the counter of the partition in shared memory
    incremented atomically, the value before the increment being the offset
    of the row. *)
Definition histogram_row (the_hasher : nat -> Z) (the_partitioner : Z -> Z)
    (st : list nat * routing) (row_number : nat) : list nat * routing :=
  let shared_partition_sizes := st.1 in
  let partition_number :=
    partition_number_of the_hasher the_partitioner row_number in
  (<[partition_number := S (shared_partition_sizes !!! partition_number)]>
     shared_partition_sizes,
   mk_routing
     (<[row_number := partition_number]> (row_partition_numbers st.2))
     (<[row_number := shared_partition_sizes !!! partition_number]>
        (row_partition_offset st.2))
     (block_partition_sizes st.2)
     (global_partition_sizes st.2)).

(** One iteration of the flush loop (lines 154-165). *)
Definition histogram_flush (gridDim blockIdx : nat)
    (shared_partition_sizes : list nat) (st : routing)
    (partition_number : nat) : routing :=
  let block_partition_size := shared_partition_sizes !!! partition_number in
  let write_location := partition_number * gridDim + blockIdx in
  mk_routing
    (row_partition_numbers st)
    (row_partition_offset st)
    (<[write_location := block_partition_size]> (block_partition_sizes st))
    (<[partition_number :=
         global_partition_sizes st !!! partition_number + block_partition_size]>
       (global_partition_sizes st)).

(** One block of the kernel: the shared histogram is cleared (lines
    124-129), the rows of the block are counted in the order of their
    atomic increments (lines 136-148), and the histogram is flushed (lines
    153-165). *)
Definition compute_row_partition_numbers_block (env : exec_env)
    (the_hasher : nat -> Z) (num_rows num_partitions : nat)
    (the_partitioner : Z -> Z) (gridDim : nat)
    (st : routing) (blockIdx : nat) : option routing :=
  cleared <~ block_loop num_partitions ;;
  rows <~ block_rows gridDim blockIdx num_rows ;;
  flushed <~ block_loop num_partitions ;;
  let smem := map (histogram_smem env blockIdx) (seq 0 num_partitions) in
  let shared_partition_sizes :=
    apply_stores
      (map (fun partition_number => (partition_number, 0)) cleared)
      smem in
  let counted :=
    foldl (histogram_row the_hasher the_partitioner)
          (shared_partition_sizes, st)
          (atomic_order env blockIdx rows) in
  Some (foldl (histogram_flush gridDim blockIdx counted.1) counted.2 flushed).

(** The grid.  Blocks share no memory but the two output histograms, of
    which block [b] stores its own entries [p * gridDim + b] and adds
    atomically to the global entries; the blocks are run one after the
    other. *)
Definition compute_row_partition_numbers (env : exec_env)
    (the_hasher : nat -> Z) (num_rows num_partitions : nat)
    (the_partitioner : Z -> Z) (gridDim : nat) (st : routing)
  : option routing :=
  foldl (fun acc blockIdx =>
           st' <~ acc ;;
           compute_row_partition_numbers_block env the_hasher num_rows
             num_partitions the_partitioner gridDim st' blockIdx)
        (Some st) (seq 0 gridDim).

(** ** The scatter kernel [move_to_output_buffer] *)

(** Lines 207-213: the items of the block scan, thread by thread. *)
Definition temp_histo (num_partitions gridDim blockIdx : nat)
    (block_partition_sizes : list nat) : list nat :=
  flat_map (fun threadIdx =>
    map (fun i =>
           if ELEMENT_PER_BLOCK * threadIdx + i <? num_partitions
           then block_partition_sizes
                  !!! (blockIdx + (ELEMENT_PER_BLOCK * threadIdx + i) * gridDim)
           else 0)
        (seq 0 ELEMENT_PER_BLOCK))
    (seq 0 BLOCK_SIZE).

(** Lines 221-229: the stores into [partition_offset_shared]. *)
Definition partition_offset_shared_stores (num_partitions : nat)
    (scanned_histo : list nat) : list (nat * nat) :=
  (0, 0) ::
  flat_map (fun threadIdx =>
    flat_map (fun i =>
      if ELEMENT_PER_BLOCK * threadIdx + i <? num_partitions
      then [(ELEMENT_PER_BLOCK * threadIdx + i + 1,
             scanned_histo !!! (ELEMENT_PER_BLOCK * threadIdx + i))]
      else [])
      (seq 0 ELEMENT_PER_BLOCK))
    (seq 0 BLOCK_SIZE).

(** Lines 232-236: the stores into [partition_offset_global]. *)
Definition partition_offset_global_stores (num_partitions gridDim blockIdx : nat)
    (scanned_block_partition_sizes : list nat) : option (list (nat * nat)) :=
  partitions <~ block_loop num_partitions ;;
  Some (map (fun ipartition =>
               (ipartition,
                scanned_block_partition_sizes
                  !!! (ipartition * gridDim + blockIdx)))
            partitions).

(** Lines 243-251: the stores into the staging buffer [block_output]. *)
Definition block_output_stores (input_buf : list Z)
    (num_rows gridDim blockIdx : nat)
    (row_partition_numbers row_partition_offset : list nat)
    (partition_offset_shared : list nat) : option (list (nat * Z)) :=
  rows <~ block_rows gridDim blockIdx num_rows ;;
  Some (map (fun row_number =>
               let ipartition := row_partition_numbers !!! row_number in
               (partition_offset_shared !!! ipartition
                  + row_partition_offset !!! row_number,
                input_buf !!! row_number))
            rows).

(** Lines 260-273: the stores into the output buffer.  The two counters are
    [size_type] values and the two strides are [int] constants;
    [nelements_partition] is the [size_type] difference of two entries of
    [partition_offset_shared]. *)
Definition output_buf_stores (num_partitions : nat)
    (partition_offset_shared partition_offset_global : list nat)
    (block_output : list Z) : option (list (nat * Z)) :=
  for_each (fun threadIdx =>
    partitions <~
      size_type_indices (Z.of_nat (threadIdx / nthreads_partition))
                        (Z.of_nat (BLOCK_SIZE / nthreads_partition))
                        (Z.of_nat num_partitions) ;;
    for_each (fun ipartition =>
      let nelements_partition :=
        int32_wrap
          (Z.of_nat (partition_offset_shared !!! (ipartition + 1))
           - Z.of_nat (partition_offset_shared !!! ipartition)) in
      row_offsets <~
        size_type_indices (Z.of_nat (threadIdx mod nthreads_partition))
                          (Z.of_nat nthreads_partition)
                          nelements_partition ;;
      Some (map (fun row_offset =>
                   (partition_offset_global !!! ipartition + row_offset,
                    block_output
                      !!! (partition_offset_shared !!! ipartition
                           + row_offset)))
                row_offsets))
      partitions)
    (seq 0 BLOCK_SIZE).

(** The shared memory of one block when the kernel starts: the staging
    buffer of [BLOCK_SIZE * ROWS_PER_THREAD] cells, then
    [partition_offset_shared] of [num_partitions + 1] entries, then
    [partition_offset_global] of [num_partitions] entries. *)
Definition block_output_init (env : exec_env) (column_index blockIdx : nat)
  : list Z :=
  map (scatter_smem_cells env column_index blockIdx)
      (seq 0 (BLOCK_SIZE * ROWS_PER_THREAD)).

Definition partition_offset_shared_init (env : exec_env)
    (column_index blockIdx num_partitions : nat) : list nat :=
  map (scatter_smem_offsets env column_index blockIdx)
      (seq 0 (num_partitions + 1)).

Definition partition_offset_global_init (env : exec_env)
    (column_index blockIdx num_partitions : nat) : list nat :=
  map (scatter_smem_offsets env column_index blockIdx)
      (seq (num_partitions + 1) num_partitions).

(** The tables and the staging buffer of a block before the copy to the
    output buffer (line 253). *)
Definition partition_offset_shared_of (env : exec_env)
    (column_index num_partitions gridDim blockIdx : nat)
    (block_partition_sizes : list nat) : list nat :=
  apply_stores
    (partition_offset_shared_stores num_partitions
       (InclusiveSum
          (temp_histo num_partitions gridDim blockIdx block_partition_sizes)))
    (partition_offset_shared_init env column_index blockIdx num_partitions).

(** One block of the kernel: the two offset tables are filled, the rows of
    the block are staged in shared memory (line 253 is the barrier after
    it), and the staged cells are copied to the output buffer. *)
Definition move_to_output_buffer_block (env : exec_env) (column_index : nat)
    (input_buf : list Z) (num_rows num_partitions : nat) (rt : routing)
    (scanned_block_partition_sizes : list nat) (gridDim : nat)
    (output_buf : list Z) (blockIdx : nat) : option (list Z) :=
  let partition_offset_shared :=
    partition_offset_shared_of env column_index num_partitions gridDim
      blockIdx (block_partition_sizes rt) in
  global_stores <~
    partition_offset_global_stores num_partitions gridDim blockIdx
      scanned_block_partition_sizes ;;
  let partition_offset_global :=
    apply_stores global_stores
      (partition_offset_global_init env column_index blockIdx
         num_partitions) in
  staging_stores <~
    block_output_stores input_buf num_rows gridDim blockIdx
      (row_partition_numbers rt) (row_partition_offset rt)
      partition_offset_shared ;;
  let block_output :=
    apply_stores staging_stores
      (block_output_init env column_index blockIdx) in
  output_stores <~
    output_buf_stores num_partitions partition_offset_shared
      partition_offset_global block_output ;;
  Some (apply_stores output_stores output_buf).

(** The grid: blocks share nothing but the output buffer. *)
Definition move_to_output_buffer (env : exec_env) (column_index : nat)
    (input_buf : list Z) (output_buf : list Z) (num_rows num_partitions : nat)
    (rt : routing) (scanned_block_partition_sizes : list nat)
    (gridDim : nat) : option (list Z) :=
  foldl (fun acc blockIdx =>
           output_buf' <~ acc ;;
           move_to_output_buffer_block env column_index input_buf num_rows
             num_partitions rt scanned_block_partition_sizes gridDim
             output_buf' blockIdx)
        (Some output_buf) (seq 0 gridDim).

(** ** The orchestrator *)

(** Modelled from the spec: [util::div_rounding_up_safe] is not part of the
    sources at hand.  Section 4.3 launches B blocks that together own every
    row; the helper is the quotient rounded up, as its name says. *)
Definition div_rounding_up_safe (dividend divisor : nat) : nat :=
  dividend / divisor + (if dividend mod divisor =? 0 then 0 else 1).

(** [move_to_output_buffer_dispatcher], reached through the type dispatcher
    with the element type of the column (lines 276-319). *)
Definition move_to_output_buffer_dispatcher (env : exec_env)
    (num_partitions : nat) (rt : routing)
    (scanned_block_partition_sizes : list nat) (grid_size : nat)
    (column_index : nat) (input : column_view) : host column_view :=
  if is_fixed_width (ctype input) then
    if bool_decide (null_mask input = None) then
      emit (ev_alloc (buf_output_column column_index) (size input)) ;;
      emit (ev_launch_move_to_output_buffer column_index grid_size) ;;
      output <-
        launch
          (move_to_output_buffer env column_index (cdata input)
             (map (output_buffer env column_index) (seq 0 (size input)))
             (size input) num_partitions rt scanned_block_partition_sizes
             grid_size) ;;
      ret (mk_column (ctype input) output None)
    else throw (logic_error "null input column unsupported")
  else throw (logic_error "non-fixed width types unsupported").

(** The partitioner functor that [hash_partition_table] constructs (lines
    356-358 and 371-373). *)
Definition make_partitioner (num_partitions : Z) : host (Z -> Z) :=
  if is_power_two num_partitions then
    match bitwise_partitioner_constructor num_partitions with
    | Some the_partitioner => ret the_partitioner
    | None => throw assertion_failure
    end
  else ret (modulo_partitioner num_partitions).

(** [hash_partition_table<has_nulls>] (lines 321-436).  The two block
    histograms have [grid_size * num_partitions] entries, a product of
    [size_type] values; the device vectors are zero-filled. *)
Definition hash_partition_table (H : hash_functions) (env : exec_env)
    (nullable : bool) (input table_to_hash : table_view)
    (num_partitions : Z) : host (table_view * list nat) :=
  let num_rows := num_rows table_to_hash in
  let rows_per_block := BLOCK_SIZE * ROWS_PER_THREAD in
  let grid_size := div_rounding_up_safe num_rows rows_per_block in
  let N := Z.to_nat num_partitions in
  emit (ev_alloc buf_row_partition_numbers num_rows) ;;
  table_size <- size_type_mul (Z.of_nat grid_size) num_partitions ;;
  emit (ev_alloc buf_block_partition_sizes table_size) ;;
  emit (ev_alloc buf_scanned_block_partition_sizes table_size) ;;
  emit (ev_alloc buf_global_partition_sizes N) ;;
  emit (ev_alloc buf_row_partition_offset num_rows) ;;
  emit (ev_alloc buf_table_device_view (num_columns table_to_hash)) ;;
  the_partitioner <- make_partitioner num_partitions ;;
  emit (ev_launch_compute_row_partition_numbers grid_size
          (is_power_two num_partitions)) ;;
  rt <-
    launch
      (compute_row_partition_numbers env
         (the_hasher H nullable table_to_hash) num_rows N the_partitioner
         grid_size
         (mk_routing (replicate num_rows 0) (replicate num_rows 0)
                     (replicate table_size 0) (replicate N 0))) ;;
  emit (ev_exclusive_scan buf_block_partition_sizes) ;;
  let scanned_block_partition_sizes :=
    exclusive_scan (block_partition_sizes rt) in
  emit (ev_exclusive_scan buf_global_partition_sizes) ;;
  let scanned_global_partition_sizes :=
    exclusive_scan (global_partition_sizes rt) in
  emit ev_memcpy_async_partition_offsets ;;
  let partition_offsets := scanned_global_partition_sizes in
  output_cols <-
    transform_columns
      (move_to_output_buffer_dispatcher env N rt
         scanned_block_partition_sizes grid_size)
      0 input ;;
  ret (output_cols, partition_offsets).

(** [detail::hash_partition] (lines 447-471). *)
Definition hash_partition (H : hash_functions) (env : exec_env)
    (input : table_view) (columns_to_hash : list nat) (num_partitions : Z)
  : host (table_view * list nat) :=
  let table_to_hash := select input columns_to_hash in
  if (num_partitions <=? 0)%Z || (num_rows input =? 0)
     || (num_columns table_to_hash =? 0)
  then ret (empty_like input, [])
  else if has_nulls table_to_hash
  then hash_partition_table H env true input table_to_hash num_partitions
  else hash_partition_table H env false input table_to_hash num_partitions.

(** [detail::hash] (lines 473-520).  The output column is an [INT32] column
    of [input.num_rows()] elements, filled by [thrust::tabulate] with the
    row hashes. *)
Definition hash (H : hash_functions) (env : exec_env)
    (input : table_view) (initial_hash : list Z) : host column_view :=
  emit (ev_alloc buf_hash_output (num_rows input)) ;;
  let output :=
    mk_column INT32
      (map (hash_output_buffer env) (seq 0 (num_rows input))) None in
  if (num_columns input =? 0) || (num_rows input =? 0) then ret output
  else
    let nullable := has_nulls input in
    emit (ev_alloc buf_table_device_view (num_columns input)) ;;
    if negb (bool_decide (initial_hash = [])) then
      if length initial_hash =? num_columns input then
        emit (ev_alloc buf_initial_hash (length initial_hash)) ;;
        emit ev_tabulate ;;
        ret (mk_column INT32
               (map (fun i =>
                       int32_wrap
                         (uint32_wrap
                            (row_hasher_initial_values H nullable
                               (map uint32_wrap initial_hash)
                               (row_cells nullable input i))))
                    (seq 0 (num_rows input)))
               None)
      else
        throw (logic_error
          "Expected same size of initial hash values as number of columns")
    else
      emit ev_tabulate ;;
      ret (mk_column INT32
             (map (fun i =>
                     int32_wrap
                       (uint32_wrap
                          (row_hasher H nullable (row_cells nullable input i))))
                  (seq 0 (num_rows input)))
             None).

(** * The program with unbounded counters

    The loops and the two kernels once more, with counters in [nat]: every
    loop ends and every kernel has a value.  The loop bodies are those of
    the program. *)

Module Unbounded.

(** [i = start; while (i < bound) { ...; i += stride; }]: the values of [i]
    in the body. *)
Fixpoint stride_loop_from (fuel : nat) (i stride bound : nat) : list nat :=
  match fuel with
  | O => []
  | S fuel' =>
      if i <? bound then i :: stride_loop_from fuel' (i + stride) stride bound
      else []
  end.

Definition stride_loop (start stride bound : nat) : list nat :=
  stride_loop_from bound start stride bound.

(** [i = threadIdx.x; while (i < bound) { ...; i += blockDim.x; }] for all
    threads of a block, thread by thread. *)
Definition block_loop (blockDim bound : nat) : list nat :=
  flat_map (fun threadIdx => stride_loop threadIdx blockDim bound)
           (seq 0 blockDim).

(** [row_number = threadIdx.x + blockIdx.x * blockDim.x;
     while (row_number < num_rows) { ...; row_number += blockDim.x * gridDim.x; }]
    for all threads of block [blockIdx], thread by thread. *)
Definition block_rows (gridDim blockIdx num_rows : nat) : list nat :=
  flat_map (fun threadIdx =>
              stride_loop (threadIdx + blockIdx * BLOCK_SIZE)
                          (BLOCK_SIZE * gridDim) num_rows)
           (seq 0 BLOCK_SIZE).

(** One block of the kernel: the shared histogram is cleared, the rows of
    the block are counted in the order of their atomic increments, and the
    histogram is flushed. *)
Definition compute_row_partition_numbers_block (env : exec_env)
    (the_hasher : nat -> Z) (num_rows num_partitions : nat)
    (the_partitioner : Z -> Z) (gridDim : nat)
    (st : routing) (blockIdx : nat) : routing :=
  let smem := map (histogram_smem env blockIdx) (seq 0 num_partitions) in
  let shared_partition_sizes :=
    apply_stores
      (map (fun partition_number => (partition_number, 0))
           (block_loop BLOCK_SIZE num_partitions))
      smem in
  let counted :=
    foldl (histogram_row the_hasher the_partitioner)
          (shared_partition_sizes, st)
          (atomic_order env blockIdx (block_rows gridDim blockIdx num_rows)) in
  foldl (histogram_flush gridDim blockIdx counted.1) counted.2
        (block_loop BLOCK_SIZE num_partitions).

(** The grid.  Blocks share no memory but the two output histograms, of
    which block [b] stores its own entries [p * gridDim + b] and adds
    atomically to the global entries; the blocks are run one after the
    other. *)
Definition compute_row_partition_numbers (env : exec_env)
    (the_hasher : nat -> Z) (num_rows num_partitions : nat)
    (the_partitioner : Z -> Z) (gridDim : nat) (st : routing) : routing :=
  foldl (compute_row_partition_numbers_block env the_hasher num_rows
           num_partitions the_partitioner gridDim)
        st (seq 0 gridDim).

(** Lines 232-236: the stores into [partition_offset_global]. *)
Definition partition_offset_global_stores (num_partitions gridDim blockIdx : nat)
    (scanned_block_partition_sizes : list nat) : list (nat * nat) :=
  map (fun ipartition =>
         (ipartition,
          scanned_block_partition_sizes !!! (ipartition * gridDim + blockIdx)))
      (block_loop BLOCK_SIZE num_partitions).

(** Lines 243-251: the stores into the staging buffer [block_output]. *)
Definition block_output_stores (input_buf : list Z)
    (num_rows gridDim blockIdx : nat)
    (row_partition_numbers row_partition_offset : list nat)
    (partition_offset_shared : list nat) : list (nat * Z) :=
  map (fun row_number =>
         let ipartition := row_partition_numbers !!! row_number in
         (partition_offset_shared !!! ipartition
            + row_partition_offset !!! row_number,
          input_buf !!! row_number))
      (block_rows gridDim blockIdx num_rows).

(** Lines 260-273: the stores into the output buffer. *)
Definition output_buf_stores (num_partitions : nat)
    (partition_offset_shared partition_offset_global : list nat)
    (block_output : list Z) : list (nat * Z) :=
  flat_map (fun threadIdx =>
    flat_map (fun ipartition =>
      let nelements_partition :=
        partition_offset_shared !!! (ipartition + 1)
          - partition_offset_shared !!! ipartition in
      map (fun row_offset =>
             (partition_offset_global !!! ipartition + row_offset,
              block_output
                !!! (partition_offset_shared !!! ipartition + row_offset)))
          (stride_loop (threadIdx mod nthreads_partition) nthreads_partition
                       nelements_partition))
      (stride_loop (threadIdx / nthreads_partition)
                   (BLOCK_SIZE / nthreads_partition) num_partitions))
    (seq 0 BLOCK_SIZE).

Definition partition_offset_global_of (env : exec_env)
    (column_index num_partitions gridDim blockIdx : nat)
    (scanned_block_partition_sizes : list nat) : list nat :=
  apply_stores
    (partition_offset_global_stores num_partitions gridDim blockIdx
       scanned_block_partition_sizes)
    (partition_offset_global_init env column_index blockIdx num_partitions).

Definition block_output_of (env : exec_env) (column_index : nat)
    (input_buf : list Z) (num_rows num_partitions gridDim blockIdx : nat)
    (rt : routing) : list Z :=
  apply_stores
    (block_output_stores input_buf num_rows gridDim blockIdx
       (row_partition_numbers rt) (row_partition_offset rt)
       (partition_offset_shared_of env column_index num_partitions gridDim
          blockIdx (block_partition_sizes rt)))
    (block_output_init env column_index blockIdx).

(** One block of the kernel. *)
Definition move_to_output_buffer_block (env : exec_env) (column_index : nat)
    (input_buf : list Z) (num_rows num_partitions : nat) (rt : routing)
    (scanned_block_partition_sizes : list nat) (gridDim : nat)
    (output_buf : list Z) (blockIdx : nat) : list Z :=
  apply_stores
    (output_buf_stores num_partitions
       (partition_offset_shared_of env column_index num_partitions gridDim
          blockIdx (block_partition_sizes rt))
       (partition_offset_global_of env column_index num_partitions gridDim
          blockIdx scanned_block_partition_sizes)
       (block_output_of env column_index input_buf num_rows num_partitions
          gridDim blockIdx rt))
    output_buf.

(** The grid: blocks share nothing but the output buffer. *)
Definition move_to_output_buffer (env : exec_env) (column_index : nat)
    (input_buf : list Z) (output_buf : list Z) (num_rows num_partitions : nat)
    (rt : routing) (scanned_block_partition_sizes : list nat)
    (gridDim : nat) : list Z :=
  foldl (move_to_output_buffer_block env column_index input_buf num_rows
           num_partitions rt scanned_block_partition_sizes gridDim)
        output_buf (seq 0 gridDim).

(** The routing tables of an invocation: the histogram kernel run on the
    freshly allocated (zero-filled) device vectors. *)
Definition routing_tables (H : hash_functions) (env : exec_env)
    (nullable : bool) (table_to_hash : table_view) (num_partitions : Z)
  : routing :=
  let num_rows := num_rows table_to_hash in
  let grid_size :=
    div_rounding_up_safe num_rows (BLOCK_SIZE * ROWS_PER_THREAD) in
  let N := Z.to_nat num_partitions in
  compute_row_partition_numbers env
    (the_hasher H nullable table_to_hash) num_rows N
    (if is_power_two num_partitions
     then bitwise_partitioner num_partitions
     else modulo_partitioner num_partitions)
    grid_size
    (mk_routing (replicate num_rows 0) (replicate num_rows 0)
                (replicate (grid_size * N) 0) (replicate N 0)).

End Unbounded.

(** * Specification vocabulary *)

(** ** Counting rows *)

(** The number of rows of [l] that [part] sends to partition [p]. *)
Fixpoint count_partition (part : nat -> nat) (p : nat) (l : list nat) : nat :=
  match l with
  | [] => 0
  | r :: l' => (if part r =? p then 1 else 0) + count_partition part p l'
  end.

(** The number of rows before [r] in [l] that go to the partition of [r]. *)
Fixpoint rank_in (part : nat -> nat) (l : list nat) (r : nat) : nat :=
  match l with
  | [] => 0
  | x :: l' =>
      if x =? r then 0
      else (if part x =? part r then 1 else 0) + rank_in part l' r
  end.

(** The events that [hash_partition_table] issues before it visits the
    columns. *)
Definition routing_events (table_to_hash : table_view) (num_partitions : Z)
  : list event :=
  let num_rows := num_rows table_to_hash in
  let grid_size :=
    div_rounding_up_safe num_rows (BLOCK_SIZE * ROWS_PER_THREAD) in
  let N := Z.to_nat num_partitions in
  [ ev_alloc buf_row_partition_numbers num_rows;
    ev_alloc buf_block_partition_sizes (grid_size * N);
    ev_alloc buf_scanned_block_partition_sizes (grid_size * N);
    ev_alloc buf_global_partition_sizes N;
    ev_alloc buf_row_partition_offset num_rows;
    ev_alloc buf_table_device_view (num_columns table_to_hash);
    ev_launch_compute_row_partition_numbers grid_size
      (is_power_two num_partitions);
    ev_exclusive_scan buf_block_partition_sizes;
    ev_exclusive_scan buf_global_partition_sizes;
    ev_memcpy_async_partition_offsets ].

(** ** Inputs and partitions of an invocation *)

(** The tables all of whose columns the scatter dispatcher accepts: they are
    of fixed width and have no null mask (lines 278 and 289). *)
Definition scatterable (t : table_view) : Prop :=
  Forall (fun c => is_fixed_width (ctype c) = true /\ null_mask c = None) t.

(** The key column indices are column indices of the table. *)
Definition valid_keys (t : table_view) (columns_to_hash : list nat) : Prop :=
  Forall (fun i => i < num_columns t) columns_to_hash.

(** The partition index that an invocation of [hash_partition] computes for
    a row: the partitioner selected for [num_partitions] applied to the hash
    of the key cells of the row. *)
Definition row_partition (H : hash_functions) (input : table_view)
    (columns_to_hash : list nat) (num_partitions : Z) (row_number : nat)
  : nat :=
  let table_to_hash := select input columns_to_hash in
  partition_number_of
    (the_hasher H (has_nulls table_to_hash) table_to_hash)
    (if is_power_two num_partitions
     then bitwise_partitioner num_partitions
     else modulo_partitioner num_partitions)
    row_number.

(** The number of rows of the input that go to a partition. *)
Definition partition_size (H : hash_functions) (input : table_view)
    (columns_to_hash : list nat) (num_partitions : Z) (p : nat) : nat :=
  count_partition (row_partition H input columns_to_hash num_partitions) p
    (seq 0 (num_rows input)).

(** ** What the scatter kernel expects of the routing tables *)

(** The routing tables of [num_rows] rows, [num_partitions] partitions and
    [gridDim] blocks, for the partition function [part] and the order
    [sched b] in which the rows of block [b] were counted: every row has its
    partition and its rank among the rows of its block and partition, and
    the block histogram holds the number of rows per partition and block,
    partition by partition. *)
Record routing_ok (part : nat -> nat) (sched : nat -> list nat)
    (num_rows num_partitions gridDim : nat) (rt : routing) : Prop := {
  rt_part_lt : forall r, part r < num_partitions;
  rt_sched : forall b, b < gridDim ->
    Permutation (sched b) (Unbounded.block_rows gridDim b num_rows);
  rt_length_numbers : length (row_partition_numbers rt) = num_rows;
  rt_length_offset : length (row_partition_offset rt) = num_rows;
  rt_length_block : length (block_partition_sizes rt) = num_partitions * gridDim;
  rt_length_global : length (global_partition_sizes rt) = num_partitions;
  rt_numbers : forall r, r < num_rows ->
    row_partition_numbers rt !!! r = part r;
  rt_offset : forall r, r < num_rows ->
    row_partition_offset rt !!! r = rank_in part (sched (block_of gridDim r)) r;
  rt_block : forall b p, b < gridDim -> p < num_partitions ->
    block_partition_sizes rt !!! (p * gridDim + b)
    = count_partition part p (sched b);
  rt_global : forall p, p < num_partitions ->
    global_partition_sizes rt !!! p = count_partition part p (seq 0 num_rows)
}.

(** The address in the output buffer at which the scatter kernel stores the
    cell of a row (lines 234, 247 and 268): the scanned block histogram at
    the partition and block of the row, plus the offset of the row. *)
Definition destination (gridDim : nat) (rt : routing) (row_number : nat)
  : nat :=
  exclusive_scan (block_partition_sizes rt)
    !!! (row_partition_numbers rt !!! row_number * gridDim
         + block_of gridDim row_number)
  + row_partition_offset rt !!! row_number.

(** The routing tables of an invocation: the histogram kernel run on the
    zero-filled device vectors with the partitioner selected for
    [num_partitions]. *)
Definition routing_tables (H : hash_functions) (env : exec_env)
    (nullable : bool) (table_to_hash : table_view) (num_partitions : Z)
  : option routing :=
  let num_rows := num_rows table_to_hash in
  let grid_size :=
    div_rounding_up_safe num_rows (BLOCK_SIZE * ROWS_PER_THREAD) in
  let N := Z.to_nat num_partitions in
  compute_row_partition_numbers env
    (the_hasher H nullable table_to_hash) num_rows N
    (if is_power_two num_partitions
     then bitwise_partitioner num_partitions
     else modulo_partitioner num_partitions)
    grid_size
    (mk_routing (replicate num_rows 0) (replicate num_rows 0)
                (replicate (grid_size * N) 0) (replicate N 0)).

(** The visit of the columns by [hash_partition_table], with the routing
    tables that the histogram kernel left. *)
Definition scatter_columns (env : exec_env)
    (input table_to_hash : table_view) (num_partitions : Z) (rt : routing)
  : host (list column_view) :=
  transform_columns
    (move_to_output_buffer_dispatcher env (Z.to_nat num_partitions) rt
       (exclusive_scan (block_partition_sizes rt))
       (div_rounding_up_safe (num_rows table_to_hash)
          (BLOCK_SIZE * ROWS_PER_THREAD)))
    0 input.

(** The columns that are scattered before the visit of the columns ends:
    the columns before the first one that the dispatcher rejects. *)
Fixpoint accepted_prefix (t : table_view) : table_view :=
  match t with
  | [] => []
  | c :: t' =>
      if is_fixed_width (ctype c) && bool_decide (null_mask c = None)
      then c :: accepted_prefix t'
      else []
  end.

(** The message of the error that ends the visit of the columns: that of
    the first column that the dispatcher rejects (lines 289 and 317). *)
Fixpoint rejection (t : table_view) : option string :=
  match t with
  | [] => None
  | c :: t' =>
      if is_fixed_width (ctype c) then
        if bool_decide (null_mask c = None) then rejection t'
        else Some "null input column unsupported"
      else Some "non-fixed width types unsupported"
  end.

(** [k] steps of a computation that may stop before, one after the other. *)
Fixpoint steps {S R : Type} (step : S -> S + R) (k : nat) (s : S) : S + R :=
  match k with
  | O => inl s
  | S k' =>
      match step s with
      | inl s' => steps step k' s'
      | inr r => inr r
      end
  end.

(** ** Sizes for which no counter wraps *)

(** The row loops of a grid: a thread leaves its loop with a row number
    below [num_rows + blockDim.x * gridDim.x], which has to be a
    [size_type]. *)
Definition rows_fit (gridDim num_rows : nat) : Prop :=
  (Z.of_nat num_rows + Z.of_nat BLOCK_SIZE * Z.of_nat gridDim <= 2 ^ 31)%Z.

(** The partition loops of a block: a thread leaves its loop with a
    partition number below [num_partitions + blockDim.x]. *)
Definition partitions_fit (num_partitions : nat) : Prop :=
  (Z.of_nat num_partitions + Z.of_nat BLOCK_SIZE <= 2 ^ 31)%Z.

(** The largest number of rows whose row loops fit with the grid that
    [hash_partition_table] launches, one block per
    [BLOCK_SIZE * ROWS_PER_THREAD] rows: 1908874240 rows take 466034 blocks,
    and 1908874240 + 512 * 466034 = 2^31. *)
Definition max_num_rows : Z := 1908874240.

(** ** Example inputs *)

(** A hash that combines the cells of a row in column order, a null cell
    contributing the sentinel 7. *)
Definition example_hash : hash_functions :=
  mk_hash_functions
    (fun _ cells =>
       fold_right (fun c acc =>
                     match c.2 with
                     | Some z => (z + 31 * acc)%Z
                     | None => (7 + 31 * acc)%Z
                     end) 0%Z cells)
    (fun _ seeds cells =>
       fold_right (fun c acc =>
                     match c.2 with
                     | Some z => (z + 31 * acc)%Z
                     | None => (7 + 31 * acc)%Z
                     end) (fold_right Z.add 0%Z seeds) cells).

(** An execution in which the atomic increments take effect in thread
    order and uninitialised memory holds arbitrary non-zero values. *)
Definition example_env : exec_env :=
  mk_env (fun _ l => l) (fun _ _ => 7) (fun _ _ _ => (-1)%Z)
         (fun _ _ _ => 9) (fun _ _ => (-2)%Z) (fun _ => (-3)%Z).

(** An execution in which the atomic increments take effect in the reverse
    of thread order and uninitialised shared memory happens to hold zeros. *)
Definition example_env_zero : exec_env :=
  mk_env (fun _ l => rev l) (fun _ _ => 0) (fun _ _ _ => 0%Z)
         (fun _ _ _ => 0) (fun _ _ => (-2)%Z) (fun _ => (-3)%Z).

(** Scenario 1 of Section 8: two key columns and a value column. *)
Definition example_table : table_view :=
  [ mk_column INT32 [1; 2; 1; 3; 1]%Z None;
    mk_column INT32 [1; 2; 1; 4; 1]%Z None;
    mk_column INT64 [3; 1; 4; 9; 2]%Z None ].


(** ** Results and traces in closed form *)

(** The row hashes as [hash] stores them in the INT32 column. *)
Definition hash_values (H : hash_functions) (input : table_view)
    (initial_hash : list Z) : list Z :=
  map (fun i =>
         int32_wrap
           (uint32_wrap
              (if bool_decide (initial_hash = [])
               then row_hasher H (has_nulls input)
                      (row_cells (has_nulls input) input i)
               else row_hasher_initial_values H (has_nulls input)
                      (map uint32_wrap initial_hash)
                      (row_cells (has_nulls input) input i))))
      (seq 0 (num_rows input)).

(** The events of the visit of the columns when every column is accepted:
    per column, in column order, the allocation of its output buffer and
    the launch of its scatter kernel. *)
Fixpoint scatter_events (column_index : nat) (columns : list column_view)
    (grid_size : nat) : list event :=
  match columns with
  | [] => []
  | c :: columns' =>
      ev_alloc (buf_output_column column_index) (size c)
      :: ev_launch_move_to_output_buffer column_index grid_size
      :: scatter_events (S column_index) columns' grid_size
  end.

(** ** Further example inputs *)


(** An execution in thread order in which uninitialised memory holds
    zeros. *)
Definition example_env_clean : exec_env :=
  mk_env (fun _ l => l) (fun _ _ => 0) (fun _ _ _ => 0%Z)
         (fun _ _ _ => 0) (fun _ _ => 0%Z) (fun _ => 0%Z).

(** * Properties *)

(** ** Integer conversions and partitioners *)

Lemma uint32_wrap_range z : (0 <= uint32_wrap z < 2 ^ 32)%Z.
Proof. unfold uint32_wrap. apply Z.mod_pos_bound. lia. Qed.

Lemma uint32_wrap_small z : (0 <= z < 2 ^ 32)%Z -> uint32_wrap z = z.
Proof. intros. unfold uint32_wrap. apply Z.mod_small. lia. Qed.

Lemma int32_wrap_small z : (- 2 ^ 31 <= z < 2 ^ 31)%Z -> int32_wrap z = z.
Proof. intros. unfold int32_wrap. rewrite Z.mod_small; lia. Qed.

Lemma modulo_partitioner_spec N h :
  (0 < N < 2 ^ 31)%Z ->
  modulo_partitioner N h = (uint32_wrap h mod N)%Z.
Proof.
  intros HN. unfold modulo_partitioner.
  rewrite (uint32_wrap_small N) by lia.
  pose proof (Z.mod_pos_bound (uint32_wrap h) N ltac:(lia)).
  apply int32_wrap_small. lia.
Qed.

Lemma bitwise_partitioner_spec k h :
  (0 <= k <= 30)%Z ->
  bitwise_partitioner (2 ^ k) h = (uint32_wrap h mod 2 ^ k)%Z.
Proof.
  intros Hk. unfold bitwise_partitioner.
  assert (0 < 2 ^ k <= 2 ^ 30)%Z as Hp.
  { split; [apply Z.pow_pos_nonneg; lia | apply Z.pow_le_mono_r; lia]. }
  cbv zeta. rewrite (int32_wrap_small (2 ^ k - 1)) by lia.
  rewrite (uint32_wrap_small (2 ^ k - 1)) by lia.
  replace (2 ^ k - 1)%Z with (Z.ones k) by (rewrite Z.ones_equiv; lia).
  rewrite Z.land_ones by lia.
  pose proof (Z.mod_pos_bound (uint32_wrap h) (2 ^ k) ltac:(lia)).
  apply int32_wrap_small. lia.
Qed.

Lemma is_power_two_pow2 k : (0 <= k <= 30)%Z -> is_power_two (2 ^ k) = true.
Proof.
  intros Hk. unfold is_power_two.
  assert (0 < 2 ^ k <= 2 ^ 30)%Z as Hp.
  { split; [apply Z.pow_pos_nonneg; lia | apply Z.pow_le_mono_r; lia]. }
  rewrite int32_wrap_small by lia.
  replace (2 ^ k - 1)%Z with (Z.ones k) by (rewrite Z.ones_equiv; lia).
  rewrite Z.land_ones by lia. rewrite Z.mod_same by lia. reflexivity.
Qed.

Lemma is_power_two_inv N :
  (0 < N < 2 ^ 31)%Z -> is_power_two N = true -> exists k, (0 <= k <= 30)%Z /\ N = (2 ^ k)%Z.
Proof.
  intros HN Hp. unfold is_power_two in Hp.
  rewrite int32_wrap_small in Hp by lia.
  apply Z.eqb_eq in Hp. symmetry in Hp.
  set (k := Z.log2 N).
  assert (0 <= k)%Z as Hk0 by apply Z.log2_nonneg.
  destruct (Z.log2_spec N ltac:(lia)) as [Hlo Hhi]. fold k in Hlo, Hhi.
  assert (k < 31)%Z as Hk.
  { destruct (Z_lt_ge_dec k 31) as [|Hge]; [done|].
    assert (2 ^ 31 <= 2 ^ k)%Z by (apply Z.pow_le_mono_r; lia). lia. }
  exists k. split; [lia|].
  destruct (Z.eq_dec N (2 ^ k)%Z) as [|Hne]; [done|exfalso].
  assert (Z.testbit (Z.land N (N - 1)) k = true) as Hbit.
  { rewrite Z.land_spec. apply andb_true_intro. split.
    - apply Z.bit_log2. lia.
    - assert (0 <= N - 1 - 2 ^ k < 2 ^ k)%Z as Hr.
      { replace (2 ^ Z.succ k)%Z with (2 * 2 ^ k)%Z in Hhi
          by (rewrite Z.pow_succ_r; lia). lia. }
      rewrite Z.testbit_true by lia.
      replace (N - 1)%Z with ((N - 1 - 2 ^ k) + 1 * 2 ^ k)%Z by lia.
      rewrite Z.div_add by lia.
      rewrite Z.div_small by lia. reflexivity. }
  rewrite Hp in Hbit. rewrite Z.bits_0 in Hbit. discriminate.
Qed.

(** The partition index is a valid one whichever functor is selected. *)
Lemma partition_of_range N h : (0 < N < 2 ^ 31)%Z -> (0 <= partition_of N h < N)%Z.
Proof.
  intros HN. unfold partition_of.
  destruct (is_power_two N) eqn:Hp.
  - destruct (is_power_two_inv N HN Hp) as (k & Hk & ->).
    rewrite bitwise_partitioner_spec by done.
    apply Z.mod_pos_bound. lia.
  - rewrite modulo_partitioner_spec by done.
    apply Z.mod_pos_bound. lia.
Qed.

Lemma partition_of_spec N h :
  (0 < N < 2 ^ 31)%Z -> partition_of N h = (uint32_wrap h mod N)%Z.
Proof.
  intros HN. unfold partition_of.
  destruct (is_power_two N) eqn:Hp.
  - destruct (is_power_two_inv N HN Hp) as (k & Hk & ->).
    by rewrite bitwise_partitioner_spec.
  - by rewrite modulo_partitioner_spec.
Qed.

(** ** Loops over threads *)

Lemma stride_loop_from_ge fuel i d bound x :
  In x (Unbounded.stride_loop_from fuel i d bound) -> i <= x.
Proof.
  revert i. induction fuel as [|fuel IH]; intros i; simpl; [done|].
  destruct (i <? bound); simpl; [|done].
  intros [->|Hin]; [lia|]. apply IH in Hin. lia.
Qed.

Lemma stride_loop_from_In fuel i d bound x :
  0 < d -> bound <= i + fuel ->
  In x (Unbounded.stride_loop_from fuel i d bound)
  <-> (i <= x < bound /\ (x - i) mod d = 0).
Proof.
  intros Hd. revert i. induction fuel as [|fuel IH]; intros i Hfuel; simpl.
  - split; [done|]. lia.
  - destruct (i <? bound) eqn:Hlt.
    + apply Nat.ltb_lt in Hlt. simpl. rewrite IH by lia. split.
      * intros [->|[[H1 H2] H3]].
        -- rewrite Nat.sub_diag. split; [lia|]. apply Nat.Div0.mod_0_l.
        -- split; [lia|].
           replace (x - i) with ((x - (i + d)) + 1 * d) by lia.
           by rewrite Nat.Div0.mod_add.
      * intros [[H1 H2] H3].
        destruct (decide (i = x)) as [|Hne]; [by left|right].
        assert (d <= x - i) as Hge.
        { destruct (le_lt_dec d (x - i)) as [|Hs]; [done|].
          rewrite Nat.mod_small in H3 by done. lia. }
        split; [lia|].
        replace (x - i) with ((x - (i + d)) + 1 * d) in H3 by lia.
        by rewrite Nat.Div0.mod_add in H3.
    + apply Nat.ltb_ge in Hlt. split; [done|]. lia.
Qed.

(** A thread whose first index is below the stride visits the indices of its
    residue class. *)
Lemma stride_loop_In s d bound x :
  s < d -> In x (Unbounded.stride_loop s d bound) <-> (x < bound /\ x mod d = s).
Proof.
  intros Hs. unfold Unbounded.stride_loop.
  rewrite stride_loop_from_In by lia. split.
  - intros [[H1 H2] H3]. split; [done|].
    apply Nat.Div0.div_exact in H3.
    replace x with (s + (x - s) / d * d) by lia.
    rewrite Nat.Div0.mod_add. by apply Nat.mod_small.
  - intros [H1 H2].
    pose proof (Nat.div_mod_eq x d) as Hx.
    split; [lia|].
    replace (x - s) with (0 + x / d * d) by lia.
    rewrite Nat.Div0.mod_add. by apply Nat.mod_small; lia.
Qed.

Lemma stride_loop_from_NoDup fuel i d bound :
  0 < d -> NoDup (Unbounded.stride_loop_from fuel i d bound).
Proof.
  intros Hd. revert i. induction fuel as [|fuel IH]; intros i; simpl.
  - constructor.
  - destruct (i <? bound); [|constructor].
    apply NoDup_cons. split; [|apply IH].
    rewrite list_elem_of_In. intros Hin.
    apply stride_loop_from_ge in Hin. lia.
Qed.

Lemma stride_loop_NoDup s d bound : 0 < d -> NoDup (Unbounded.stride_loop s d bound).
Proof. apply stride_loop_from_NoDup. Qed.

Lemma NoDup_flat_map {A B} (f : A -> list B) (l : list A) :
  NoDup l ->
  (forall a, In a l -> NoDup (f a)) ->
  (forall a a' b, In a l -> In a' l -> In b (f a) -> In b (f a') -> a = a') ->
  NoDup (flat_map f l).
Proof.
  induction l as [|a l IH]; intros Hl Hf Hdis; simpl; [constructor|].
  apply NoDup_cons in Hl as [Ha Hl].
  apply NoDup_app. split; [apply Hf; by left|]. split.
  - intros b Hb Hb'. apply list_elem_of_In in Hb, Hb'.
    apply in_flat_map in Hb' as (a' & Ha' & Hb').
    assert (a = a') as <- by (eapply Hdis; eauto; [by left|by right]).
    apply Ha. by apply list_elem_of_In.
  - apply IH; [done|..].
    + intros a' Ha'. apply Hf. by right.
    + intros a1 a2 b H1 H2. apply Hdis; by right.
Qed.

Lemma block_loop_In T bound x : In x (Unbounded.block_loop T bound) <-> x < bound /\ 0 < T.
Proof.
  unfold Unbounded.block_loop. rewrite in_flat_map. split.
  - intros (t & Ht & Hx). apply in_seq in Ht.
    apply stride_loop_In in Hx; lia.
  - intros [Hx HT]. exists (x mod T). split.
    + apply in_seq. pose proof (Nat.mod_upper_bound x T). lia.
    + apply stride_loop_In; [apply Nat.mod_upper_bound; lia|done].
Qed.

Lemma block_loop_NoDup T bound : NoDup (Unbounded.block_loop T bound).
Proof.
  unfold Unbounded.block_loop. apply NoDup_flat_map.
  - apply NoDup_seq.
  - intros t Ht. apply in_seq in Ht. apply stride_loop_NoDup. lia.
  - intros t t' x Ht Ht' Hx Hx'. apply in_seq in Ht, Ht'.
    apply stride_loop_In in Hx, Hx'; lia.
Qed.

(** Every index below the bound is visited by exactly one thread of the
    block, once. *)
Lemma block_loop_Permutation T bound :
  0 < T -> Permutation (Unbounded.block_loop T bound) (seq 0 bound).
Proof.
  intros HT. apply NoDup_Permutation.
  - apply block_loop_NoDup.
  - apply NoDup_seq.
  - intros x. rewrite !list_elem_of_In, block_loop_In, in_seq. lia.
Qed.

Lemma BLOCK_SIZE_pos : 0 < BLOCK_SIZE.
Proof. unfold BLOCK_SIZE. lia. Qed.

Lemma block_of_lt G r : 0 < G -> block_of G r < G.
Proof.
  intros HG. unfold block_of.
  apply Nat.Div0.div_lt_upper_bound.
  apply Nat.mod_upper_bound. pose proof BLOCK_SIZE_pos. lia.
Qed.

(** The rows of a block are the rows below [num_rows] that [block_of] sends
    to it. *)
Lemma block_rows_In G b R r :
  b < G -> In r (Unbounded.block_rows G b R) <-> r < R /\ block_of G r = b.
Proof.
  intros Hb. pose proof BLOCK_SIZE_pos as HT.
  unfold Unbounded.block_rows, block_of. rewrite in_flat_map. split.
  - intros (t & Ht & Hr). apply in_seq in Ht.
    apply stride_loop_In in Hr as [Hr Hm]; [|nia].
    split; [done|]. rewrite Hm.
    rewrite Nat.div_add by lia. rewrite Nat.div_small by lia. done.
  - intros [Hr <-].
    set (m := r mod (BLOCK_SIZE * G)).
    exists (m mod BLOCK_SIZE). split.
    + apply in_seq. pose proof (Nat.mod_upper_bound m BLOCK_SIZE). lia.
    + apply stride_loop_In.
      * pose proof (Nat.mod_upper_bound r (BLOCK_SIZE * G)) as Hm.
        fold m in Hm. pose proof (Nat.div_mod_eq m BLOCK_SIZE). nia.
      * split; [done|]. fold m. pose proof (Nat.div_mod_eq m BLOCK_SIZE). lia.
Qed.

Lemma block_rows_NoDup G b R : b < G -> NoDup (Unbounded.block_rows G b R).
Proof.
  intros Hb. pose proof BLOCK_SIZE_pos as HT.
  unfold Unbounded.block_rows. apply NoDup_flat_map.
  - apply NoDup_seq.
  - intros t Ht. apply stride_loop_NoDup. nia.
  - intros t t' x Ht Ht' Hx Hx'. apply in_seq in Ht, Ht'.
    apply stride_loop_In in Hx, Hx'; [lia|nia|nia].
Qed.

(** The blocks of the grid visit every row exactly once. *)
Lemma grid_rows_Permutation G R :
  0 < G ->
  Permutation (flat_map (fun b => Unbounded.block_rows G b R) (seq 0 G)) (seq 0 R).
Proof.
  intros HG. apply NoDup_Permutation.
  - apply NoDup_flat_map.
    + apply NoDup_seq.
    + intros b Hb. apply in_seq in Hb. apply block_rows_NoDup. lia.
    + intros b b' r Hb Hb' Hr Hr'. apply in_seq in Hb, Hb'.
      apply block_rows_In in Hr, Hr'; lia.
  - apply NoDup_seq.
  - intros r. rewrite !list_elem_of_In, in_flat_map, in_seq. split.
    + intros (b & Hb & Hr). apply in_seq in Hb.
      apply block_rows_In in Hr; lia.
    + intros Hr. exists (block_of G r). split.
      * apply in_seq. pose proof (block_of_lt G r HG). lia.
      * apply block_rows_In; [by apply block_of_lt|]. lia.
Qed.

(** ** Stores *)

Lemma apply_stores_snoc {A} (ws : list (nat * A)) w buf :
  apply_stores (ws ++ [w]) buf = store (apply_stores ws buf) w.
Proof. unfold apply_stores. apply foldl_snoc. Qed.

Lemma apply_stores_app {A} (ws ws' : list (nat * A)) buf :
  apply_stores (ws ++ ws') buf = apply_stores ws' (apply_stores ws buf).
Proof. unfold apply_stores. apply foldl_app. Qed.

Lemma apply_stores_length {A} (ws : list (nat * A)) buf :
  length (apply_stores ws buf) = length buf.
Proof.
  induction ws as [|w ws IH] using rev_ind; [done|].
  rewrite apply_stores_snoc. unfold store. by rewrite length_insert.
Qed.

(** A cell no store addresses keeps its contents. *)
Lemma apply_stores_lookup_other {A} (ws : list (nat * A)) buf k :
  (forall w, In w ws -> w.1 <> k) ->
  apply_stores ws buf !! k = buf !! k.
Proof.
  induction ws as [|w ws IH] using rev_ind; intros Hk; [done|].
  rewrite apply_stores_snoc. unfold store.
  rewrite list_lookup_insert_ne.
  - apply IH. intros w' Hw'. apply Hk. apply in_app_iff. by left.
  - apply Hk. apply in_app_iff. right. by left.
Qed.

(** A cell inside the buffer that all its stores address with the same
    value holds that value, in whatever order the stores take effect. *)
Lemma apply_stores_lookup {A} (ws : list (nat * A)) buf k v :
  k < length buf ->
  In (k, v) ws ->
  (forall w, In w ws -> w.1 = k -> w.2 = v) ->
  apply_stores ws buf !! k = Some v.
Proof.
  intros Hlen. induction ws as [|w ws IH] using rev_ind; intros Hin Huniq.
  - destruct Hin.
  - rewrite apply_stores_snoc. unfold store.
    destruct (decide (w.1 = k)) as [Heq|Hne].
    + rewrite <- (Huniq w); [|apply in_app_iff; right; by left|done].
      rewrite Heq. apply list_lookup_insert_eq.
      by rewrite apply_stores_length.
    + rewrite list_lookup_insert_ne by done. apply IH.
      * apply in_app_iff in Hin as [Hin|[Hw|[]]]; [done|].
        subst w. exfalso. by apply Hne.
      * intros w' Hw'. apply Huniq. apply in_app_iff. by left.
Qed.

Lemma apply_stores_lookup_total `{Inhabited A} (ws : list (nat * A)) buf k v :
  k < length buf ->
  In (k, v) ws ->
  (forall w, In w ws -> w.1 = k -> w.2 = v) ->
  apply_stores ws buf !!! k = v.
Proof.
  intros. apply list_lookup_total_correct. by apply apply_stores_lookup.
Qed.

Lemma apply_stores_lookup_total_other `{Inhabited A}
    (ws : list (nat * A)) buf k :
  (forall w, In w ws -> w.1 <> k) ->
  apply_stores ws buf !!! k = buf !!! k.
Proof.
  intros Hk. rewrite !list_lookup_total_alt.
  by rewrite apply_stores_lookup_other.
Qed.

(** ** Scans *)

Lemma exclusive_scan_from_length acc l :
  length (exclusive_scan_from acc l) = length l.
Proof. revert acc. induction l as [|x l IH]; intros acc; simpl; auto. Qed.

Lemma exclusive_scan_length l : length (exclusive_scan l) = length l.
Proof. apply exclusive_scan_from_length. Qed.

Lemma exclusive_scan_from_lookup acc l i :
  i < length l ->
  exclusive_scan_from acc l !! i = Some (acc + list_sum (take i l)).
Proof.
  revert acc i. induction l as [|x l IH]; intros acc i Hi; simpl in *; [lia|].
  destruct i as [|i]; simpl.
  - f_equal. lia.
  - rewrite IH by lia. f_equal. lia.
Qed.

(** Entry [i] of an exclusive scan is the sum of the entries before [i]. *)
Lemma exclusive_scan_lookup_total l i :
  i < length l -> exclusive_scan l !!! i = list_sum (take i l).
Proof.
  intros Hi. apply list_lookup_total_correct.
  unfold exclusive_scan. by rewrite exclusive_scan_from_lookup.
Qed.

Lemma inclusive_sum_from_length acc l :
  length (inclusive_sum_from acc l) = length l.
Proof. revert acc. induction l as [|x l IH]; intros acc; simpl; auto. Qed.

Lemma inclusive_sum_from_lookup acc l i :
  i < length l ->
  inclusive_sum_from acc l !! i = Some (acc + list_sum (take (S i) l)).
Proof.
  revert acc i. induction l as [|x l IH]; intros acc i Hi; simpl in *; [lia|].
  destruct i as [|i]; simpl.
  - f_equal. lia.
  - rewrite IH by lia. f_equal. simpl. lia.
Qed.

Lemma InclusiveSum_lookup_total l i :
  i < length l -> InclusiveSum l !!! i = list_sum (take (S i) l).
Proof.
  intros Hi. apply list_lookup_total_correct.
  unfold InclusiveSum. by rewrite inclusive_sum_from_lookup.
Qed.

Lemma sum_list_take_le l i : list_sum (take i l) <= list_sum l.
Proof.
  rewrite <- (take_drop i l) at 2. rewrite list_sum_app. lia.
Qed.

Lemma sum_list_take_S (l : list nat) i :
  i < length l -> list_sum (take (S i) l) = list_sum (take i l) + l !!! i.
Proof.
  intros Hi. rewrite (take_S_r l i (l !!! i)).
  - rewrite list_sum_app. simpl. lia.
  - by apply list_lookup_lookup_total_lt.
Qed.

Lemma sum_list_take_mono (l : list nat) i j :
  i <= j -> list_sum (take i l) <= list_sum (take j l).
Proof.
  intros Hij. replace i with (i `min` j) by lia.
  rewrite <- take_take. apply sum_list_take_le.
Qed.

(** The ranges that an exclusive scan assigns to two entries do not
    overlap. *)
Lemma sum_list_take_lt (l : list nat) i j :
  i < j -> i < length l ->
  list_sum (take i l) + l !!! i <= list_sum (take j l).
Proof.
  intros Hij Hi. rewrite <- sum_list_take_S by done.
  apply sum_list_take_mono. lia.
Qed.

Lemma scan_ranges_disjoint (l : list nat) i j k k' :
  i < length l -> j < length l ->
  k < l !!! i -> k' < l !!! j ->
  list_sum (take i l) + k = list_sum (take j l) + k' ->
  i = j /\ k = k'.
Proof.
  intros Hi Hj Hk Hk' Heq.
  destruct (lt_eq_lt_dec i j) as [[Hlt| ->]|Hlt].
  - pose proof (sum_list_take_lt l i j Hlt Hi). lia.
  - lia.
  - pose proof (sum_list_take_lt l j i Hlt Hj). lia.
Qed.

(** ** Counting rows *)

Lemma count_partition_app part p l l' :
  count_partition part p (l ++ l')
  = count_partition part p l + count_partition part p l'.
Proof. induction l as [|r l IH]; simpl; [done|]. rewrite IH. lia. Qed.

Lemma count_partition_Permutation part p l l' :
  Permutation l l' -> count_partition part p l = count_partition part p l'.
Proof. induction 1; simpl; lia. Qed.

Lemma count_partition_flat_map part p (f : nat -> list nat) l :
  count_partition part p (flat_map f l)
  = list_sum (map (fun b => count_partition part p (f b)) l).
Proof.
  induction l as [|b l IH]; simpl; [done|].
  by rewrite count_partition_app, IH.
Qed.

Lemma count_partition_le part p l : count_partition part p l <= length l.
Proof. induction l as [|r l IH]; simpl; [done|]. destruct (part r =? p); lia. Qed.

Lemma list_sum_map_add {A} (f g : A -> nat) l :
  list_sum (map (fun x => f x + g x) l)
  = list_sum (map f l) + list_sum (map g l).
Proof. induction l as [|x l IH]; simpl; lia. Qed.

Lemma list_sum_map_zero {A} (l : list A) : list_sum (map (fun _ => 0) l) = 0.
Proof. induction l as [|x l IH]; simpl; lia. Qed.

Lemma list_sum_indicator a s N :
  list_sum (map (fun p => if a =? p then 1 else 0) (seq s N))
  = if (s <=? a) && (a <? s + N) then 1 else 0.
Proof.
  revert s. induction N as [|N IH]; intros s; simpl.
  - destruct (Nat.leb_spec s a), (Nat.ltb_spec a (s + 0)); simpl; lia.
  - rewrite IH.
    destruct (Nat.eqb_spec a s), (Nat.leb_spec (S s) a), (Nat.leb_spec s a),
      (Nat.ltb_spec a (S s + N)), (Nat.ltb_spec a (s + S N)); simpl; lia.
Qed.

(** Every row goes to one partition: the counts of the partitions add up to
    the number of rows. *)
Lemma count_partition_total part N l :
  (forall r, In r l -> part r < N) ->
  list_sum (map (fun p => count_partition part p l) (seq 0 N)) = length l.
Proof.
  induction l as [|r l IH]; intros Hpart; simpl.
  - apply list_sum_map_zero.
  - rewrite list_sum_map_add, IH by (intros; apply Hpart; by right).
    rewrite list_sum_indicator.
    assert (part r < N) as Hr by (apply Hpart; by left).
    destruct (Nat.leb_spec 0 (part r)), (Nat.ltb_spec (part r) (0 + N));
      simpl; lia.
Qed.

Lemma rank_in_lt part l r :
  In r l -> rank_in part l r < count_partition part (part r) l.
Proof.
  induction l as [|x l IH]; intros Hin; simpl; [destruct Hin|].
  destruct (Nat.eqb_spec x r) as [->|Hne].
  - rewrite Nat.eqb_refl. lia.
  - destruct Hin as [|Hin]; [done|]. apply IH in Hin.
    destruct (part x =? part r); lia.
Qed.

(** Two rows of the same partition have different ranks. *)
Lemma rank_in_inj part l r r' :
  In r l -> In r' l -> part r = part r' ->
  rank_in part l r = rank_in part l r' -> r = r'.
Proof.
  intros Hr Hr' Hp. revert Hr Hr'.
  induction l as [|x l IH]; simpl; intros Hr Hr'; [destruct Hr|].
  destruct (Nat.eqb_spec x r) as [Hxr|Hne], (Nat.eqb_spec x r') as [Hxr'|Hne'].
  - congruence.
  - subst x. rewrite Hp, Nat.eqb_refl. lia.
  - subst x. rewrite <- Hp, Nat.eqb_refl. lia.
  - destruct Hr as [|Hr]; [done|]. destruct Hr' as [|Hr']; [done|].
    rewrite Hp. intros Heq. apply IH; [done|done|lia].
Qed.

(** ** The histogram kernel *)

Section HistogramKernel.
Variables (the_hasher : nat -> Z) (the_partitioner : Z -> Z).
Local Abbreviation part := (partition_number_of the_hasher the_partitioner).
Local Arguments partition_number_of : simpl never.

Lemma histogram_rows_spec l sh rt :
  NoDup l ->
  (forall r, In r l ->
     r < length (row_partition_numbers rt)
     /\ r < length (row_partition_offset rt)
     /\ part r < length sh) ->
  let res := foldl (histogram_row the_hasher the_partitioner) (sh, rt) l in
  length res.1 = length sh
  /\ (forall p, p < length sh ->
        res.1 !!! p = sh !!! p + count_partition part p l)
  /\ length (row_partition_numbers res.2) = length (row_partition_numbers rt)
  /\ length (row_partition_offset res.2) = length (row_partition_offset rt)
  /\ block_partition_sizes res.2 = block_partition_sizes rt
  /\ global_partition_sizes res.2 = global_partition_sizes rt
  /\ (forall r, In r l ->
        row_partition_numbers res.2 !!! r = part r
        /\ row_partition_offset res.2 !!! r
           = sh !!! part r + rank_in part l r)
  /\ (forall r, ~ In r l ->
        row_partition_numbers res.2 !! r = row_partition_numbers rt !! r
        /\ row_partition_offset res.2 !! r = row_partition_offset rt !! r).
Proof.
  revert sh rt.
  induction l as [|x l IH]; intros sh rt Hnd Hb res.
  - subst res. simpl. repeat split; try done; intros; simpl; try lia; contradiction.
  - apply NoDup_cons in Hnd as [Hx Hnd]. rewrite list_elem_of_In in Hx.
    destruct (Hb x ltac:(by left)) as (Hx1 & Hx2 & Hx3).
    subst res. cbn [foldl].
    set (st' := histogram_row the_hasher the_partitioner (sh, rt) x).
    assert (st' = (st'.1, st'.2)) as Hst by (by destruct st').
    rewrite Hst.
    destruct (IH st'.1 st'.2 Hnd) as (L1 & S1 & L2 & L3 & B1 & G1 & R1 & R2).
    { intros r Hr. destruct (Hb r ltac:(by right)) as (? & ? & ?).
      subst st'. cbn. rewrite !length_insert. done. }
    clear IH. subst st'. cbn in *.
    rewrite !length_insert in *.
    repeat split; try done.
    + intros p Hp. rewrite S1 by done.
      rewrite list_lookup_total_insert.
      destruct (Nat.eqb_spec (part x) p) as [->|Hne].
      * rewrite decide_True by done. lia.
      * rewrite decide_False by (intros []; done). lia.
    + destruct H as [<-|Hr].
      * destruct (R2 x Hx) as [E1 _].
        apply list_lookup_total_correct. rewrite E1.
        by apply list_lookup_insert_eq.
      * by apply R1.
    + destruct H as [<-|Hr].
      * destruct (R2 x Hx) as [_ E2]. rewrite Nat.eqb_refl.
        apply list_lookup_total_correct. rewrite E2.
        rewrite list_lookup_insert_eq by done. f_equal. lia.
      * destruct (R1 r Hr) as [_ ->].
        destruct (Nat.eqb_spec x r) as [->|Hne]; [done|].
        rewrite list_lookup_total_insert.
        destruct (Nat.eqb_spec (part x) (part r)) as [Heq|Hne'].
        -- rewrite decide_True by done. rewrite Heq. lia.
        -- rewrite decide_False by (intros []; done). lia.
    + destruct (R2 r ltac:(tauto)) as [-> _].
      apply list_lookup_insert_ne. tauto.
    + destruct (R2 r ltac:(tauto)) as [_ ->].
      apply list_lookup_insert_ne. tauto.
Qed.

Lemma histogram_flush_spec G b sh l rt :
  NoDup l -> b < G ->
  (forall p, In p l ->
     p < length (global_partition_sizes rt)
     /\ p * G + b < length (block_partition_sizes rt)) ->
  let res := foldl (histogram_flush G b sh) rt l in
  row_partition_numbers res = row_partition_numbers rt
  /\ row_partition_offset res = row_partition_offset rt
  /\ length (block_partition_sizes res) = length (block_partition_sizes rt)
  /\ length (global_partition_sizes res) = length (global_partition_sizes rt)
  /\ (forall p, In p l ->
        block_partition_sizes res !!! (p * G + b) = sh !!! p
        /\ global_partition_sizes res !!! p
           = global_partition_sizes rt !!! p + sh !!! p)
  /\ (forall k, (forall p, In p l -> k <> p * G + b) ->
        block_partition_sizes res !! k = block_partition_sizes rt !! k)
  /\ (forall p, ~ In p l ->
        global_partition_sizes res !! p = global_partition_sizes rt !! p).
Proof.
  intros Hnd Hb. revert rt.
  induction l as [|x l IH]; intros rt Hlen res.
  - subst res. simpl. repeat split; try done; intros; contradiction.
  - apply NoDup_cons in Hnd as [Hx Hnd]. rewrite list_elem_of_In in Hx.
    destruct (Hlen x ltac:(by left)) as (Hx1 & Hx2).
    subst res. cbn [foldl].
    set (rt' := histogram_flush G b sh rt x).
    destruct (IH Hnd rt') as (E1 & E2 & L1 & L2 & P1 & P2 & P3).
    { intros p Hp. destruct (Hlen p ltac:(by right)) as (? & ?).
      subst rt'. cbn. rewrite !length_insert. done. }
    clear IH. subst rt'. cbn in *. rewrite !length_insert in *.
    repeat split; try done.
    + destruct H as [<-|Hp]; [|by apply P1].
      apply list_lookup_total_correct. rewrite P2.
      * by apply list_lookup_insert_eq.
      * intros p Hp Heq. assert (p = x) by nia. by subst.
    + destruct H as [<-|Hp].
      * apply list_lookup_total_correct. rewrite P3 by done.
        by apply list_lookup_insert_eq.
      * destruct (P1 p Hp) as [_ ->].
        rewrite list_lookup_total_insert_ne; [done|]. by intros ->.
    + intros k Hk. rewrite P2 by (intros; apply Hk; by right).
      apply list_lookup_insert_ne. intros Heq. eapply (Hk x); [by left|done].
    + intros p Hp. rewrite P3 by tauto.
      apply list_lookup_insert_ne. tauto.
Qed.


Variables (env : exec_env) (R N G : nat).
Hypothesis Horder : atomic_order_ok env.
Hypothesis Hpart : forall r, part r < N.

Local Abbreviation sched b := (atomic_order env b (Unbounded.block_rows G b R)).
Local Abbreviation cnt b p := (count_partition part p (sched b)).

Lemma sched_In b r : In r (sched b) <-> In r (Unbounded.block_rows G b R).
Proof.
  split; apply Permutation_in; [apply Horder|symmetry; apply Horder].
Qed.

Lemma sched_NoDup b : b < G -> NoDup (sched b).
Proof.
  intros Hb. apply (NoDup_Permutation_proper _ _ (Horder b _)).
  by apply block_rows_NoDup.
Qed.

Lemma cnt_block_rows b p :
  cnt b p = count_partition part p (Unbounded.block_rows G b R).
Proof. apply count_partition_Permutation, Horder. Qed.

Lemma histogram_shared_init (smem : list nat) :
  length smem = N ->
  apply_stores (map (fun p => (p, 0)) (Unbounded.block_loop BLOCK_SIZE N)) smem
  = replicate N 0.
Proof.
  intros Hlen. apply list_eq_same_length with N;
    [by rewrite length_replicate|by rewrite apply_stores_length|].
  intros i x y Hi Hx Hy.
  rewrite lookup_replicate_2 in Hy by done.
  rewrite (apply_stores_lookup _ _ i 0) in Hx.
  - congruence.
  - lia.
  - apply in_map_iff. exists i. split; [done|].
    apply block_loop_In. split; [done|apply BLOCK_SIZE_pos].
  - intros w Hw _. apply in_map_iff in Hw as (p & <- & _). done.
Qed.

Lemma compute_row_partition_numbers_block_spec rt b :
  b < G ->
  length (row_partition_numbers rt) = R ->
  length (row_partition_offset rt) = R ->
  length (block_partition_sizes rt) = G * N ->
  length (global_partition_sizes rt) = N ->
  let res :=
    Unbounded.compute_row_partition_numbers_block env the_hasher R N the_partitioner
      G rt b in
  length (row_partition_numbers res) = R
  /\ length (row_partition_offset res) = R
  /\ length (block_partition_sizes res) = G * N
  /\ length (global_partition_sizes res) = N
  /\ (forall r, In r (Unbounded.block_rows G b R) ->
        row_partition_numbers res !!! r = part r
        /\ row_partition_offset res !!! r = rank_in part (sched b) r)
  /\ (forall r, ~ In r (Unbounded.block_rows G b R) ->
        row_partition_numbers res !! r = row_partition_numbers rt !! r
        /\ row_partition_offset res !! r = row_partition_offset rt !! r)
  /\ (forall p, p < N ->
        block_partition_sizes res !!! (p * G + b) = cnt b p
        /\ global_partition_sizes res !!! p
           = global_partition_sizes rt !!! p + cnt b p)
  /\ (forall k, (forall p, p < N -> k <> p * G + b) ->
        block_partition_sizes res !! k = block_partition_sizes rt !! k).
Proof.
  intros Hb L1 L2 L3 L4 res. subst res.
  unfold Unbounded.compute_row_partition_numbers_block. cbv zeta.
  rewrite histogram_shared_init by (by rewrite length_map, length_seq).
  set (counted := foldl (histogram_row _ _) _ _).
  destruct (histogram_rows_spec (sched b) (replicate N 0) rt)
    as (A1 & A2 & A3 & A4 & A5 & A6 & A7 & A8).
  { by apply sched_NoDup. }
  { intros r Hr. apply sched_In, block_rows_In in Hr as [Hr _]; [|done].
    rewrite length_replicate. pose proof (Hpart r). lia. }
  fold counted in A1, A2, A3, A4, A5, A6, A7, A8.
  rewrite length_replicate in A1, A2.
  destruct (histogram_flush_spec G b counted.1
              (Unbounded.block_loop BLOCK_SIZE N) counted.2)
    as (B1 & B2 & B3 & B4 & B5 & B6 & B7).
  { apply block_loop_NoDup. }
  { done. }
  { intros p Hp. apply block_loop_In in Hp as [Hp _].
    rewrite A5, A6, L3, L4. split; [done|]. nia. }
  set (res := foldl (histogram_flush _ _ _) _ _) in *.
  rewrite B1, B2, B3, B4, A3, A4, A5, A6.
  repeat split; try done.
  - by apply A7, sched_In.
  - destruct (A7 r) as [_ ->]; [by apply sched_In|].
    rewrite lookup_total_replicate_2 by apply Hpart. done.
  - apply A8. by rewrite sched_In.
  - apply A8. by rewrite sched_In.
  - destruct (B5 p) as [-> _].
    { apply block_loop_In. split; [done|apply BLOCK_SIZE_pos]. }
    rewrite A2 by done. rewrite lookup_total_replicate_2 by done. done.
  - destruct (B5 p) as [_ ->].
    { apply block_loop_In. split; [done|apply BLOCK_SIZE_pos]. }
    rewrite A2 by done. rewrite lookup_total_replicate_2 by done.
    rewrite A6. done.
  - intros k Hk. rewrite B6, A5; [done|].
    intros p Hp. apply Hk. by apply block_loop_In in Hp as [Hp _].
Qed.


Lemma compute_row_partition_numbers_prefix k rt :
  k <= G ->
  length (row_partition_numbers rt) = R ->
  length (row_partition_offset rt) = R ->
  length (block_partition_sizes rt) = G * N ->
  length (global_partition_sizes rt) = N ->
  let res :=
    foldl (Unbounded.compute_row_partition_numbers_block env the_hasher R N
             the_partitioner G) rt (seq 0 k) in
  length (row_partition_numbers res) = R
  /\ length (row_partition_offset res) = R
  /\ length (block_partition_sizes res) = G * N
  /\ length (global_partition_sizes res) = N
  /\ (forall b r, b < k -> In r (Unbounded.block_rows G b R) ->
        row_partition_numbers res !!! r = part r
        /\ row_partition_offset res !!! r = rank_in part (sched b) r)
  /\ (forall b p, b < k -> p < N ->
        block_partition_sizes res !!! (p * G + b) = cnt b p)
  /\ (forall p, p < N ->
        global_partition_sizes res !!! p
        = global_partition_sizes rt !!! p
          + list_sum (map (fun b => cnt b p) (seq 0 k))).
Proof.
  intros Hk L1 L2 L3 L4.
  induction k as [|k IH]; intros res; subst res.
  - simpl. repeat split; try done; intros; lia.
  - rewrite seq_S, foldl_snoc. simpl.
    destruct IH as (I1 & I2 & I3 & I4 & I5 & I6 & I7); [lia|].
    set (rtk := foldl _ rt (seq 0 k)) in *.
    destruct (compute_row_partition_numbers_block_spec rtk k)
      as (B1 & B2 & B3 & B4 & B5 & B6 & B7 & B8); try done.
    set (res := Unbounded.compute_row_partition_numbers_block _ _ _ _ _ _ rtk k) in *.
    repeat split; try done.
    + destruct (decide (b = k)) as [->|Hne]; [by apply B5|].
      assert (~ In r (Unbounded.block_rows G k R)) as Hnot.
      { intros Hin. apply block_rows_In in Hin; [|lia].
        apply block_rows_In in H0; [|lia]. lia. }
      rewrite list_lookup_total_alt. destruct (B6 r Hnot) as [-> _].
      rewrite <- list_lookup_total_alt. apply (I5 b); [lia|done].
    + destruct (decide (b = k)) as [->|Hne]; [by apply B5|].
      assert (~ In r (Unbounded.block_rows G k R)) as Hnot.
      { intros Hin. apply block_rows_In in Hin; [|lia].
        apply block_rows_In in H0; [|lia]. lia. }
      rewrite list_lookup_total_alt. destruct (B6 r Hnot) as [_ ->].
      rewrite <- list_lookup_total_alt. apply (I5 b); [lia|done].
    + intros b p Hb Hp.
      destruct (decide (b = k)) as [->|Hne]; [by apply B7|].
      rewrite list_lookup_total_alt, B8, <- list_lookup_total_alt.
      * apply I6; [lia|done].
      * intros p' Hp' Heq.
        assert ((p * G + b) mod G = (p' * G + k) mod G) as Hm by congruence.
        rewrite !(Nat.add_comm (_ * G)), !Nat.Div0.mod_add in Hm.
        rewrite !Nat.mod_small in Hm by lia. lia.
    + intros p Hp. destruct (B7 p Hp) as [_ ->].
      rewrite I7 by done.
      rewrite map_app, list_sum_app. simpl. lia.
Qed.

(** The routing tables that the kernel leaves when it is run on zero-filled
    tables. *)
Lemma compute_row_partition_numbers_spec :
  0 < G ->
  let res :=
    Unbounded.compute_row_partition_numbers env the_hasher R N the_partitioner G
      (mk_routing (replicate R 0) (replicate R 0)
                  (replicate (G * N) 0) (replicate N 0)) in
  length (row_partition_numbers res) = R
  /\ length (row_partition_offset res) = R
  /\ length (block_partition_sizes res) = G * N
  /\ length (global_partition_sizes res) = N
  /\ (forall r, r < R ->
        row_partition_numbers res !!! r = part r
        /\ row_partition_offset res !!! r
           = rank_in part (sched (block_of G r)) r)
  /\ (forall b p, b < G -> p < N ->
        block_partition_sizes res !!! (p * G + b) = cnt b p)
  /\ (forall p, p < N ->
        global_partition_sizes res !!! p
        = count_partition part p (seq 0 R)).
Proof.
  intros HG res. subst res. unfold Unbounded.compute_row_partition_numbers.
  destruct (compute_row_partition_numbers_prefix G
              (mk_routing (replicate R 0) (replicate R 0)
                          (replicate (G * N) 0) (replicate N 0)))
    as (I1 & I2 & I3 & I4 & I5 & I6 & I7);
    try (simpl; by rewrite length_replicate); [done|].
  repeat split; try done.
  - apply (I5 (block_of G r)); [by apply block_of_lt|].
    apply block_rows_In; [by apply block_of_lt|done].
  - apply (I5 (block_of G r)); [by apply block_of_lt|].
    apply block_rows_In; [by apply block_of_lt|done].
  - intros p Hp. rewrite I7 by done. simpl.
    rewrite lookup_total_replicate_2 by done. simpl.
    rewrite <- (count_partition_Permutation _ _ _ _
                  (grid_rows_Permutation G R HG)).
    rewrite count_partition_flat_map.
    f_equal. apply map_ext. intros b. apply cnt_block_rows.
Qed.

End HistogramKernel.

(** ** Flat two-level tables *)

Lemma list_sum_lookups (l : list nat) :
  list_sum l = list_sum (map (fun i => l !!! i) (seq 0 (length l))).
Proof.
  induction l as [|x l IH] using rev_ind; [done|].
  rewrite length_app, Nat.add_comm. simpl length.
  rewrite seq_S, map_app, !list_sum_app. simpl.
  rewrite list_lookup_total_middle by done.
  rewrite IH at 1. f_equal. f_equal. apply map_ext_in.
  intros i Hi. apply in_seq in Hi.
  rewrite lookup_total_app_l by lia. done.
Qed.

(** The sum of a table of [N] rows of [G] entries, row by row. *)
Lemma list_sum_flat (l : list nat) G N :
  length l = N * G ->
  list_sum l
  = list_sum (map (fun p =>
                list_sum (map (fun b => l !!! (p * G + b)) (seq 0 G)))
              (seq 0 N)).
Proof.
  revert l. induction N as [|N IH]; intros l Hlen.
  - destruct l; [done|simpl in Hlen; lia].
  - rewrite seq_S, map_app, list_sum_app. simpl.
    rewrite <- (take_drop (N * G) l) at 1. rewrite list_sum_app.
    rewrite (IH (take (N * G) l)) by (rewrite length_take; lia).
    rewrite (list_sum_lookups (drop (N * G) l)).
    rewrite length_drop, Hlen.
    replace (S N * G - N * G) with G by lia.
    f_equal; [|rewrite Nat.add_0_r].
    + f_equal. apply map_ext_in. intros p Hp. apply in_seq in Hp.
      f_equal. apply map_ext_in. intros b Hb. apply in_seq in Hb.
      apply lookup_total_take_lt. nia.
    + f_equal. apply map_ext_in. intros b Hb.
      by rewrite lookup_total_drop.
Qed.

Lemma list_sum_take_flat (l : list nat) G N p :
  length l = N * G -> p <= N ->
  list_sum (take (p * G) l)
  = list_sum (map (fun q =>
                list_sum (map (fun b => l !!! (q * G + b)) (seq 0 G)))
              (seq 0 p)).
Proof.
  intros Hlen Hp.
  rewrite (list_sum_flat (take (p * G) l) G p) by (rewrite length_take; nia).
  f_equal. apply map_ext_in. intros q Hq. apply in_seq in Hq.
  f_equal. apply map_ext_in. intros b Hb. apply in_seq in Hb.
  apply lookup_total_take_lt. nia.
Qed.

Lemma list_sum_take_map (f : nat -> nat) n k :
  k <= n -> list_sum (take k (map f (seq 0 n))) = list_sum (map f (seq 0 k)).
Proof.
  intros Hk. rewrite firstn_map. f_equal. f_equal.
  rewrite take_seq. f_equal. lia.
Qed.

(** ** Loop lengths *)

Lemma stride_loop_from_length fuel i d bound K :
  0 < d -> bound <= i + K * d ->
  length (Unbounded.stride_loop_from fuel i d bound) <= K.
Proof.
  intros Hd. revert i K. induction fuel as [|fuel IH]; intros i K HK; simpl.
  - lia.
  - destruct (Nat.ltb_spec i bound) as [Hlt|Hge]; simpl; [|lia].
    destruct K as [|K]; [lia|].
    apply le_n_S. apply IH. lia.
Qed.

Lemma flat_map_length_le {A B} (f : A -> list B) l K :
  (forall a, In a l -> length (f a) <= K) ->
  length (flat_map f l) <= length l * K.
Proof.
  induction l as [|a l IH]; intros Hf; simpl; [done|].
  rewrite length_app.
  pose proof (Hf a ltac:(by left)). 
  pose proof (IH ltac:(intros; apply Hf; by right)). lia.
Qed.

(** A block owns at most as many rows as its staging buffer has cells. *)
Lemma block_rows_length G b R :
  0 < G -> R <= G * (BLOCK_SIZE * ROWS_PER_THREAD) ->
  length (Unbounded.block_rows G b R) <= BLOCK_SIZE * ROWS_PER_THREAD.
Proof.
  intros HG HR. unfold Unbounded.block_rows.
  pose proof BLOCK_SIZE_pos.
  etransitivity; [apply (flat_map_length_le _ _ ROWS_PER_THREAD)|].
  - intros t Ht. apply stride_loop_from_length; nia.
  - by rewrite length_seq.
Qed.

Lemma foldl_apply_stores {A I} (f : I -> list (nat * A)) (l : list I) buf :
  foldl (fun o b => apply_stores (f b) o) buf l
  = apply_stores (flat_map f l) buf.
Proof.
  revert buf. induction l as [|b l IH]; intros buf; simpl; [done|].
  by rewrite IH, apply_stores_app.
Qed.

(** The histogram kernel leaves routing tables as the scatter kernel expects
    them. *)
Lemma compute_row_partition_numbers_ok env the_hasher the_partitioner R N G :
  atomic_order_ok env ->
  (forall r, partition_number_of the_hasher the_partitioner r < N) ->
  0 < G ->
  routing_ok (partition_number_of the_hasher the_partitioner)
    (fun b => atomic_order env b (Unbounded.block_rows G b R)) R N G
    (Unbounded.compute_row_partition_numbers env the_hasher R N the_partitioner G
       (mk_routing (replicate R 0) (replicate R 0)
                   (replicate (G * N) 0) (replicate N 0))).
Proof.
  intros Horder Hpart HG.
  destruct (compute_row_partition_numbers_spec the_hasher the_partitioner
              env R N G Horder Hpart HG)
    as (I1 & I2 & I3 & I4 & I5 & I6 & I7).
  split;
    [ done | intros b _; apply Horder | done | done | rewrite I3; lia | done
    | intros r Hr; by apply I5 | intros r Hr; by apply I5 | done | done ].
Qed.

(** ** The scatter kernel *)

Lemma map_seq_shift {A} (f : nat -> A) a n :
  map f (seq a n) = map (fun i => f (a + i)) (seq 0 n).
Proof.
  induction n as [|n IH]; [done|].
  rewrite !seq_S, !map_app, IH. simpl. done.
Qed.

(** The blocked arrangement of the items of a block scan: item [i] of thread
    [t] is item [E * t + i] of the block. *)
Lemma flat_map_blocked {A} (f : nat -> A) E T :
  flat_map (fun t => map (fun i => f (E * t + i)) (seq 0 E)) (seq 0 T)
  = map f (seq 0 (T * E)).
Proof.
  induction T as [|T IH]; [done|].
  rewrite seq_S, flat_map_app, IH. simpl.
  rewrite app_nil_r.
  replace (E + T * E) with (T * E + E) by lia.
  rewrite seq_app, map_app. f_equal.
  rewrite (map_seq_shift f). simpl. apply map_ext. intros i. f_equal. lia.
Qed.

Lemma nthreads_partition_pos : 0 < nthreads_partition.
Proof. unfold nthreads_partition. lia. Qed.

Lemma BLOCK_SIZE_nthreads :
  BLOCK_SIZE = nthreads_partition * (BLOCK_SIZE / nthreads_partition).
Proof. reflexivity. Qed.

Lemma ELEMENT_PER_BLOCK_pos : 0 < ELEMENT_PER_BLOCK.
Proof. unfold ELEMENT_PER_BLOCK. lia. Qed.

(** The copy loop visits every staged cell of every partition. *)
Lemma output_buf_stores_In N (pos glob : list nat) (stage : list Z) a v :
  In (a, v) (Unbounded.output_buf_stores N pos glob stage)
  <-> exists ip ro,
        ip < N /\ ro < pos !!! (ip + 1) - pos !!! ip
        /\ a = glob !!! ip + ro /\ v = stage !!! (pos !!! ip + ro).
Proof.
  pose proof nthreads_partition_pos as HP.
  pose proof BLOCK_SIZE_nthreads as HB.
  pose proof BLOCK_SIZE_pos as HT.
  set (Q := BLOCK_SIZE / nthreads_partition) in *.
  assert (0 < Q) as HQ by nia.
  unfold Unbounded.output_buf_stores. fold Q. rewrite in_flat_map. split.
  - intros (t & Ht & Hin). apply in_seq in Ht.
    apply in_flat_map in Hin as (ip & Hip & Hin).
    apply in_map_iff in Hin as (ro & Heq & Hro).
    injection Heq as <- <-.
    apply stride_loop_In in Hip as [Hip _];
      [|apply Nat.Div0.div_lt_upper_bound; lia].
    apply stride_loop_In in Hro as [Hro _];
      [|by apply Nat.mod_upper_bound; lia].
    by exists ip, ro.
  - intros (ip & ro & Hip & Hro & -> & ->).
    pose proof (Nat.mod_upper_bound ip Q ltac:(lia)) as Hq.
    pose proof (Nat.mod_upper_bound ro nthreads_partition ltac:(lia)) as Hr.
    exists (nthreads_partition * (ip mod Q) + ro mod nthreads_partition).
    assert ((nthreads_partition * (ip mod Q) + ro mod nthreads_partition)
              / nthreads_partition = ip mod Q) as Hd.
    { rewrite (Nat.mul_comm nthreads_partition), Nat.div_add_l by lia.
      rewrite Nat.div_small by done. lia. }
    assert ((nthreads_partition * (ip mod Q) + ro mod nthreads_partition)
              mod nthreads_partition = ro mod nthreads_partition) as Hm.
    { rewrite (Nat.mul_comm nthreads_partition), Nat.add_comm.
      rewrite Nat.Div0.mod_add. by apply Nat.mod_small. }
    split; [apply in_seq; nia|].
    apply in_flat_map. exists ip. split.
    + rewrite Hd. by apply stride_loop_In.
    + apply in_map_iff. exists ro. split; [done|].
      rewrite Hm. by apply stride_loop_In.
Qed.

Lemma partition_offset_shared_stores_In N (scanned : list nat) a v :
  In (a, v) (partition_offset_shared_stores N scanned)
  <-> (a = 0 /\ v = 0)
      \/ exists k, k < N /\ k < ELEMENT_PER_BLOCK * BLOCK_SIZE
                   /\ a = k + 1 /\ v = scanned !!! k.
Proof.
  pose proof ELEMENT_PER_BLOCK_pos as HE.
  unfold partition_offset_shared_stores.
  change (In (a, v) ((0, 0) :: ?l)) with ((0, 0) = (a, v) \/ In (a, v) l).
  split.
  - intros [Heq|Hin]; [left; by injection Heq as <- <-|right].
    apply in_flat_map in Hin as (t & Ht & Hin). apply in_seq in Ht.
    apply in_flat_map in Hin as (i & Hi & Hin). apply in_seq in Hi.
    destruct (Nat.ltb_spec (ELEMENT_PER_BLOCK * t + i) N) as [Hlt|Hge];
      [|destruct Hin].
    destruct Hin as [Heq|[]]. injection Heq as <- <-.
    exists (ELEMENT_PER_BLOCK * t + i). repeat split; [done|nia].
  - intros [[-> ->]|(k & Hk & Hk' & -> & ->)]; [by left|right].
    pose proof (Nat.div_mod_eq k ELEMENT_PER_BLOCK) as Hdm.
    pose proof (Nat.mod_upper_bound k ELEMENT_PER_BLOCK ltac:(lia)) as Hm.
    apply in_flat_map. exists (k / ELEMENT_PER_BLOCK). split.
    { apply in_seq. split; [lia|].
      apply Nat.Div0.div_lt_upper_bound. lia. }
    apply in_flat_map. exists (k mod ELEMENT_PER_BLOCK). split.
    { apply in_seq. lia. }
    rewrite <- Hdm.
    destruct (Nat.ltb_spec k N) as [_|?]; [by left|lia].
Qed.

(** ** The loops of the program when no counter wraps *)

Lemma stride_loop_lt s d n x :
  In x (Unbounded.stride_loop s d n) -> x < n.
Proof.
  unfold Unbounded.stride_loop. generalize n at 1 as fuel. intros fuel.
  revert s. induction fuel as [|fuel IH]; intros s; simpl; [done|].
  destruct (Nat.ltb_spec s n); [|done].
  intros [<-|Hin]; [done|]. by eapply IH.
Qed.

Lemma steps_add {S R} (step : S -> S + R) a b s :
  steps step (a + b) s
  = match steps step a s with
    | inl s' => steps step b s'
    | inr r => inr r
    end.
Proof.
  revert s. induction a as [|a IH]; intros s; simpl; [done|].
  destruct (step s); [apply IH|done].
Qed.

Lemma iterate_steps {S R} (step : S -> S + R) n s :
  iterate step n s = steps step (Pos.to_nat n) s.
Proof.
  revert s. induction n as [n IH|n IH|]; intros s.
  - rewrite Pos2Nat.inj_xI. simpl. destruct (step s) as [s'|r]; [|done].
    rewrite Nat.add_0_r, steps_add, IH.
    destruct (steps step (Pos.to_nat n) s'); [apply IH|done].
  - rewrite Pos2Nat.inj_xO. simpl.
    rewrite Nat.add_0_r, steps_add, IH.
    destruct (steps step (Pos.to_nat n) s); [apply IH|done].
  - simpl. by destruct (step s).
Qed.

Lemma steps_stop {S R} (step : S -> S + R) k m s r :
  steps step k s = inr r -> k <= m -> steps step m s = inr r.
Proof.
  intros Hk Hm. replace m with (k + (m - k)) by lia.
  by rewrite steps_add, Hk.
Qed.

Lemma int32_uint32_sum i d :
  (0 <= i)%Z -> (0 <= d)%Z -> (i + d < 2 ^ 31)%Z ->
  int32_wrap (uint32_wrap (uint32_wrap i + d)) = (i + d)%Z.
Proof.
  intros Hi Hd Hs.
  rewrite (uint32_wrap_small i) by lia.
  rewrite uint32_wrap_small by lia.
  apply int32_wrap_small. lia.
Qed.

Lemma size_type_loop_steps d n fuel i acc :
  0 < d ->
  (Z.of_nat n + Z.of_nat d <= 2 ^ 31)%Z ->
  n <= i + fuel ->
  steps (size_type_loop_step (Z.of_nat d) (Z.of_nat n)) (S fuel)
        (Z.of_nat i, acc)
  = inr (Some (rev acc
               ++ map Z.of_nat (Unbounded.stride_loop_from fuel i d n))).
Proof.
  intros Hd Hfit. revert i acc.
  induction fuel as [|fuel IH]; intros i acc Hfuel.
  - cbn [steps]. unfold size_type_loop_step. cbn [fst snd].
    destruct (Z.ltb_spec (Z.of_nat i) (Z.of_nat n)) as [Hlt|_]; [lia|].
    simpl. by rewrite app_nil_r.
  - change (steps ?f (S (S fuel)) ?s)
      with (match f s with
            | inl s' => steps f (S fuel) s'
            | inr r => inr r
            end).
    unfold size_type_loop_step at 1. cbn [fst snd].
    cbn [Unbounded.stride_loop_from].
    destruct (Z.ltb_spec (Z.of_nat i) (Z.of_nat n)) as [Hlt|Hge].
    + destruct (Z.ltb_spec (Z.of_nat i) 0) as [|_]; [lia|].
      destruct (Nat.ltb_spec i n) as [_|]; [|lia].
      rewrite int32_uint32_sum by lia.
      rewrite <- Nat2Z.inj_add, IH by lia.
      cbn [rev map]. by rewrite <- app_assoc.
    + destruct (Nat.ltb_spec i n) as [|_]; [lia|].
      simpl. by rewrite app_nil_r.
Qed.

Lemma size_type_loop_in_range s d n :
  0 < d ->
  (Z.of_nat n + Z.of_nat d <= 2 ^ 31)%Z ->
  size_type_loop (Z.of_nat s) (Z.of_nat d) (Z.of_nat n)
  = Some (map Z.of_nat (Unbounded.stride_loop s d n)).
Proof.
  intros Hd Hfit. unfold size_type_loop, Unbounded.stride_loop.
  rewrite iterate_steps.
  rewrite (steps_stop _ (S n) _ _
             (Some (map Z.of_nat (Unbounded.stride_loop_from n s d n)))).
  - done.
  - by rewrite size_type_loop_steps by lia.
  - change (2 ^ 32)%positive with 4294967296%positive. lia.
Qed.

Lemma size_type_indices_in_range s d n :
  0 < d ->
  (Z.of_nat n + Z.of_nat d <= 2 ^ 31)%Z ->
  size_type_indices (Z.of_nat s) (Z.of_nat d) (Z.of_nat n)
  = Some (Unbounded.stride_loop s d n).
Proof.
  intros Hd Hfit. unfold size_type_indices.
  rewrite size_type_loop_in_range by done. cbn [and_then].
  rewrite map_map. f_equal.
  erewrite map_ext; [apply map_id|]. intros x. apply Nat2Z.id.
Qed.

(** A loop whose bound is not positive is not entered. *)
Lemma size_type_indices_empty s d bound :
  (0 <= s)%Z -> (bound <= 0)%Z -> size_type_indices s d bound = Some [].
Proof.
  intros Hs Hb. unfold size_type_indices, size_type_loop.
  rewrite iterate_steps.
  rewrite (steps_stop _ 1 _ _ (Some [])).
  - done.
  - cbn [steps]. unfold size_type_loop_step. cbn [fst snd].
    destruct (Z.ltb_spec s bound); [lia|done].
  - lia.
Qed.

Lemma for_each_Some {A B} (f : A -> option (list B)) (g : A -> list B) l :
  (forall a, In a l -> f a = Some (g a)) ->
  for_each f l = Some (flat_map g l).
Proof.
  induction l as [|a l IH]; intros Hfg; [done|].
  cbn [for_each flat_map]. rewrite Hfg by (by left). cbn [and_then].
  rewrite IH by (intros; apply Hfg; by right). done.
Qed.

Lemma foldl_and_then {A B} (f : A -> B -> option A) (g : A -> B -> A) l a :
  (forall a b, In b l -> f a b = Some (g a b)) ->
  foldl (fun acc b => a' <~ acc ;; f a' b) (Some a) l = Some (foldl g a l).
Proof.
  revert a. induction l as [|b l IH]; intros a Hfg; [done|].
  cbn [foldl and_then]. rewrite Hfg by (by left).
  apply IH. intros; apply Hfg; by right.
Qed.

Lemma block_loop_in_range N :
  partitions_fit N ->
  block_loop N = Some (Unbounded.block_loop BLOCK_SIZE N).
Proof.
  unfold partitions_fit. intros Hfit.
  unfold block_loop, Unbounded.block_loop.
  apply for_each_Some. intros t Ht. apply in_seq in Ht.
  pose proof BLOCK_SIZE_pos as HB.
  assert (Z.of_nat BLOCK_SIZE = 512%Z) as HBZ by reflexivity.
  rewrite int32_wrap_small by lia.
  rewrite uint32_wrap_small by lia.
  by apply size_type_indices_in_range.
Qed.

Lemma block_rows_in_range G b R :
  b < G -> rows_fit G R ->
  block_rows G b R = Some (Unbounded.block_rows G b R).
Proof.
  unfold rows_fit. intros Hb Hfit.
  unfold block_rows, Unbounded.block_rows.
  apply for_each_Some. intros t Ht. apply in_seq in Ht.
  pose proof BLOCK_SIZE_pos as HB.
  assert (Z.of_nat BLOCK_SIZE = 512%Z) as HBZ by reflexivity.
  assert (Z.of_nat b * 512 + 512 <= 512 * Z.of_nat G)%Z as HbG by lia.
  rewrite HBZ in *.
  rewrite (uint32_wrap_small (Z.of_nat b * 512)) by lia.
  rewrite (uint32_wrap_small (Z.of_nat t + Z.of_nat b * 512)) by lia.
  rewrite int32_wrap_small by lia.
  rewrite (uint32_wrap_small (512 * Z.of_nat G)) by lia.
  replace (Z.of_nat t + Z.of_nat b * 512)%Z
    with (Z.of_nat (t + b * BLOCK_SIZE)) by lia.
  replace (512 * Z.of_nat G)%Z with (Z.of_nat (BLOCK_SIZE * G)) by lia.
  apply size_type_indices_in_range; lia.
Qed.

(** ** The kernels when no counter wraps *)

Lemma compute_row_partition_numbers_block_in_range env the_hasher R N P G
    st b :
  b < G -> rows_fit G R -> partitions_fit N ->
  compute_row_partition_numbers_block env the_hasher R N P G st b
  = Some (Unbounded.compute_row_partition_numbers_block env the_hasher R N P
            G st b).
Proof.
  intros Hb HR HN. unfold compute_row_partition_numbers_block.
  rewrite block_loop_in_range by done. cbn [and_then].
  rewrite block_rows_in_range by done. cbn [and_then]. done.
Qed.

Lemma compute_row_partition_numbers_in_range env the_hasher R N P G st :
  rows_fit G R -> partitions_fit N ->
  compute_row_partition_numbers env the_hasher R N P G st
  = Some (Unbounded.compute_row_partition_numbers env the_hasher R N P G st).
Proof.
  intros HR HN.
  unfold compute_row_partition_numbers, Unbounded.compute_row_partition_numbers.
  apply foldl_and_then. intros st' b Hb. apply in_seq in Hb.
  apply compute_row_partition_numbers_block_in_range; [lia|done|done].
Qed.

Lemma partition_offset_global_stores_in_range N G b sbps :
  partitions_fit N ->
  partition_offset_global_stores N G b sbps
  = Some (Unbounded.partition_offset_global_stores N G b sbps).
Proof.
  intros HN. unfold partition_offset_global_stores.
  by rewrite block_loop_in_range by done.
Qed.

Lemma block_output_stores_in_range input R G b rpn rpo pos :
  b < G -> rows_fit G R ->
  block_output_stores input R G b rpn rpo pos
  = Some (Unbounded.block_output_stores input R G b rpn rpo pos).
Proof.
  intros Hb HR. unfold block_output_stores.
  by rewrite block_rows_in_range by done.
Qed.

Lemma output_buf_stores_in_range N (pos glob : list nat) (stage : list Z) :
  partitions_fit N ->
  (forall p, p <= N ->
     (Z.of_nat (pos !!! p) + Z.of_nat nthreads_partition <= 2 ^ 31)%Z) ->
  output_buf_stores N pos glob stage
  = Some (Unbounded.output_buf_stores N pos glob stage).
Proof.
  unfold partitions_fit. intros HN Hpos.
  unfold output_buf_stores, Unbounded.output_buf_stores.
  assert (Z.of_nat BLOCK_SIZE = 512%Z) as HBZ by reflexivity.
  assert (Z.of_nat nthreads_partition = 16%Z) as HTZ by reflexivity.
  assert (BLOCK_SIZE / nthreads_partition = 32) as Hq by reflexivity.
  apply for_each_Some. intros t Ht. apply in_seq in Ht.
  rewrite Hq. rewrite size_type_indices_in_range by lia. cbn [and_then].
  apply for_each_Some. intros ip Hip.
  apply stride_loop_lt in Hip.
  cbv zeta.
  pose proof (Hpos ip ltac:(lia)) as H0.
  pose proof (Hpos (ip + 1) ltac:(lia)) as H1.
  rewrite int32_wrap_small by lia.
  destruct (Nat.le_gt_cases (pos !!! (ip + 1)) (pos !!! ip)) as [Hle|Hgt].
  - rewrite size_type_indices_empty by lia. cbn [and_then].
    replace (pos !!! (ip + 1) - pos !!! ip) with 0 by lia. done.
  - rewrite <- Nat2Z.inj_sub by lia.
    rewrite size_type_indices_in_range; [done|lia|lia].
Qed.

Section ScatterKernel.

Variables (env : exec_env) (part : nat -> nat) (sched : nat -> list nat).
Variables (R N G : nat) (rt : routing).
Hypothesis Hrt : routing_ok part sched R N G rt.
Hypothesis HG : 0 < G.

Local Abbreviation cnt b p := (count_partition part p (sched b)).
Local Abbreviation prefix b p :=
  (list_sum (map (fun q => cnt b q) (seq 0 p))).
Local Abbreviation bps := (block_partition_sizes rt).

Lemma routing_sched_In b r :
  b < G -> In r (sched b) <-> r < R /\ block_of G r = b.
Proof.
  intros Hb. rewrite <- block_rows_In by done.
  split; apply Permutation_in;
    [apply (rt_sched _ _ _ _ _ _ Hrt); done
    |symmetry; apply (rt_sched _ _ _ _ _ _ Hrt); done].
Qed.

Lemma prefix_S b p : prefix b (S p) = prefix b p + cnt b p.
Proof. rewrite seq_S, map_app, list_sum_app. simpl. lia. Qed.

Lemma prefix_mono b p q : p <= q -> prefix b p <= prefix b q.
Proof.
  induction 1 as [|q Hq IH]; [done|]. rewrite prefix_S. lia.
Qed.

(** The slot of a row in the staging buffer of its block. *)
Lemma slot_lt b r :
  b < G -> In r (sched b) ->
  prefix b (part r) + rank_in part (sched b) r < prefix b (S (part r)).
Proof.
  intros Hb Hr. rewrite prefix_S.
  pose proof (rank_in_lt part (sched b) r Hr). lia.
Qed.

Lemma prefix_ranges_disjoint b p q k k' :
  k < cnt b p -> k' < cnt b q ->
  prefix b p + k = prefix b q + k' -> p = q /\ k = k'.
Proof.
  intros Hk Hk' Heq.
  destruct (lt_eq_lt_dec p q) as [[Hlt| ->]|Hlt].
  - pose proof (prefix_mono b (S p) q Hlt) as Hm.
    rewrite prefix_S in Hm. lia.
  - lia.
  - pose proof (prefix_mono b (S q) p Hlt) as Hm.
    rewrite prefix_S in Hm. lia.
Qed.

Lemma cnt_sum p :
  list_sum (map (fun b => cnt b p) (seq 0 G))
  = count_partition part p (seq 0 R).
Proof.
  rewrite <- (count_partition_Permutation _ _ _ _
                (grid_rows_Permutation G R HG)).
  rewrite count_partition_flat_map. f_equal.
  apply map_ext_in. intros b Hb. apply in_seq in Hb.
  apply count_partition_Permutation.
  apply (rt_sched _ _ _ _ _ _ Hrt). lia.
Qed.

Lemma bps_row_sum p :
  p < N ->
  list_sum (map (fun b => bps !!! (p * G + b)) (seq 0 G))
  = count_partition part p (seq 0 R).
Proof.
  intros Hp. rewrite <- cnt_sum. f_equal.
  apply map_ext_in. intros b Hb. apply in_seq in Hb.
  apply (rt_block _ _ _ _ _ _ Hrt); lia.
Qed.

(** The block histogram counts every row once. *)
Lemma list_sum_bps : list_sum bps = R.
Proof.
  rewrite (list_sum_flat bps G N) by apply (rt_length_block _ _ _ _ _ _ Hrt).
  transitivity (length (seq 0 R)); [|apply length_seq].
  rewrite <- (count_partition_total part N (seq 0 R))
    by (intros r _; apply (rt_part_lt _ _ _ _ _ _ Hrt)).
  f_equal. apply map_ext_in. intros p Hp. apply in_seq in Hp.
  apply bps_row_sum. lia.
Qed.

Lemma list_sum_take_lookups (l : list nat) p :
  p <= length l ->
  list_sum (take p l) = list_sum (map (fun i => l !!! i) (seq 0 p)).
Proof.
  intros Hp. rewrite (list_sum_lookups (take p l)).
  rewrite length_take, Nat.min_l by done.
  f_equal. apply map_ext_in. intros i Hi. apply in_seq in Hi.
  apply lookup_total_take_lt. lia.
Qed.

(** The scanned block histogram at the first block of a partition is the
    scanned global histogram at the partition. *)
Lemma list_sum_take_bps p :
  p <= N ->
  list_sum (take (p * G) bps)
  = list_sum (take p (global_partition_sizes rt)).
Proof.
  intros Hp.
  rewrite (list_sum_take_flat bps G N)
    by (done || apply (rt_length_block _ _ _ _ _ _ Hrt)).
  rewrite list_sum_take_lookups
    by (by rewrite (rt_length_global _ _ _ _ _ _ Hrt)).
  f_equal. apply map_ext_in. intros q Hq. apply in_seq in Hq.
  rewrite bps_row_sum by lia.
  symmetry. apply (rt_global _ _ _ _ _ _ Hrt). lia.
Qed.

Lemma flat_index_lt p b : p < N -> b < G -> p * G + b < length bps.
Proof.
  intros Hp Hb. rewrite (rt_length_block _ _ _ _ _ _ Hrt). nia.
Qed.

Lemma destination_spec r :
  r < R ->
  destination G rt r
  = list_sum (take (part r * G + block_of G r) bps)
    + rank_in part (sched (block_of G r)) r.
Proof.
  intros Hr. unfold destination.
  rewrite (rt_numbers _ _ _ _ _ _ Hrt), (rt_offset _ _ _ _ _ _ Hrt) by done.
  rewrite exclusive_scan_lookup_total; [done|].
  apply flat_index_lt; [apply (rt_part_lt _ _ _ _ _ _ Hrt)|by apply block_of_lt].
Qed.

Lemma rank_lt_bps r :
  r < R ->
  rank_in part (sched (block_of G r)) r
  < bps !!! (part r * G + block_of G r).
Proof.
  intros Hr. pose proof (block_of_lt G r HG) as Hb.
  rewrite (rt_block _ _ _ _ _ _ Hrt);
    [|done|apply (rt_part_lt _ _ _ _ _ _ Hrt)].
  apply rank_in_lt. by apply routing_sched_In.
Qed.

(** Every row is sent to an address of the output buffer. *)
Lemma destination_lt r : r < R -> destination G rt r < R.
Proof.
  intros Hr. rewrite destination_spec by done.
  pose proof (rank_lt_bps r Hr) as Hk.
  pose proof (flat_index_lt (part r) (block_of G r)
                (rt_part_lt _ _ _ _ _ _ Hrt r) (block_of_lt G r HG)) as Hf.
  pose proof (sum_list_take_S bps _ Hf) as HS.
  pose proof (sum_list_take_le bps (S (part r * G + block_of G r))) as Hle.
  rewrite list_sum_bps in Hle. lia.
Qed.

(** No two rows are sent to the same address. *)
Lemma destination_inj r r' :
  r < R -> r' < R -> destination G rt r = destination G rt r' -> r = r'.
Proof.
  intros Hr Hr'. rewrite !destination_spec by done. intros Heq.
  pose proof (rt_part_lt _ _ _ _ _ _ Hrt) as Hpart.
  pose proof (block_of_lt G r HG) as Hb.
  pose proof (block_of_lt G r' HG) as Hb'.
  apply scan_ranges_disjoint in Heq as [Hf Hk];
    [|by apply flat_index_lt|by apply flat_index_lt
     |by apply rank_lt_bps|by apply rank_lt_bps].
  assert (block_of G r = block_of G r') as Hbb.
  { assert ((part r * G + block_of G r) mod G
            = (part r' * G + block_of G r') mod G) as Hm by congruence.
    rewrite !(Nat.add_comm (_ * G)), !Nat.Div0.mod_add in Hm.
    by rewrite !Nat.mod_small in Hm by done. }
  assert (part r = part r') as Hpp by nia.
  rewrite <- Hbb in Hk.
  apply (rank_in_inj part (sched (block_of G r))); try done.
  - by apply routing_sched_In.
  - apply routing_sched_In; [done|]. by rewrite Hbb.
Qed.

(** The address of a row lies in the range of its partition. *)
Lemma destination_in_partition r :
  r < R ->
  exclusive_scan (global_partition_sizes rt) !!! part r
  <= destination G rt r
  < exclusive_scan (global_partition_sizes rt) !!! part r
    + global_partition_sizes rt !!! part r.
Proof.
  intros Hr. rewrite destination_spec by done.
  pose proof (rt_part_lt _ _ _ _ _ _ Hrt r) as Hp.
  pose proof (block_of_lt G r HG) as Hb.
  rewrite exclusive_scan_lookup_total
    by (by rewrite (rt_length_global _ _ _ _ _ _ Hrt)).
  rewrite <- sum_list_take_S
    by (by rewrite (rt_length_global _ _ _ _ _ _ Hrt)).
  rewrite <- !list_sum_take_bps by lia.
  pose proof (rank_lt_bps r Hr) as Hk.
  pose proof (sum_list_take_S bps _ (flat_index_lt _ _ Hp Hb)) as HS.
  pose proof (sum_list_take_mono bps (part r * G)
                (part r * G + block_of G r) ltac:(lia)).
  pose proof (sum_list_take_mono bps (S (part r * G + block_of G r))
                (S (part r) * G) ltac:(lia)).
  lia.
Qed.

Hypothesis HN : N <= ELEMENT_PER_BLOCK * BLOCK_SIZE.
Hypothesis HR : R <= G * (BLOCK_SIZE * ROWS_PER_THREAD).

(** The rows of a block fit in its staging buffer. *)
Lemma prefix_total b :
  b < G -> prefix b N <= BLOCK_SIZE * ROWS_PER_THREAD.
Proof.
  intros Hb. rewrite count_partition_total.
  - rewrite (Permutation_length (rt_sched _ _ _ _ _ _ Hrt b Hb)).
    by apply block_rows_length.
  - intros r _. apply (rt_part_lt _ _ _ _ _ _ Hrt).
Qed.

Lemma temp_histo_spec b :
  b < G ->
  temp_histo N G b bps
  = map (fun k => if k <? N then cnt b k else 0)
        (seq 0 (BLOCK_SIZE * ELEMENT_PER_BLOCK)).
Proof.
  intros Hb. unfold temp_histo.
  rewrite (flat_map_blocked
             (fun k => if k <? N then bps !!! (b + k * G) else 0)).
  apply map_ext. intros k.
  destruct (Nat.ltb_spec k N) as [Hk|_]; [|done].
  rewrite Nat.add_comm. by apply (rt_block _ _ _ _ _ _ Hrt).
Qed.

Lemma InclusiveSum_temp_histo b k :
  b < G -> k < N ->
  InclusiveSum (temp_histo N G b bps) !!! k = prefix b (S k).
Proof.
  intros Hb Hk. rewrite InclusiveSum_lookup_total.
  - rewrite temp_histo_spec by done.
    rewrite list_sum_take_map by lia.
    f_equal. apply map_ext_in. intros j Hj. apply in_seq in Hj.
    destruct (Nat.ltb_spec j N); [done|lia].
  - rewrite temp_histo_spec by done.
    rewrite length_map, length_seq. lia.
Qed.

(** [partition_offset_shared] holds the exclusive scan of the histogram of
    the block, whatever the shared memory held before. *)
Lemma partition_offset_shared_spec c b p :
  b < G -> p <= N ->
  partition_offset_shared_of env c N G b bps !!! p = prefix b p.
Proof.
  intros Hb Hp. unfold partition_offset_shared_of.
  apply apply_stores_lookup_total.
  - unfold partition_offset_shared_init.
    rewrite length_map, length_seq. lia.
  - apply partition_offset_shared_stores_In.
    destruct p as [|k]; [by left|right].
    exists k. repeat split; try lia.
    by rewrite InclusiveSum_temp_histo by lia.
  - intros [a v] Hw Ha. cbn [fst snd] in *. subst a.
    apply partition_offset_shared_stores_In in Hw
      as [[-> ->]|(k & Hk & _ & -> & ->)]; [done|].
    rewrite InclusiveSum_temp_histo by done.
    by replace (k + 1) with (S k) by lia.
Qed.

Lemma partition_offset_global_spec c b p sbps :
  b < G -> p < N ->
  Unbounded.partition_offset_global_of env c N G b sbps !!! p = sbps !!! (p * G + b).
Proof.
  intros Hb Hp. unfold Unbounded.partition_offset_global_of.
  apply apply_stores_lookup_total.
  - unfold partition_offset_global_init. by rewrite length_map, length_seq.
  - unfold Unbounded.partition_offset_global_stores. apply in_map_iff.
    exists p. split; [done|].
    apply block_loop_In. split; [done|apply BLOCK_SIZE_pos].
  - intros [a v] Hw Ha. cbn [fst snd] in *. subst a.
    unfold Unbounded.partition_offset_global_stores in Hw.
    apply in_map_iff in Hw as (q & Heq & _). by injection Heq as -> <-.
Qed.

(** After the staging phase every row of the block is in its slot. *)
Lemma block_output_spec c b input r :
  b < G -> In r (sched b) ->
  Unbounded.block_output_of env c input R N G b rt
    !!! (prefix b (part r) + rank_in part (sched b) r)
  = input !!! r.
Proof.
  intros Hb Hr.
  pose proof (rt_part_lt _ _ _ _ _ _ Hrt) as Hpart.
  assert (forall r', In r' (Unbounded.block_rows G b R) ->
            partition_offset_shared_of env c N G b bps
              !!! (row_partition_numbers rt !!! r')
            + row_partition_offset rt !!! r'
            = prefix b (part r') + rank_in part (sched b) r') as Hslot.
  { intros r' Hr'. apply block_rows_In in Hr' as [Hr1 Hr2]; [|done].
    rewrite (rt_numbers _ _ _ _ _ _ Hrt) by done.
    rewrite (rt_offset _ _ _ _ _ _ Hrt) by done.
    rewrite Hr2. rewrite partition_offset_shared_spec; [done|done|].
    pose proof (Hpart r'). lia. }
  unfold Unbounded.block_output_of. apply apply_stores_lookup_total.
  - unfold block_output_init. rewrite length_map, length_seq.
    pose proof (slot_lt b r Hb Hr).
    pose proof (prefix_mono b (S (part r)) N ltac:(pose proof (Hpart r); lia)).
    pose proof (prefix_total b Hb). lia.
  - unfold Unbounded.block_output_stores. apply in_map_iff. exists r.
    assert (In r (Unbounded.block_rows G b R)) as Hr'.
    { apply block_rows_In; [done|]. by apply routing_sched_In. }
    split; [|done]. by rewrite Hslot.
  - intros [a v] Hw Ha. cbn [fst snd] in *. subst a.
    unfold Unbounded.block_output_stores in Hw.
    apply in_map_iff in Hw as (r' & Heq & Hr').
    injection Heq as Ha <-. rewrite Hslot in Ha by done.
    assert (In r' (sched b)) as Hr'' by
      (apply routing_sched_In; [done|]; by apply block_rows_In in Hr').
    apply prefix_ranges_disjoint in Ha as [Hp Hk];
      [|by apply rank_in_lt|by apply rank_in_lt].
    f_equal. by apply (rank_in_inj part (sched b)).
Qed.


Lemma move_to_output_buffer_stores c input out0 sbps :
  Unbounded.move_to_output_buffer env c input out0 R N rt sbps G
  = apply_stores
      (flat_map (fun b =>
         Unbounded.output_buf_stores N
           (partition_offset_shared_of env c N G b bps)
           (Unbounded.partition_offset_global_of env c N G b sbps)
           (Unbounded.block_output_of env c input R N G b rt))
         (seq 0 G))
      out0.
Proof.
  unfold Unbounded.move_to_output_buffer, Unbounded.move_to_output_buffer_block.
  apply (foldl_apply_stores (fun b =>
           Unbounded.output_buf_stores N
             (partition_offset_shared_of env c N G b bps)
             (Unbounded.partition_offset_global_of env c N G b sbps)
             (Unbounded.block_output_of env c input R N G b rt))).
Qed.

Lemma move_to_output_buffer_length c input out0 sbps :
  length (Unbounded.move_to_output_buffer env c input out0 R N rt sbps G)
  = length out0.
Proof. rewrite move_to_output_buffer_stores. apply apply_stores_length. Qed.

(** The scatter kernel stores the cell of every row at the address of the
    row, whatever the shared memory and the output buffer held before. *)
Lemma move_to_output_buffer_spec c input out0 r :
  length out0 = R -> r < R ->
  Unbounded.move_to_output_buffer env c input out0 R N rt (exclusive_scan bps) G
    !!! destination G rt r
  = input !!! r.
Proof.
  intros Hlen Hr.
  pose proof (rt_part_lt _ _ _ _ _ _ Hrt) as Hpart.
  pose proof (block_of_lt G r HG) as Hb.
  assert (In r (sched (block_of G r))) as Hin by (by apply routing_sched_In).
  rewrite move_to_output_buffer_stores.
  assert (forall b ip ro,
            b < G -> ip < N ->
            ro < partition_offset_shared_of env c N G b bps !!! (ip + 1)
                 - partition_offset_shared_of env c N G b bps !!! ip ->
            ro < bps !!! (ip * G + b)
            /\ Unbounded.partition_offset_global_of env c N G b (exclusive_scan bps)
                 !!! ip + ro
               = list_sum (take (ip * G + b) bps) + ro) as Hstore.
  { intros b ip ro Hb' Hip Hro.
    rewrite !partition_offset_shared_spec in Hro by (done || lia).
    replace (ip + 1) with (S ip) in Hro by lia. rewrite prefix_S in Hro.
    rewrite (rt_block _ _ _ _ _ _ Hrt) by done.
    split; [lia|].
    rewrite partition_offset_global_spec by done.
    rewrite exclusive_scan_lookup_total by (by apply flat_index_lt). done. }
  apply apply_stores_lookup_total.
  - rewrite Hlen. by apply destination_lt.
  - apply in_flat_map. exists (block_of G r). split; [apply in_seq; lia|].
    apply output_buf_stores_In.
    exists (part r), (rank_in part (sched (block_of G r)) r).
    rewrite !partition_offset_shared_spec by (done || pose proof (Hpart r); lia).
    replace (part r + 1) with (S (part r)) by lia. rewrite prefix_S.
    split; [done|]. split.
    { pose proof (rank_in_lt part _ r Hin). lia. }
    split.
    + rewrite destination_spec by done.
      rewrite partition_offset_global_spec by done.
      rewrite exclusive_scan_lookup_total by (by apply flat_index_lt). done.
    + symmetry. by apply block_output_spec.
  - intros [a v] Hw Ha. cbn [fst snd] in *. subst a.
    apply in_flat_map in Hw as (b & Hb' & Hw). apply in_seq in Hb'.
    apply output_buf_stores_In in Hw as (ip & ro & Hip & Hro & Ha & ->).
    destruct (Hstore b ip ro ltac:(lia) Hip Hro) as [Hro' Heq].
    rewrite Heq, destination_spec in Ha by done.
    apply scan_ranges_disjoint in Ha as [Hf Hk];
      [|by apply flat_index_lt|apply flat_index_lt; lia
       |by apply rank_lt_bps|done].
    assert (b = block_of G r) as ->.
    { assert ((ip * G + b) mod G = (part r * G + block_of G r) mod G)
        as Hm by congruence.
      rewrite !(Nat.add_comm (_ * G)), !Nat.Div0.mod_add in Hm.
      by rewrite !Nat.mod_small in Hm by lia. }
    assert (ip = part r) as -> by nia. subst ro.
    rewrite partition_offset_shared_spec by (done || pose proof (Hpart r); lia).
    by apply block_output_spec.
Qed.

(** In the supported range every store of the staging phase is inside the
    staging buffer. *)
Lemma block_output_stores_in_bounds c b input w :
  b < G ->
  In w (Unbounded.block_output_stores input R G b
          (row_partition_numbers rt) (row_partition_offset rt)
          (partition_offset_shared_of env c N G b bps)) ->
  w.1 < BLOCK_SIZE * ROWS_PER_THREAD.
Proof.
  intros Hb Hw. pose proof (rt_part_lt _ _ _ _ _ _ Hrt) as Hpart.
  unfold Unbounded.block_output_stores in Hw.
  apply in_map_iff in Hw as (r & <- & Hr). cbn [fst].
  apply block_rows_In in Hr as [Hr1 Hr2]; [|done].
  rewrite (rt_numbers _ _ _ _ _ _ Hrt), (rt_offset _ _ _ _ _ _ Hrt) by done.
  rewrite Hr2.
  rewrite partition_offset_shared_spec by (done || pose proof (Hpart r); lia).
  assert (In r (sched b)) as Hin by (by apply routing_sched_In).
  pose proof (slot_lt b r Hb Hin).
  pose proof (prefix_mono b (S (part r)) N ltac:(pose proof (Hpart r); lia)).
  pose proof (prefix_total b Hb). lia.
Qed.

(** In the supported range every store of the copy phase is inside the
    output buffer. *)
Lemma output_buf_stores_in_bounds c b input w :
  b < G ->
  In w (Unbounded.output_buf_stores N
          (partition_offset_shared_of env c N G b bps)
          (Unbounded.partition_offset_global_of env c N G b (exclusive_scan bps))
          (Unbounded.block_output_of env c input R N G b rt)) ->
  w.1 < R.
Proof.
  intros Hb Hw. destruct w as [a v].
  apply output_buf_stores_In in Hw as (ip & ro & Hip & Hro & -> & _).
  cbn [fst].
  rewrite !partition_offset_shared_spec in Hro by (done || lia).
  replace (ip + 1) with (S ip) in Hro by lia. rewrite prefix_S in Hro.
  rewrite partition_offset_global_spec by done.
  pose proof (flat_index_lt ip b Hip Hb) as Hf.
  rewrite exclusive_scan_lookup_total by done.
  pose proof (rt_block _ _ _ _ _ _ Hrt b ip Hb Hip) as Hbps.
  pose proof (sum_list_take_S bps _ Hf) as HS.
  pose proof (sum_list_take_le bps (S (ip * G + b))) as Hle.
  rewrite list_sum_bps in Hle. lia.
Qed.


(** In the supported range the scatter kernel of the program is the
    unbounded one: the entries of [partition_offset_shared] that the copy
    loops read are offsets into the staging buffer. *)
Lemma partition_offset_shared_bound c b p :
  b < G -> p <= N ->
  partition_offset_shared_of env c N G b bps !!! p
  <= BLOCK_SIZE * ROWS_PER_THREAD.
Proof.
  intros Hb Hp. rewrite partition_offset_shared_spec by done.
  etransitivity; [apply (prefix_mono b p N Hp)|by apply prefix_total].
Qed.

Lemma partitions_fit_max : partitions_fit N.
Proof.
  unfold partitions_fit. pose proof HN as HN'.
  change (ELEMENT_PER_BLOCK * BLOCK_SIZE) with 1024 in HN'.
  change (Z.of_nat BLOCK_SIZE) with 512%Z. lia.
Qed.

Lemma move_to_output_buffer_block_in_range c input sbps out b :
  b < G -> rows_fit G R ->
  move_to_output_buffer_block env c input R N rt sbps G out b
  = Some (Unbounded.move_to_output_buffer_block env c input R N rt sbps G
            out b).
Proof.
  intros Hb Hfit. unfold move_to_output_buffer_block. cbv zeta.
  rewrite partition_offset_global_stores_in_range by apply partitions_fit_max.
  cbn [and_then]. rewrite block_output_stores_in_range by done.
  cbn [and_then]. rewrite output_buf_stores_in_range.
  - unfold Unbounded.move_to_output_buffer_block,
      Unbounded.partition_offset_global_of, Unbounded.block_output_of.
    reflexivity.
  - apply partitions_fit_max.
  - intros p Hp. pose proof (partition_offset_shared_bound c b p Hb Hp) as Hle.
    change (BLOCK_SIZE * ROWS_PER_THREAD) with 4096 in Hle.
    change (Z.of_nat nthreads_partition) with 16%Z. lia.
Qed.

Lemma move_to_output_buffer_in_range c input out0 sbps :
  rows_fit G R ->
  move_to_output_buffer env c input out0 R N rt sbps G
  = Some (Unbounded.move_to_output_buffer env c input out0 R N rt sbps G).
Proof.
  intros Hfit.
  unfold move_to_output_buffer, Unbounded.move_to_output_buffer.
  apply foldl_and_then. intros out b Hb. apply in_seq in Hb.
  apply move_to_output_buffer_block_in_range; [lia|done].
Qed.

End ScatterKernel.

(** ** Host computations *)

Lemma result_bind {A B} (m : host A) (f : A -> host B) :
  result (bind m f)
  = match result m with inl e => inl e | inr a => result (f a) end.
Proof. unfold bind. by destruct (result m). Qed.

Lemma trace_bind {A B} (m : host A) (f : A -> host B) :
  trace (bind m f)
  = match result m with
    | inl _ => trace m
    | inr a => trace m ++ trace (f a)
    end.
Proof. unfold bind. by destruct (result m). Qed.

Lemma result_emit {B} e (k : host B) : result (emit e ;; k) = result k.
Proof. by rewrite result_bind. Qed.

Lemma trace_emit {B} e (k : host B) : trace (emit e ;; k) = e :: trace k.
Proof. by rewrite trace_bind. Qed.

(** The visit of the columns succeeds when every column does. *)
Lemma transform_columns_ok {A B} (f : nat -> A -> host B) (g : nat -> A -> B)
    i l :
  (forall j a, l !! j = Some a -> result (f (i + j) a) = inr (g (i + j) a)) ->
  result (transform_columns f i l) = inr (imap (fun j => g (i + j)) l).
Proof.
  revert i. induction l as [|a l IH]; intros i Hf; simpl; [done|].
  rewrite result_bind. rewrite <- (Nat.add_0_r i) at 1.
  rewrite (Hf 0 a) by done.
  rewrite result_bind, (IH (S i)).
  - simpl. rewrite Nat.add_0_r. do 2 f_equal.
    apply imap_ext. intros j b _. simpl. f_equal. lia.
  - intros j b Hj. replace (S i + j) with (i + S j) by lia. by apply Hf.
Qed.

(** The visit of the columns ends with the exception of the first column
    that raises one. *)
Lemma transform_columns_raises {A B} (f : nat -> A -> host B) i l :
  Exists (fun a => forall j, exists e, result (f j a) = inl e) l ->
  exists e, result (transform_columns f i l) = inl e.
Proof.
  intros Hex. revert i. induction Hex as [a l Ha|a l _ IH]; intros i; simpl.
  - destruct (Ha i) as [e He]. exists e. by rewrite result_bind, He.
  - rewrite result_bind. destruct (result (f i a)) as [e|b]; [by exists e|].
    rewrite result_bind. destruct (IH (S i)) as [e ->]. by exists e.
Qed.

Lemma transform_columns_result_inr {A B} (f : nat -> A -> host B) i l bs :
  result (transform_columns f i l) = inr bs ->
  length bs = length l
  /\ forall j a, l !! j = Some a ->
       exists b, bs !! j = Some b /\ result (f (i + j) a) = inr b.
Proof.
  revert i bs. induction l as [|a l IH]; intros i bs; simpl.
  - intros [= <-]. split; [done|]. intros j a Hj. by destruct j.
  - rewrite result_bind. destruct (result (f i a)) as [e|b] eqn:Hb; [done|].
    rewrite result_bind.
    destruct (result (transform_columns f (S i) l)) as [e|bs'] eqn:Hbs;
      [done|].
    simpl. intros [= <-]. destruct (IH _ _ Hbs) as [Hlen Hl].
    split; [simpl; lia|]. intros [|j] a' Hj; simpl in *.
    + injection Hj as <-. exists b. by rewrite Nat.add_0_r.
    + destruct (Hl j a' Hj) as (b' & ? & ?). exists b'.
      by replace (i + S j) with (S i + j) by lia.
Qed.

(** ** Tables *)

Lemma div_rounding_up_safe_spec a b :
  0 < b ->
  a <= div_rounding_up_safe a b * b /\ (0 < a -> 0 < div_rounding_up_safe a b).
Proof.
  intros Hb. unfold div_rounding_up_safe.
  pose proof (Nat.div_mod_eq a b) as Hdm.
  pose proof (Nat.mod_upper_bound a b ltac:(lia)) as Hm.
  destruct (Nat.eqb_spec (a mod b) 0) as [Hz|Hnz]; split; try nia.
Qed.

Lemma rows_per_block_pos : 0 < BLOCK_SIZE * ROWS_PER_THREAD.
Proof. unfold BLOCK_SIZE, ROWS_PER_THREAD. lia. Qed.

Lemma table_wf_lookup t i c : table_wf t -> t !! i = Some c -> size c = num_rows t.
Proof.
  intros Hwf Hc. unfold table_wf in Hwf. rewrite List.Forall_forall in Hwf.
  apply Hwf. apply list_elem_of_In. by eapply list_elem_of_lookup_2.
Qed.

(** A key subview with at least one key has the rows of the table. *)
Lemma select_num_rows t keys :
  table_wf t -> keys <> [] -> Forall (fun i => i < num_columns t) keys ->
  num_rows (select t keys) = num_rows t
  /\ num_columns (select t keys) = length keys.
Proof.
  intros Hwf Hne Hkeys. unfold select. split.
  - destruct keys as [|k keys]; [done|]. simpl.
    apply Forall_cons in Hkeys as [Hk _].
    destruct (lookup_lt_is_Some_2 t k Hk) as [c Hc]. rewrite Hc. simpl.
    by eapply table_wf_lookup.
  - clear Hne. induction Hkeys as [|k keys Hk _ IH]; [done|]. simpl.
    destruct (lookup_lt_is_Some_2 t k Hk) as [c ->]. simpl.
    unfold num_columns in *. simpl. f_equal. apply IH.
Qed.

(** The partition number of a row is a partition. *)
Lemma partition_number_of_lt the_hasher N r :
  (0 < N < 2 ^ 31)%Z ->
  partition_number_of the_hasher
    (if is_power_two N then bitwise_partitioner N else modulo_partitioner N) r
  < Z.to_nat N.
Proof.
  intros HN. unfold partition_number_of.
  pose proof (partition_of_range N (the_hasher r) HN) as Hr.
  unfold partition_of in Hr. destruct (is_power_two N); lia.
Qed.

Lemma routing_tables_ok H env nullable t N :
  atomic_order_ok env -> (0 < N < 2 ^ 31)%Z -> 0 < num_rows t ->
  let G := div_rounding_up_safe (num_rows t) (BLOCK_SIZE * ROWS_PER_THREAD) in
  routing_ok
    (partition_number_of (the_hasher H nullable t)
       (if is_power_two N then bitwise_partitioner N
        else modulo_partitioner N))
    (fun b => atomic_order env b (Unbounded.block_rows G b (num_rows t)))
    (num_rows t) (Z.to_nat N) G
    (Unbounded.routing_tables H env nullable t N).
Proof.
  intros Horder HN HR G. unfold Unbounded.routing_tables. fold G.
  apply compute_row_partition_numbers_ok; [done| |].
  - intros r. by apply partition_number_of_lt.
  - by apply (div_rounding_up_safe_spec _ _ rows_per_block_pos).
Qed.

(** ** The orchestrator *)

Lemma result_ret_bind {A B} (a : A) (f : A -> host B) :
  result (bind (ret a) f) = result (f a).
Proof. by rewrite result_bind. Qed.

Lemma trace_ret_bind {A B} (a : A) (f : A -> host B) :
  trace (bind (ret a) f) = trace (f a).
Proof. by rewrite trace_bind. Qed.

Lemma size_type_mul_in_range a b :
  (- 2 ^ 31 <= a * b < 2 ^ 31)%Z -> size_type_mul a b = ret (Z.to_nat (a * b)).
Proof. intros Hab. unfold size_type_mul. by rewrite bool_decide_true. Qed.

Lemma size_type_mul_overflow a b :
  ~ (- 2 ^ 31 <= a * b < 2 ^ 31)%Z ->
  size_type_mul a b = throw undefined_behaviour.
Proof. intros Hab. unfold size_type_mul. by rewrite bool_decide_false. Qed.

(** The assertion of the constructor never fails in [hash_partition_table]:
    the bitwise partitioner is constructed on the branch on which
    [is_power_two] holds. *)
Lemma make_partitioner_run N :
  make_partitioner N
  = ret (if is_power_two N then bitwise_partitioner N
         else modulo_partitioner N).
Proof.
  unfold make_partitioner, bitwise_partitioner_constructor.
  by destruct (is_power_two N).
Qed.

Lemma table_size_nat G N :
  (0 <= N)%Z -> Z.to_nat (Z.of_nat G * N) = G * Z.to_nat N.
Proof. intros HN. rewrite Z2Nat.inj_mul by lia. by rewrite Nat2Z.id. Qed.

Lemma move_to_output_buffer_dispatcher_ok env N rt sbps G j c out :
  is_fixed_width (ctype c) = true -> null_mask c = None ->
  move_to_output_buffer env j (cdata c)
    (map (output_buffer env j) (seq 0 (size c))) (size c) N rt sbps G
  = Some out ->
  result (move_to_output_buffer_dispatcher env N rt sbps G j c)
  = inr (mk_column (ctype c) out None)
  /\ trace (move_to_output_buffer_dispatcher env N rt sbps G j c)
     = [ev_alloc (buf_output_column j) (size c);
        ev_launch_move_to_output_buffer j G].
Proof.
  intros Hfw Hnm Hk. unfold move_to_output_buffer_dispatcher.
  rewrite Hfw, bool_decide_true by done.
  rewrite !result_emit, !trace_emit, Hk. done.
Qed.

Lemma move_to_output_buffer_dispatcher_inv env N rt sbps G j c b :
  result (move_to_output_buffer_dispatcher env N rt sbps G j c) = inr b ->
  is_fixed_width (ctype c) = true /\ null_mask c = None
  /\ exists out,
       move_to_output_buffer env j (cdata c)
         (map (output_buffer env j) (seq 0 (size c))) (size c) N rt sbps G
       = Some out
       /\ b = mk_column (ctype c) out None.
Proof.
  unfold move_to_output_buffer_dispatcher.
  destruct (is_fixed_width (ctype c)); [|done].
  destruct (bool_decide_reflect (null_mask c = None)); [|done].
  rewrite !result_emit.
  destruct (move_to_output_buffer _ _ _ _ _ _ _ _ _) as [out|]; [|done].
  intros [= <-]. eauto.
Qed.

Lemma move_to_output_buffer_dispatcher_raises env N rt sbps G j c :
  is_fixed_width (ctype c) = false ->
  result (move_to_output_buffer_dispatcher env N rt sbps G j c)
  = inl (logic_error "non-fixed width types unsupported")
  /\ trace (move_to_output_buffer_dispatcher env N rt sbps G j c) = [].
Proof.
  intros Hfw. unfold move_to_output_buffer_dispatcher. by rewrite Hfw.
Qed.

Lemma move_to_output_buffer_dispatcher_null env N rt sbps G j c :
  is_fixed_width (ctype c) = true -> null_mask c <> None ->
  result (move_to_output_buffer_dispatcher env N rt sbps G j c)
  = inl (logic_error "null input column unsupported")
  /\ trace (move_to_output_buffer_dispatcher env N rt sbps G j c) = [].
Proof.
  intros Hfw Hnm. unfold move_to_output_buffer_dispatcher.
  by rewrite Hfw, bool_decide_false.
Qed.

(** The length of the output buffer is that of the buffer the kernel was
    given. *)
Lemma move_to_output_buffer_block_Some_length env c input R N rt sbps G
    out b out' :
  move_to_output_buffer_block env c input R N rt sbps G out b = Some out' ->
  length out' = length out.
Proof.
  unfold move_to_output_buffer_block. cbv zeta.
  destruct (partition_offset_global_stores N G b sbps) as [gs|]; [|done].
  cbn [and_then].
  destruct (block_output_stores input R G b _ _ _) as [ss|]; [|done].
  cbn [and_then].
  destruct (output_buf_stores N _ _ _) as [os|]; [|done].
  cbn [and_then]. intros [= <-]. apply apply_stores_length.
Qed.

Lemma foldl_and_then_Some {A B} (f : A -> B -> option A) l acc a :
  foldl (fun acc b => a' <~ acc ;; f a' b) acc l = Some a ->
  exists a0, acc = Some a0.
Proof.
  revert acc. induction l as [|b l IH]; intros acc Hf; [by exists a|].
  cbn [foldl] in Hf. apply IH in Hf as [a1 Ha1].
  destruct acc as [a0|]; [by exists a0|done].
Qed.

Lemma foldl_and_then_invariant {A B} (f : A -> B -> option A)
    (P : A -> Prop) l a0 a :
  (forall a b a', f a b = Some a' -> P a -> P a') ->
  foldl (fun acc b => a' <~ acc ;; f a' b) (Some a0) l = Some a ->
  P a0 -> P a.
Proof.
  intros Hstep. revert a0. induction l as [|b l IH]; intros a0 Hf Ha0.
  - by injection Hf as <-.
  - cbn [foldl and_then] in Hf.
    destruct (foldl_and_then_Some _ _ _ _ Hf) as [a1 Ha1].
    rewrite Ha1 in Hf. eapply IH; [exact Hf|]. by eapply Hstep.
Qed.

Lemma move_to_output_buffer_Some_length env c input out0 R N rt sbps G out :
  move_to_output_buffer env c input out0 R N rt sbps G = Some out ->
  length out = length out0.
Proof.
  unfold move_to_output_buffer. intros Hk.
  apply (foldl_and_then_invariant _ (fun o => length o = length out0)
           _ _ _) in Hk; [done| |done].
  intros o b o' Ho Hlen.
  apply move_to_output_buffer_block_Some_length in Ho. congruence.
Qed.

(** The visit of the columns, as long as the scatter kernels have a value:
    the columns before the first rejected one are scattered in column
    order, and the visit ends with the error of the rejected column. *)
Lemma transform_columns_dispatch env N rt sbps G l i :
  (forall j c, l !! j = Some c ->
     exists out,
       move_to_output_buffer env (i + j) (cdata c)
         (map (output_buffer env (i + j)) (seq 0 (size c))) (size c) N rt
         sbps G
       = Some out) ->
  trace (transform_columns (move_to_output_buffer_dispatcher env N rt sbps G)
           i l)
  = scatter_events i (accepted_prefix l) G
  /\ forall msg, rejection l = Some msg ->
       result (transform_columns
                 (move_to_output_buffer_dispatcher env N rt sbps G) i l)
       = inl (logic_error msg).
Proof.
  revert i. induction l as [|c l IH]; intros i Hk; [done|].
  cbn [transform_columns accepted_prefix rejection].
  rewrite trace_bind, result_bind.
  destruct (is_fixed_width (ctype c)) eqn:Hfw.
  - destruct (bool_decide_reflect (null_mask c = None)) as [Hnm|Hnm].
    + destruct (Hk 0 c eq_refl) as [out Hout].
      rewrite Nat.add_0_r in Hout.
      destruct (move_to_output_buffer_dispatcher_ok env N rt sbps G i c out
                  Hfw Hnm Hout) as [-> ->].
      destruct (IH (S i)) as [Htr Hres].
      { intros j c' Hc'. replace (S i + j) with (i + S j) by lia.
        by apply Hk. }
      cbn [andb scatter_events]. rewrite trace_bind, result_bind. split.
      * destruct (result (transform_columns _ (S i) l)); simpl;
          rewrite Htr; [done|by rewrite app_nil_r].
      * intros msg Hmsg. by rewrite (Hres msg Hmsg).
    + destruct (move_to_output_buffer_dispatcher_null env N rt sbps G i c
                  Hfw Hnm) as [-> ->].
      cbn [andb]. split; [done|]. by intros msg [= <-].
  - destruct (move_to_output_buffer_dispatcher_raises env N rt sbps G i c
                Hfw) as [-> ->].
    cbn [andb]. split; [done|]. by intros msg [= <-].
Qed.

Lemma accepted_prefix_scatterable t : scatterable t -> accepted_prefix t = t.
Proof.
  induction 1 as [|c t [Hfw Hnm] _ IH]; [done|].
  cbn [accepted_prefix]. by rewrite Hfw, bool_decide_true, IH.
Qed.





(** The result of [hash_partition_table]: the product of the grid size and
    the number of partitions has to be a [size_type], the histogram kernel
    has to have a value, and the columns are visited with its tables. *)
Lemma hash_partition_table_result H env nullable input tth N :
  (0 <= N)%Z ->
  result (hash_partition_table H env nullable input tth N)
  = if bool_decide
         (Z.of_nat (div_rounding_up_safe (num_rows tth)
                      (BLOCK_SIZE * ROWS_PER_THREAD)) * N < 2 ^ 31)%Z
    then
      match routing_tables H env nullable tth N with
      | None => inl undefined_behaviour
      | Some rt =>
          match result (scatter_columns env input tth N rt) with
          | inl e => inl e
          | inr cols => inr (cols, exclusive_scan (global_partition_sizes rt))
          end
      end
    else inl undefined_behaviour.
Proof.
  intros HN. unfold hash_partition_table. cbv zeta. rewrite result_emit.
  set (G := div_rounding_up_safe _ _).
  destruct (bool_decide_reflect (Z.of_nat G * N < 2 ^ 31)%Z) as [Hlt|Hge].
  - rewrite size_type_mul_in_range by lia. rewrite result_ret_bind.
    rewrite !result_emit, make_partitioner_run, result_ret_bind, result_emit.
    rewrite table_size_nat by done.
    unfold routing_tables. cbv zeta. fold G.
    destruct (compute_row_partition_numbers _ _ _ _ _ _ _) as [rt|]; [|done].
    cbn [launch]. rewrite result_ret_bind, !result_emit.
    rewrite result_bind. unfold scatter_columns. fold G. done.
  - rewrite size_type_mul_overflow by lia. done.
Qed.

Lemma hash_partition_table_trace H env nullable input tth N rt :
  (0 <= N)%Z ->
  (Z.of_nat (div_rounding_up_safe (num_rows tth)
               (BLOCK_SIZE * ROWS_PER_THREAD)) * N < 2 ^ 31)%Z ->
  routing_tables H env nullable tth N = Some rt ->
  trace (hash_partition_table H env nullable input tth N)
  = routing_events tth N ++ trace (scatter_columns env input tth N rt).
Proof.
  intros HN Hlt Hrt. unfold hash_partition_table. cbv zeta.
  rewrite trace_emit.
  set (G := div_rounding_up_safe _ _) in *.
  rewrite size_type_mul_in_range by lia. rewrite trace_ret_bind.
  rewrite !trace_emit, make_partitioner_run, trace_ret_bind, trace_emit.
  rewrite table_size_nat by done.
  unfold routing_tables in Hrt. cbv zeta in Hrt. fold G in Hrt.
  rewrite Hrt. cbn [launch]. rewrite trace_ret_bind, !trace_emit.
  rewrite trace_bind. unfold routing_events, scatter_columns. cbv zeta.
  fold G.
  destruct (result (transform_columns _ _ _)); simpl; [done|].
  by rewrite app_nil_r.
Qed.

(** Past the guard, [hash_partition] is [hash_partition_table] on the key
    subview. *)
Lemma hash_partition_run H env input keys N :
  (0 < N)%Z -> 0 < num_rows input -> 0 < num_columns (select input keys) ->
  hash_partition H env input keys N
  = hash_partition_table H env (has_nulls (select input keys)) input
      (select input keys) N.
Proof.
  intros HN HR HK. unfold hash_partition. cbv zeta.
  destruct (Z.leb_spec N 0) as [|_]; [lia|].
  destruct (Nat.eqb_spec (num_rows input) 0) as [|_]; [lia|].
  destruct (Nat.eqb_spec (num_columns (select input keys)) 0) as [|_]; [lia|].
  simpl. by destruct (has_nulls (select input keys)).
Qed.

Lemma map_eq_lookup {A B C} (f : A -> C) (h : B -> C)
    (out : list A) (inp : list B) :
  length out = length inp ->
  (forall j c, inp !! j = Some c -> exists b, out !! j = Some b /\ f b = h c) ->
  map f out = map h inp.
Proof.
  revert out. induction inp as [|c inp IH]; intros [|b out] Hlen Hl;
    simpl in *; try done.
  destruct (Hl 0 c eq_refl) as (b' & [= <-] & ->). f_equal.
  apply IH; [lia|]. intros j c' Hj. apply (Hl (S j) c' Hj).
Qed.

(** ** The largest table *)

Lemma max_num_rows_grid R :
  (Z.of_nat R <= max_num_rows)%Z ->
  (Z.of_nat (div_rounding_up_safe R (BLOCK_SIZE * ROWS_PER_THREAD))
   <= 466034)%Z
  /\ rows_fit (div_rounding_up_safe R (BLOCK_SIZE * ROWS_PER_THREAD)) R.
Proof.
  unfold max_num_rows, rows_fit, div_rounding_up_safe. intros HR.
  change (BLOCK_SIZE * ROWS_PER_THREAD) with 4096.
  change (Z.of_nat BLOCK_SIZE) with 512%Z.
  pose proof (Nat.div_mod_eq R 4096) as Hdm.
  pose proof (Nat.mod_upper_bound R 4096 ltac:(lia)) as Hm.
  destruct (Nat.eqb_spec (R mod 4096) 0) as [Hz|Hnz]; lia.
Qed.

Section Invocation.

Variables (H : hash_functions) (env : exec_env).
Variables (input : table_view) (columns_to_hash : list nat) (N : Z).
Hypothesis Hwf : table_wf input.
Hypothesis HR : 0 < num_rows input.
Hypothesis Hrows : (Z.of_nat (num_rows input) <= max_num_rows)%Z.
Hypothesis Hkeys_ne : columns_to_hash <> [].
Hypothesis Hkeys : valid_keys input columns_to_hash.
Hypothesis HN : (0 < N)%Z.
Hypothesis HNfit : (N + Z.of_nat BLOCK_SIZE <= 2 ^ 31)%Z.
Hypothesis Horder : atomic_order_ok env.

Local Abbreviation tth := (select input columns_to_hash).
Local Abbreviation nullable := (has_nulls (select input columns_to_hash)).
Local Abbreviation R := (num_rows input).
Local Abbreviation G :=
  (div_rounding_up_safe (num_rows input) (BLOCK_SIZE * ROWS_PER_THREAD)).
Local Abbreviation rt :=
  (Unbounded.routing_tables H env (has_nulls (select input columns_to_hash))
     (select input columns_to_hash) N).
Local Abbreviation part := (row_partition H input columns_to_hash N).
Local Abbreviation sched :=
  (fun b => atomic_order env b (Unbounded.block_rows G b R)).

Lemma invocation_num_rows : num_rows tth = R.
Proof. by apply select_num_rows. Qed.

Lemma invocation_num_columns : 0 < num_columns tth.
Proof.
  destruct (select_num_rows input columns_to_hash Hwf Hkeys_ne Hkeys)
    as [_ ->].
  destruct columns_to_hash; [done|simpl; lia].
Qed.

Lemma invocation_grid : 0 < G /\ R <= G * (BLOCK_SIZE * ROWS_PER_THREAD).
Proof.
  destruct (div_rounding_up_safe_spec R _ rows_per_block_pos). split; auto.
Qed.

Lemma invocation_partitions : (0 < N < 2 ^ 31)%Z.
Proof. change (Z.of_nat BLOCK_SIZE) with 512%Z in HNfit. lia. Qed.

Lemma invocation_rows_fit : rows_fit G R.
Proof. by apply max_num_rows_grid. Qed.

Lemma invocation_partitions_fit : partitions_fit (Z.to_nat N).
Proof. unfold partitions_fit. lia. Qed.

(** The histogram kernel of the invocation has a value, that of the
    unbounded kernel. *)
Lemma invocation_routing_tables :
  routing_tables H env nullable tth N = Some rt.
Proof.
  unfold routing_tables, Unbounded.routing_tables. cbv zeta.
  apply compute_row_partition_numbers_in_range.
  - rewrite invocation_num_rows. apply invocation_rows_fit.
  - apply invocation_partitions_fit.
Qed.

Lemma invocation_routing_ok : routing_ok part sched R (Z.to_nat N) G rt.
Proof.
  pose proof (routing_tables_ok H env nullable tth N Horder
                invocation_partitions) as Hok.
  rewrite invocation_num_rows in Hok. by apply Hok.
Qed.

Lemma invocation_run :
  hash_partition H env input columns_to_hash N
  = hash_partition_table H env nullable input tth N.
Proof.
  apply hash_partition_run; [lia|done|apply invocation_num_columns].
Qed.

(** Whatever [hash_partition] returns, the offsets are the scanned global
    histogram, and the columns are those of the visit of the columns. *)
Lemma invocation_result out offsets :
  result (hash_partition H env input columns_to_hash N) = inr (out, offsets) ->
  offsets = exclusive_scan (global_partition_sizes rt)
  /\ result (scatter_columns env input tth N rt) = inr out
  /\ (Z.of_nat G * N < 2 ^ 31)%Z.
Proof.
  rewrite invocation_run, hash_partition_table_result by lia.
  rewrite invocation_num_rows, invocation_routing_tables.
  destruct (bool_decide_reflect (Z.of_nat G * N < 2 ^ 31)%Z); [|done].
  destruct (result (scatter_columns _ _ _ _ _)); [done|].
  by intros [= <- <-].
Qed.

(** The scanned global histogram: the partition start offsets. *)
Lemma partition_offsets_spec :
  let offsets := exclusive_scan (global_partition_sizes rt) in
  length offsets = Z.to_nat N
  /\ offsets !!! 0 = 0
  /\ (forall p, S p < Z.to_nat N ->
        offsets !!! p + partition_size H input columns_to_hash N p
        = offsets !!! S p)
  /\ offsets !!! (Z.to_nat N - 1)
     + partition_size H input columns_to_hash N (Z.to_nat N - 1)
     = R.
Proof.
  pose proof invocation_routing_ok as Hok.
  pose proof (rt_length_global _ _ _ _ _ _ Hok) as Hlen.
  pose proof (rt_global _ _ _ _ _ _ Hok) as Hg.
  intros offsets. subst offsets.
  split; [by rewrite exclusive_scan_length|].
  split; [by rewrite exclusive_scan_lookup_total by lia|].
  split.
  - intros p Hp. rewrite !exclusive_scan_lookup_total by lia.
    rewrite sum_list_take_S by lia. rewrite Hg by lia. done.
  - rewrite exclusive_scan_lookup_total by lia.
    unfold partition_size. rewrite <- Hg by lia.
    rewrite <- sum_list_take_S by lia.
    replace (S (Z.to_nat N - 1)) with (length (global_partition_sizes rt))
      by lia.
    rewrite firstn_all, list_sum_lookups, Hlen.
    transitivity (length (seq 0 R)); [|apply length_seq].
    rewrite <- (count_partition_total part (Z.to_nat N) (seq 0 R))
      by (intros r _; apply (rt_part_lt _ _ _ _ _ _ Hok)).
    f_equal. apply map_ext_in. intros p Hp. apply in_seq in Hp.
    apply Hg. lia.
Qed.

Hypothesis HNmax : Z.to_nat N <= ELEMENT_PER_BLOCK * BLOCK_SIZE.

Lemma invocation_table_size : (Z.of_nat G * N < 2 ^ 31)%Z.
Proof.
  destruct (max_num_rows_grid R Hrows) as [HG _].
  change (ELEMENT_PER_BLOCK * BLOCK_SIZE) with 1024 in HNmax. nia.
Qed.

(** With at most [ELEMENT_PER_BLOCK * BLOCK_SIZE] partitions the scatter
    kernel of every column has a value, that of the unbounded kernel. *)
Lemma invocation_scatter j c :
  input !! j = Some c ->
  move_to_output_buffer env j (cdata c)
    (map (output_buffer env j) (seq 0 (size c))) (size c) (Z.to_nat N) rt
    (exclusive_scan (block_partition_sizes rt)) G
  = Some (Unbounded.move_to_output_buffer env j (cdata c)
            (map (output_buffer env j) (seq 0 (size c))) (size c)
            (Z.to_nat N) rt (exclusive_scan (block_partition_sizes rt)) G).
Proof.
  intros Hc. rewrite (table_wf_lookup _ _ _ Hwf Hc).
  destruct invocation_grid as [HG HGR].
  apply (move_to_output_buffer_in_range env part sched R (Z.to_nat N) G rt
           invocation_routing_ok HG HNmax HGR).
  apply invocation_rows_fit.
Qed.

(** The visit of the columns: the columns before the first one that the
    dispatcher rejects are scattered, in column order; a table with a
    rejected column ends the invocation with the error of that column. *)
Lemma invocation_trace :
  trace (hash_partition H env input columns_to_hash N)
  = routing_events tth N ++ scatter_events 0 (accepted_prefix input) G.
Proof.
  rewrite invocation_run.
  rewrite (hash_partition_table_trace _ _ _ _ _ _ rt);
    [|lia|rewrite invocation_num_rows; apply invocation_table_size
     |apply invocation_routing_tables].
  f_equal. unfold scatter_columns. rewrite invocation_num_rows.
  apply transform_columns_dispatch. intros j c Hc.
  eexists. by apply invocation_scatter.
Qed.


Hypothesis Hscatter : scatterable input.

(** On a scatterable table and with at most
    [ELEMENT_PER_BLOCK * BLOCK_SIZE] partitions, [hash_partition] returns a
    table of the same schema that holds every input row at its
    destination. *)
Lemma hash_partition_scatters :
  exists out,
    result (hash_partition H env input columns_to_hash N)
    = inr (out, exclusive_scan (global_partition_sizes rt))
    /\ map ctype out = map ctype input
    /\ Forall (fun c => null_mask c = None) out
    /\ num_rows out = R
    /\ forall r, r < R -> row out (destination G rt r) = row input r.
Proof.
  pose proof invocation_routing_ok as Hok.
  destruct invocation_grid as [HG HGR].
  rewrite invocation_run, hash_partition_table_result by lia.
  rewrite invocation_num_rows, invocation_routing_tables.
  rewrite bool_decide_true by apply invocation_table_size.
  unfold scatter_columns. rewrite invocation_num_rows.
  set (f := move_to_output_buffer_dispatcher env (Z.to_nat N) rt
              (exclusive_scan (block_partition_sizes rt)) G).
  set (g := fun (j : nat) (c : column_view) =>
              mk_column (ctype c)
                (Unbounded.move_to_output_buffer env j (cdata c)
                   (map (output_buffer env j) (seq 0 (size c)))
                   (size c) (Z.to_nat N) rt
                   (exclusive_scan (block_partition_sizes rt)) G)
                None).
  assert (forall j c, input !! j = Some c -> result (f j c) = inr (g j c))
    as Hfg.
  { intros j c Hc. unfold scatterable in Hscatter.
    rewrite List.Forall_forall in Hscatter.
    destruct (Hscatter c) as [Hfw Hnm].
    { apply list_elem_of_In. by eapply list_elem_of_lookup_2. }
    by apply move_to_output_buffer_dispatcher_ok, invocation_scatter. }
  rewrite (transform_columns_ok f g 0 input) by (intros; by apply Hfg).
  set (out := imap _ input).
  assert (length out = length input) as Hlen by apply length_imap.
  assert (forall j c, input !! j = Some c -> out !! j = Some (g j c)) as Hout.
  { intros j c Hc. subst out. rewrite list_lookup_imap, Hc. done. }
  exists out. split; [done|]. split.
  { apply map_eq_lookup; [done|]. intros j c Hc.
    exists (g j c). split; [by apply Hout|done]. }
  split.
  { apply List.Forall_forall. intros b Hb.
    apply list_elem_of_In, list_elem_of_lookup in Hb as [j Hb].
    destruct (lookup_lt_is_Some_2 input j) as [c Hc].
    { rewrite <- Hlen. by eapply lookup_lt_Some. }
    rewrite (Hout j c Hc) in Hb. by injection Hb as <-. }
  split.
  { destruct input as [|c t] eqn:Hin; [simpl in HR; lia|].
    rewrite <- Hin in *. 
    assert (input !! 0 = Some c) as Hc by (by rewrite Hin).
    pose proof (Hout 0 c Hc) as Ho.
    destruct out as [|b out']; [done|]. injection Ho as ->.
    unfold num_rows at 1. unfold size. cbn [cdata g].
    rewrite move_to_output_buffer_length, length_map, length_seq.
    by eapply table_wf_lookup. }
  intros r Hr. unfold row. apply map_eq_lookup; [done|].
  intros j c Hc. exists (g j c). split; [by apply Hout|].
  cbn [cdata g]. pose proof (table_wf_lookup _ _ _ Hwf Hc) as Hsz.
  rewrite Hsz.
  apply (move_to_output_buffer_spec env part sched R (Z.to_nat N) G rt);
    try done.
  by rewrite length_map, length_seq.
Qed.

End Invocation.
(** * Properties of the specification *)

Lemma example_env_order : atomic_order_ok example_env.
Proof. intros b l. reflexivity. Defined.

Lemma example_env_zero_order : atomic_order_ok example_env_zero.
Proof. intros b l. symmetry. apply Permutation_rev. Defined.

Lemma max_partitions : ELEMENT_PER_BLOCK * BLOCK_SIZE = 1024.
Proof. reflexivity. Qed.

(** With at most 1024 partitions no partition counter wraps. *)
Lemma supported_partitions N :
  (0 < N <= 1024)%Z ->
  (0 < N)%Z /\ (N + Z.of_nat BLOCK_SIZE <= 2 ^ 31)%Z
  /\ Z.to_nat N <= ELEMENT_PER_BLOCK * BLOCK_SIZE.
Proof.
  intros HN. rewrite max_partitions.
  change (Z.of_nat BLOCK_SIZE) with 512%Z. lia.
Qed.

(** ** Permutation *)

Lemma rows_permutation (out input : table_view) (d : nat -> nat) :
  num_rows out = num_rows input ->
  (forall r, r < num_rows input -> d r < num_rows input) ->
  (forall r r', r < num_rows input -> r' < num_rows input ->
                d r = d r' -> r = r') ->
  (forall r, r < num_rows input -> row out (d r) = row input r) ->
  Permutation (rows out) (rows input).
Proof.
  intros Hn Hlt Hinj Hrow. unfold rows. rewrite Hn.
  set (R := num_rows input) in *.
  assert (Permutation (map d (seq 0 R)) (seq 0 R)) as Hperm.
  { apply Permutation_map_same_l.
    - apply NoDup_map_NoDup_ForallPairs; [|apply seq_NoDup].
      intros x y Hx Hy. apply in_seq in Hx, Hy. apply Hinj; lia.
    - intros x Hx. apply in_map_iff in Hx as (r & <- & Hr).
      apply in_seq in Hr. apply in_seq. pose proof (Hlt r). lia. }
  rewrite <- Hperm at 1. rewrite map_map.
  erewrite map_ext_in; [reflexivity|].
  intros r Hr. apply in_seq in Hr. simpl. apply Hrow. lia.
Qed.

(** C1 (as amended): for every table with R rows, 0 < R <= 1908874240
    (= [max_num_rows], the largest table whose row numbers stay inside
    [size_type] in the row loops), whose columns are all of fixed width and
    without null mask, every non-empty selection of key columns and every
    number of partitions N with 0 < N <= 1024
    (= ELEMENT_PER_BLOCK * BLOCK_SIZE), [hash_partition] returns a table
    whose rows are the rows of the input as a multiset, whatever the order
    of the atomic increments and the initial contents of memory. *)
Theorem hash_partition_permutation (H : hash_functions) (env : exec_env)
    (input : table_view) (columns_to_hash : list nat) (N : Z) :
  table_wf input ->
  0 < num_rows input ->
  (Z.of_nat (num_rows input) <= max_num_rows)%Z ->
  columns_to_hash <> [] ->
  valid_keys input columns_to_hash ->
  scatterable input ->
  (0 < N <= 1024)%Z ->
  atomic_order_ok env ->
  exists out offsets,
    result (hash_partition H env input columns_to_hash N) = inr (out, offsets)
    /\ Permutation (rows out) (rows input).
Proof.
  intros Hwf HR Hrows Hne Hkeys Hsc HN Horder.
  destruct (supported_partitions N HN) as (HN0 & HNfit & HNmax).
  destruct (hash_partition_scatters H env input columns_to_hash N
              Hwf HR Hrows Hne Hkeys HN0 HNfit Horder HNmax Hsc)
    as (out & Hres & _ & _ & Hnum & Hrow).
  pose proof (invocation_routing_ok H env input columns_to_hash N
                Hwf HR Hne Hkeys HN0 HNfit Horder) as Hok.
  destruct (invocation_grid input HR) as [HG HGR].
  exists out. eexists. split; [exact Hres|].
  eapply rows_permutation; [done| | |exact Hrow].
  - intros r Hr. by eapply destination_lt.
  - intros r r' Hr Hr'. by eapply destination_inj.
Qed.

Lemma hash_partition_permutation_witness :
  table_wf example_table
  /\ 0 < num_rows example_table
  /\ (Z.of_nat (num_rows example_table) <= max_num_rows)%Z
  /\ [0; 1] <> []
  /\ valid_keys example_table [0; 1]
  /\ scatterable example_table
  /\ (0 < 2 <= 1024)%Z
  /\ atomic_order_ok example_env
  /\ exists out offsets,
       result (hash_partition example_hash example_env example_table [0; 1] 2)
       = inr (out, offsets)
       /\ Permutation (rows out) (rows example_table).
Proof.
  assert (table_wf example_table) as Hwf by (repeat constructor).
  assert (0 < num_rows example_table) as HR by (vm_compute; lia).
  assert (Z.of_nat (num_rows example_table) <= max_num_rows)%Z as Hrows
    by (vm_compute; discriminate).
  assert ([0; 1] <> []) as Hne by discriminate.
  assert (valid_keys example_table [0; 1]) as Hk
    by (repeat constructor).
  assert (scatterable example_table) as Hs by (repeat constructor).
  assert (0 < 2 <= 1024)%Z as HN by lia.
  repeat (split; [assumption|]). split; [exact example_env_order|].
  exact (hash_partition_permutation example_hash example_env example_table
           [0; 1] 2 Hwf HR Hrows Hne Hk Hs HN example_env_order).
Defined.

(** C1 as stated fails: with 1025 partitions, one row whose hash is 1024
    and shared memory that holds zeros when the scatter kernel starts, entry
    1025 of [partition_offset_shared] is never stored, the copy loop finds
    partition 1024 empty and the output cell is left as allocated. *)
Lemma hash_partition_permutation_counterexample :
  let input := [mk_column INT32 [1024%Z] None] in
  table_wf input
  /\ 0 < num_rows input
  /\ valid_keys input [0]
  /\ scatterable input
  /\ atomic_order_ok example_env_zero
  /\ exists out offsets,
       result (hash_partition example_hash example_env_zero input [0] 1025)
       = inr (out, offsets)
       /\ rows out = [[(-2)%Z]]
       /\ ~ Permutation (rows out) (rows input).
Proof.
  cbv zeta. split; [repeat constructor|]. split; [vm_compute; lia|].
  split; [repeat constructor|]. split; [repeat constructor|].
  split; [exact example_env_zero_order|].
  eexists. eexists. split; [vm_compute; reflexivity|].
  split; [reflexivity|].
  intros Hp. apply Permutation_length_1_inv in Hp. discriminate.
Qed.

(** ** Co-location *)

(** Rows with the same key cells have the same hash, hence the same
    partition index. *)
Lemma row_partition_cells H input columns_to_hash N i j :
  row_cells (has_nulls (select input columns_to_hash))
    (select input columns_to_hash) i
  = row_cells (has_nulls (select input columns_to_hash))
      (select input columns_to_hash) j ->
  row_partition H input columns_to_hash N i
  = row_partition H input columns_to_hash N j.
Proof.
  intros Hcells. unfold row_partition, partition_number_of, the_hasher.
  cbv zeta. by rewrite Hcells.
Qed.

(** The key columns of a table without null masks have none. *)
Lemma select_no_null_mask t keys :
  Forall (fun c => null_mask c = None) t ->
  Forall (fun c => null_mask c = None) (select t keys).
Proof.
  intros Ht. unfold select. induction keys as [|k keys IH]; [constructor|].
  cbn. destruct (t !! k) as [c|] eqn:Hc; [|exact IH].
  constructor; [|exact IH].
  rewrite List.Forall_forall in Ht. apply Ht.
  apply list_elem_of_In. by eapply list_elem_of_lookup_2.
Qed.

(** On columns without null mask the hasher reads the cells of the row,
    whichever hasher it is. *)
Lemma row_cells_no_null_mask nullable t i j :
  Forall (fun c => null_mask c = None) t ->
  row t i = row t j ->
  row_cells nullable t i = row_cells nullable t j.
Proof.
  induction 1 as [|c t Hc _ IH]; [done|].
  unfold row, row_cells in *. cbn [map]. intros [= Hcell Hrest].
  unfold is_valid. rewrite Hc, Hcell. cbn [negb]. rewrite andb_false_r.
  f_equal. by apply IH.
Qed.

Lemma scatterable_no_null_mask t :
  scatterable t -> Forall (fun c => null_mask c = None) t.
Proof. apply List.Forall_impl. by intros c [_ ?]. Qed.

(** C2 (as amended): for every input that [hash_partition] accepts (R rows
    with 0 < R <= 1908874240, all columns of fixed width and without null
    mask, at least one key column, N partitions with
    0 < N <= 2^31 - BLOCK_SIZE and a block histogram of
    ceil(R / (BLOCK_SIZE * ROWS_PER_THREAD)) * N < 2^31 entries) and any two
    rows i, j whose key-column cells are equal, the histogram kernel assigns
    the two rows the same partition index p; and when N <= 1024 (= ELEMENT_PER_BLOCK * BLOCK_SIZE) both rows
    are in the output table within the contiguous range of partition p,
    which starts at [offsets[p]] and has [partition_size p] rows.  An
    accepted input has no null mask, so no cell is null. *)
Theorem hash_partition_colocation (H : hash_functions) (env : exec_env)
    (input : table_view) (columns_to_hash : list nat) (N : Z) (i j : nat) :
  table_wf input ->
  0 < num_rows input ->
  (Z.of_nat (num_rows input) <= max_num_rows)%Z ->
  columns_to_hash <> [] ->
  valid_keys input columns_to_hash ->
  scatterable input ->
  (0 < N)%Z ->
  (N + Z.of_nat BLOCK_SIZE <= 2 ^ 31)%Z ->
  (Z.of_nat (div_rounding_up_safe (num_rows input)
               (BLOCK_SIZE * ROWS_PER_THREAD)) * N < 2 ^ 31)%Z ->
  atomic_order_ok env ->
  i < num_rows input ->
  j < num_rows input ->
  row (select input columns_to_hash) i = row (select input columns_to_hash) j ->
  let p := row_partition H input columns_to_hash N i in
  exists rt,
    routing_tables H env (has_nulls (select input columns_to_hash))
      (select input columns_to_hash) N
    = Some rt
    /\ row_partition_numbers rt !!! i = p
    /\ row_partition_numbers rt !!! j = p
    /\ p < Z.to_nat N
    /\ ((N <= 1024)%Z ->
        exists out offsets di dj,
          result (hash_partition H env input columns_to_hash N)
          = inr (out, offsets)
          /\ offsets !!! p <= di
             < offsets !!! p + partition_size H input columns_to_hash N p
          /\ offsets !!! p <= dj
             < offsets !!! p + partition_size H input columns_to_hash N p
          /\ row out di = row input i
          /\ row out dj = row input j).
Proof.
  intros Hwf HR Hrows Hne Hkeys Hsc HN HNfit _ Horder Hi Hj Hcells p.
  pose proof (invocation_routing_ok H env input columns_to_hash N
                Hwf HR Hne Hkeys HN HNfit Horder) as Hok.
  destruct (invocation_grid input HR) as [HG HGR].
  set (rt := Unbounded.routing_tables H env
               (has_nulls (select input columns_to_hash))
               (select input columns_to_hash) N) in *.
  assert (row_partition H input columns_to_hash N j = p) as Hpj.
  { symmetry. apply row_partition_cells, row_cells_no_null_mask; [|done].
    by apply select_no_null_mask, scatterable_no_null_mask. }
  exists rt.
  split; [by apply invocation_routing_tables|].
  split; [by apply (rt_numbers _ _ _ _ _ _ Hok)|].
  split; [by rewrite (rt_numbers _ _ _ _ _ _ Hok)|].
  split; [apply (rt_part_lt _ _ _ _ _ _ Hok)|].
  intros HN'.
  assert (Z.to_nat N <= ELEMENT_PER_BLOCK * BLOCK_SIZE) as HNmax
    by (rewrite max_partitions; lia).
  destruct (hash_partition_scatters H env input columns_to_hash N
              Hwf HR Hrows Hne Hkeys HN HNfit Horder HNmax Hsc)
    as (out & Hres & _ & _ & Hnum & Hrow).
  exists out. eexists.
  exists (destination
            (div_rounding_up_safe (num_rows input)
               (BLOCK_SIZE * ROWS_PER_THREAD)) rt i),
         (destination
            (div_rounding_up_safe (num_rows input)
               (BLOCK_SIZE * ROWS_PER_THREAD)) rt j).
  split; [exact Hres|].
  pose proof (destination_in_partition _ _ _ _ _ _ Hok HG i Hi) as Di.
  pose proof (destination_in_partition _ _ _ _ _ _ Hok HG j Hj) as Dj.
  rewrite Hpj in Dj. fold p in Di.
  assert (global_partition_sizes rt !!! p
          = partition_size H input columns_to_hash N p) as Hsize
    by (apply (rt_global _ _ _ _ _ _ Hok), (rt_part_lt _ _ _ _ _ _ Hok)).
  rewrite Hsize in Di, Dj.
  split; [exact Di|]. split; [exact Dj|].
  split; by apply Hrow.
Qed.

Lemma hash_partition_colocation_witness :
  table_wf example_table
  /\ 0 < num_rows example_table
  /\ (Z.of_nat (num_rows example_table) <= max_num_rows)%Z
  /\ [0; 1] <> []
  /\ valid_keys example_table [0; 1]
  /\ scatterable example_table
  /\ (0 < 2)%Z
  /\ (2 + Z.of_nat BLOCK_SIZE <= 2 ^ 31)%Z
  /\ (Z.of_nat (div_rounding_up_safe (num_rows example_table)
                  (BLOCK_SIZE * ROWS_PER_THREAD)) * 2 < 2 ^ 31)%Z
  /\ atomic_order_ok example_env
  /\ 0 < num_rows example_table
  /\ 2 < num_rows example_table
  /\ row (select example_table [0; 1]) 0 = row (select example_table [0; 1]) 2
  /\ let p := row_partition example_hash example_table [0; 1] 2 0 in
     exists rt,
       routing_tables example_hash example_env
         (has_nulls (select example_table [0; 1]))
         (select example_table [0; 1]) 2
       = Some rt
       /\ row_partition_numbers rt !!! 0 = p
       /\ row_partition_numbers rt !!! 2 = p
       /\ p < Z.to_nat 2
       /\ ((2 <= 1024)%Z ->
           exists out offsets di dj,
             result (hash_partition example_hash example_env example_table
                       [0; 1] 2)
             = inr (out, offsets)
             /\ offsets !!! p <= di
                < offsets !!! p
                  + partition_size example_hash example_table [0; 1] 2 p
             /\ offsets !!! p <= dj
                < offsets !!! p
                  + partition_size example_hash example_table [0; 1] 2 p
             /\ row out di = row example_table 0
             /\ row out dj = row example_table 2).
Proof.
  assert (table_wf example_table) as Hwf by (repeat constructor).
  assert (0 < num_rows example_table) as HR by (vm_compute; lia).
  assert (Z.of_nat (num_rows example_table) <= max_num_rows)%Z as Hrows
    by (vm_compute; discriminate).
  assert (2 < num_rows example_table) as HR2 by (vm_compute; lia).
  assert ([0; 1] <> []) as Hne by discriminate.
  assert (valid_keys example_table [0; 1]) as Hk by (repeat constructor).
  assert (scatterable example_table) as Hs by (repeat constructor).
  assert (0 < 2)%Z as HN by lia.
  assert (2 + Z.of_nat BLOCK_SIZE <= 2 ^ 31)%Z as HNfit
    by (change (Z.of_nat BLOCK_SIZE) with 512%Z; lia).
  assert (Z.of_nat (div_rounding_up_safe (num_rows example_table)
                      (BLOCK_SIZE * ROWS_PER_THREAD)) * 2 < 2 ^ 31)%Z
    as Hsize by (vm_compute; reflexivity).
  assert (row (select example_table [0; 1]) 0
          = row (select example_table [0; 1]) 2) as Hc by reflexivity.
  repeat (split; [assumption|]). split; [exact example_env_order|].
  repeat (split; [assumption|]).
  exact (hash_partition_colocation example_hash example_env example_table
           [0; 1] 2 0 2 Hwf HR Hrows Hne Hk Hs HN HNfit Hsize
           example_env_order HR HR2 Hc).
Defined.

(** C2 as stated fails for the placement: with 1025 partitions, two rows
    with the same key whose hash is 1024, and shared memory that holds zeros
    when the scatter kernel starts, [hash_partition] returns, the two rows
    are assigned partition 1024, and neither row is anywhere in the output
    table. *)
Lemma hash_partition_colocation_counterexample :
  let input := [mk_column INT32 [1024; 1024]%Z None] in
  table_wf input
  /\ valid_keys input [0]
  /\ scatterable input
  /\ atomic_order_ok example_env_zero
  /\ row (select input [0]) 0 = row (select input [0]) 1
  /\ row_partition example_hash input [0] 1025 0 = 1024
  /\ row_partition example_hash input [0] 1025 1 = 1024
  /\ exists out offsets,
       result (hash_partition example_hash example_env_zero input [0] 1025)
       = inr (out, offsets)
       /\ ~ In (row input 0) (rows out)
       /\ ~ In (row input 1) (rows out).
Proof.
  cbv zeta. split; [repeat constructor|].
  split; [repeat constructor|]. split; [repeat constructor|].
  split; [exact example_env_zero_order|].
  split; [reflexivity|]. split; [reflexivity|]. split; [reflexivity|].
  eexists. eexists. split; [vm_compute; reflexivity|].
  split; intros [Hin|[Hin|[]]]; discriminate.
Qed.

(** ** Partition offsets *)

Lemma partition_size_total H input columns_to_hash N :
  (0 < N < 2 ^ 31)%Z ->
  list_sum (map (partition_size H input columns_to_hash N)
                (seq 0 (Z.to_nat N)))
  = num_rows input.
Proof.
  intros HN. unfold partition_size.
  rewrite count_partition_total; [apply length_seq|].
  intros r _. unfold row_partition. by apply partition_number_of_lt.
Qed.

(** C3 (as amended): for every invocation of [hash_partition] that returns,
    on an input with R rows, 0 < R <= 1908874240, with at least one key
    column and N partitions, 0 < N <= 2^31 - BLOCK_SIZE, the returned
    [partition_offsets] has length N, starts with 0, is non-decreasing, and
    [partition_offsets[p]] plus the number of rows assigned to partition p
    is [partition_offsets[p + 1]] (the number of rows R for p = N - 1); the
    partition sizes add up to R. *)
Theorem partition_offsets_closure (H : hash_functions) (env : exec_env)
    (input : table_view) (columns_to_hash : list nat) (N : Z)
    (out : table_view) (partition_offsets : list nat) :
  table_wf input ->
  0 < num_rows input ->
  (Z.of_nat (num_rows input) <= max_num_rows)%Z ->
  columns_to_hash <> [] ->
  valid_keys input columns_to_hash ->
  (0 < N)%Z ->
  (N + Z.of_nat BLOCK_SIZE <= 2 ^ 31)%Z ->
  atomic_order_ok env ->
  result (hash_partition H env input columns_to_hash N)
  = inr (out, partition_offsets) ->
  length partition_offsets = Z.to_nat N
  /\ partition_offsets !!! 0 = 0
  /\ (forall p q, p <= q -> q < Z.to_nat N ->
        partition_offsets !!! p <= partition_offsets !!! q)
  /\ (forall p, S p < Z.to_nat N ->
        partition_offsets !!! p + partition_size H input columns_to_hash N p
        = partition_offsets !!! S p)
  /\ partition_offsets !!! (Z.to_nat N - 1)
     + partition_size H input columns_to_hash N (Z.to_nat N - 1)
     = num_rows input
  /\ list_sum (map (partition_size H input columns_to_hash N)
                   (seq 0 (Z.to_nat N)))
     = num_rows input.
Proof.
  intros Hwf HR Hrows Hne Hkeys HN HNfit Horder Hres.
  apply (invocation_result H env input columns_to_hash N
           Hwf HR Hrows Hne Hkeys HN HNfit) in Hres as (Hoffs & _ & _).
  destruct (partition_offsets_spec H env input columns_to_hash N
              Hwf HR Hne Hkeys HN HNfit Horder) as (L & Z0 & Hs & Hlast).
  rewrite <- Hoffs in L, Z0, Hs, Hlast.
  split; [done|]. split; [done|]. split.
  { intros p q Hpq Hq. induction Hpq as [|q Hpq IH]; [done|].
    rewrite <- (Hs q) by done. specialize (IH ltac:(lia)). lia. }
  split; [done|]. split; [done|].
  apply partition_size_total.
  change (Z.of_nat BLOCK_SIZE) with 512%Z in HNfit. lia.
Qed.

Lemma partition_offsets_closure_witness :
  table_wf example_table
  /\ 0 < num_rows example_table
  /\ (Z.of_nat (num_rows example_table) <= max_num_rows)%Z
  /\ [0; 1] <> []
  /\ valid_keys example_table [0; 1]
  /\ (0 < 3)%Z
  /\ (3 + Z.of_nat BLOCK_SIZE <= 2 ^ 31)%Z
  /\ atomic_order_ok example_env_zero
  /\ exists out offsets,
       result (hash_partition example_hash example_env_zero example_table
                 [0; 1] 3)
       = inr (out, offsets)
       /\ offsets = [0; 0; 2]
       /\ length offsets = Z.to_nat 3
       /\ offsets !!! 0 = 0
       /\ (forall p q, p <= q -> q < Z.to_nat 3 ->
             offsets !!! p <= offsets !!! q)
       /\ (forall p, S p < Z.to_nat 3 ->
             offsets !!! p
             + partition_size example_hash example_table [0; 1] 3 p
             = offsets !!! S p)
       /\ offsets !!! (Z.to_nat 3 - 1)
          + partition_size example_hash example_table [0; 1] 3
              (Z.to_nat 3 - 1)
          = num_rows example_table
       /\ list_sum (map (partition_size example_hash example_table [0; 1] 3)
                        (seq 0 (Z.to_nat 3)))
          = num_rows example_table.
Proof.
  assert (table_wf example_table) as Hwf by (repeat constructor).
  assert (0 < num_rows example_table) as HR by (vm_compute; lia).
  assert (Z.of_nat (num_rows example_table) <= max_num_rows)%Z as Hrows
    by (vm_compute; discriminate).
  assert ([0; 1] <> []) as Hne by discriminate.
  assert (valid_keys example_table [0; 1]) as Hk by (repeat constructor).
  assert (0 < 3)%Z as HN by lia.
  assert (3 + Z.of_nat BLOCK_SIZE <= 2 ^ 31)%Z as HNfit
    by (change (Z.of_nat BLOCK_SIZE) with 512%Z; lia).
  repeat (split; [assumption|]). split; [exact example_env_zero_order|].
  eexists. exists [0; 0; 2].
  assert (result (hash_partition example_hash example_env_zero example_table
                    [0; 1] 3)
          = inr ([mk_column INT32 [3; 2; 1; 1; 1]%Z None;
                  mk_column INT32 [4; 2; 1; 1; 1]%Z None;
                  mk_column INT64 [9; 1; 2; 4; 3]%Z None], [0; 0; 2]))
    as Hres by (vm_compute; reflexivity).
  split; [exact Hres|]. split; [reflexivity|].
  exact (partition_offsets_closure example_hash example_env_zero
           example_table [0; 1] 3 _ _ Hwf HR Hrows Hne Hk HN HNfit
           example_env_zero_order Hres).
Defined.

(** C3 as stated fails: on a non-empty input with N = 3 > 0 partitions and
    no key column, [hash_partition] returns through the guard of line 460
    with an empty [partition_offsets], whose length is not N. *)
Lemma partition_offsets_closure_counterexample :
  0 < num_rows example_table
  /\ (0 < 3)%Z
  /\ result (hash_partition example_hash example_env example_table [] 3)
     = inr (empty_like example_table, [])
  /\ length ([] : list nat) <> Z.to_nat 3.
Proof.
  split; [vm_compute; lia|]. split; [lia|]. split; [reflexivity|].
  discriminate.
Qed.

(** ** Histogram invariants *)

(** C7: for every histogram kernel launch whose counters stay inside
    [size_type] (R rows and B > 0 blocks with
    R + BLOCK_SIZE * B <= 2^31, N partitions with
    0 < N <= 2^31 - BLOCK_SIZE and B * N < 2^31), run on zero-filled tables
    with the partitioner [hash_partition_table] selects, the kernel
    completes, whatever the order of the atomic increments, and then:
    (1) the entry of the global histogram for partition p is the number of
    rows of partition p, and the entries add up to R; (2) the entry of the
    block histogram for partition p and block b is the number of rows of
    partition p among the rows that block b visits; and for every row i,
    which block [block_of B i] visits, [row_partition_offset[i]] is strictly
    below the entry of the block histogram for the partition of row i and
    the block of row i. *)
Theorem histogram_invariants (env : exec_env) (the_hasher : nat -> Z)
    (R : nat) (N : Z) (B : nat) :
  atomic_order_ok env ->
  (0 < N)%Z ->
  (N + Z.of_nat BLOCK_SIZE <= 2 ^ 31)%Z ->
  0 < B ->
  rows_fit B R ->
  (Z.of_nat B * N < 2 ^ 31)%Z ->
  let the_partitioner :=
    if is_power_two N then bitwise_partitioner N else modulo_partitioner N in
  let part := partition_number_of the_hasher the_partitioner in
  exists rt,
    compute_row_partition_numbers env the_hasher R (Z.to_nat N)
      the_partitioner B
      (mk_routing (replicate R 0) (replicate R 0)
                  (replicate (B * Z.to_nat N) 0) (replicate (Z.to_nat N) 0))
    = Some rt
    /\ list_sum (global_partition_sizes rt) = R
    /\ (forall p, p < Z.to_nat N ->
          global_partition_sizes rt !!! p
          = count_partition part p (seq 0 R))
    /\ (forall b p, b < B -> p < Z.to_nat N ->
          exists rows,
            block_rows B b R = Some rows
            /\ block_partition_sizes rt !!! (p * B + b)
               = count_partition part p rows)
    /\ forall i, i < R ->
         row_partition_numbers rt !!! i = part i
         /\ part i < Z.to_nat N
         /\ block_of B i < B
         /\ (exists rows,
               block_rows B (block_of B i) R = Some rows /\ In i rows)
         /\ row_partition_offset rt !!! i
            < block_partition_sizes rt !!! (part i * B + block_of B i).
Proof.
  intros Horder HN HNfit HB Hfit _ the_partitioner part.
  assert (0 < N < 2 ^ 31)%Z as HN'
    by (change (Z.of_nat BLOCK_SIZE) with 512%Z in HNfit; lia).
  assert (partitions_fit (Z.to_nat N)) as HNfit'
    by (unfold partitions_fit; lia).
  pose proof (compute_row_partition_numbers_ok env the_hasher
                the_partitioner R (Z.to_nat N) B Horder
                (fun r => partition_number_of_lt the_hasher N r HN') HB)
    as Hok.
  eexists. split; [by apply compute_row_partition_numbers_in_range|].
  set (rt := Unbounded.compute_row_partition_numbers _ _ _ _ _ _ _) in *.
  split.
  { rewrite list_sum_lookups, (rt_length_global _ _ _ _ _ _ Hok).
    transitivity (length (seq 0 R)); [|apply length_seq].
    rewrite <- (count_partition_total part (Z.to_nat N) (seq 0 R))
      by (intros r _; apply (rt_part_lt _ _ _ _ _ _ Hok)).
    f_equal. apply map_ext_in. intros p Hp. apply in_seq in Hp.
    apply (rt_global _ _ _ _ _ _ Hok). lia. }
  split; [intros p Hp; by apply (rt_global _ _ _ _ _ _ Hok)|].
  split.
  { intros b p Hb Hp. exists (Unbounded.block_rows B b R).
    split; [by apply block_rows_in_range|].
    rewrite (rt_block _ _ _ _ _ _ Hok) by done.
    apply count_partition_Permutation, (rt_sched _ _ _ _ _ _ Hok), Hb. }
  intros i Hi.
  pose proof (block_of_lt B i HB) as Hblock.
  split; [by apply (rt_numbers _ _ _ _ _ _ Hok)|].
  split; [apply (rt_part_lt _ _ _ _ _ _ Hok)|].
  split; [done|]. split.
  { exists (Unbounded.block_rows B (block_of B i) R).
    split; [by apply block_rows_in_range|]. by apply block_rows_In. }
  rewrite (rt_offset _ _ _ _ _ _ Hok) by done.
  by apply (rank_lt_bps _ _ _ _ _ _ Hok HB).
Qed.

Lemma histogram_invariants_witness :
  atomic_order_ok example_env_zero
  /\ (0 < 3)%Z
  /\ (3 + Z.of_nat BLOCK_SIZE <= 2 ^ 31)%Z
  /\ 0 < 2
  /\ rows_fit 2 7
  /\ (Z.of_nat 2 * 3 < 2 ^ 31)%Z
  /\ let the_partitioner :=
       if is_power_two 3 then bitwise_partitioner 3
       else modulo_partitioner 3 in
     let part :=
       partition_number_of (fun r => Z.of_nat (r * r)) the_partitioner in
     exists rt,
       compute_row_partition_numbers example_env_zero
         (fun r => Z.of_nat (r * r)) 7 (Z.to_nat 3) the_partitioner 2
         (mk_routing (replicate 7 0) (replicate 7 0)
                     (replicate (2 * Z.to_nat 3) 0)
                     (replicate (Z.to_nat 3) 0))
       = Some rt
       /\ list_sum (global_partition_sizes rt) = 7
       /\ (forall p, p < Z.to_nat 3 ->
             global_partition_sizes rt !!! p
             = count_partition part p (seq 0 7))
       /\ (forall b p, b < 2 -> p < Z.to_nat 3 ->
             exists rows,
               block_rows 2 b 7 = Some rows
               /\ block_partition_sizes rt !!! (p * 2 + b)
                  = count_partition part p rows)
       /\ forall i, i < 7 ->
            row_partition_numbers rt !!! i = part i
            /\ part i < Z.to_nat 3
            /\ block_of 2 i < 2
            /\ (exists rows,
                  block_rows 2 (block_of 2 i) 7 = Some rows /\ In i rows)
            /\ row_partition_offset rt !!! i
               < block_partition_sizes rt !!! (part i * 2 + block_of 2 i).
Proof.
  assert (0 < 3)%Z as HN by lia.
  assert (3 + Z.of_nat BLOCK_SIZE <= 2 ^ 31)%Z as HNfit
    by (change (Z.of_nat BLOCK_SIZE) with 512%Z; lia).
  assert (0 < 2) as HB by lia.
  assert (rows_fit 2 7) as Hfit
    by (unfold rows_fit; change (Z.of_nat BLOCK_SIZE) with 512%Z; lia).
  assert (Z.of_nat 2 * 3 < 2 ^ 31)%Z as Hsize by lia.
  split; [exact example_env_zero_order|].
  repeat (split; [assumption|]).
  exact (histogram_invariants example_env_zero (fun r => Z.of_nat (r * r))
           7 3 2 example_env_zero_order HN HNfit HB Hfit Hsize).
Defined.

(** ** Power-of-two equivalence *)

Lemma foldl_ext_eq {A B} (f g : A -> B -> A) (a : A) (l : list B) :
  (forall a b, f a b = g a b) -> foldl f a l = foldl g a l.
Proof.
  intros Hfg. revert a. induction l as [|b l IH]; intros a; simpl; [done|].
  by rewrite Hfg, IH.
Qed.

(** The histogram kernel depends on the partitioner only through the
    partitions it computes. *)
Lemma compute_row_partition_numbers_ext env the_hasher R N P1 P2 G st :
  (forall h, P1 h = P2 h) ->
  compute_row_partition_numbers env the_hasher R N P1 G st
  = compute_row_partition_numbers env the_hasher R N P2 G st.
Proof.
  intros HP. unfold compute_row_partition_numbers.
  apply foldl_ext_eq. intros acc b.
  destruct acc as [rt|]; [|done]. cbn [and_then].
  unfold compute_row_partition_numbers_block.
  destruct (block_loop N) as [partitions|]; [|done]. cbn [and_then].
  destruct (block_rows G b R) as [rows|]; [|done]. cbn [and_then].
  rewrite (foldl_ext_eq (histogram_row the_hasher P1)
             (histogram_row the_hasher P2)); [done|].
  intros [sh rt'] r. unfold histogram_row, partition_number_of.
  cbn [fst snd]. by rewrite HP.
Qed.

(** C6: for every 32-bit hash value h and every positive power of two N (a
    [size_type], hence at most 2^30), the bitmask partitioner returns
    [h AND (N - 1)], the modulo partitioner returns [h mod N], and the two
    are equal; so the histogram kernel computes the same routing tables with
    either functor, for every table. *)
Theorem power_of_two_partitioners_agree (h N k : Z) :
  (0 <= h < 2 ^ 32)%Z ->
  (0 <= k)%Z ->
  N = (2 ^ k)%Z ->
  (N < 2 ^ 31)%Z ->
  bitwise_partitioner N h = Z.land h (N - 1)
  /\ modulo_partitioner N h = (h mod N)%Z
  /\ bitwise_partitioner N h = modulo_partitioner N h
  /\ is_power_two N = true
  /\ forall env the_hasher R N' G st,
       compute_row_partition_numbers env the_hasher R N'
         (bitwise_partitioner N) G st
       = compute_row_partition_numbers env the_hasher R N'
           (modulo_partitioner N) G st.
Proof.
  intros Hh Hk -> HN.
  assert (k <= 30)%Z as Hk'.
  { destruct (Z_le_gt_dec k 30) as [|Hgt]; [done|].
    assert (2 ^ 31 <= 2 ^ k)%Z by (apply Z.pow_le_mono_r; lia). lia. }
  assert (0 < 2 ^ k)%Z as Hpos by (apply Z.pow_pos_nonneg; lia).
  assert (forall x, bitwise_partitioner (2 ^ k) x
                    = modulo_partitioner (2 ^ k) x) as Heq.
  { intros x. rewrite bitwise_partitioner_spec by lia.
    by rewrite modulo_partitioner_spec by lia. }
  split.
  { rewrite bitwise_partitioner_spec by lia.
    rewrite uint32_wrap_small by done.
    replace (2 ^ k - 1)%Z with (Z.ones k) by (rewrite Z.ones_equiv; lia).
    by rewrite Z.land_ones by lia. }
  split.
  { rewrite modulo_partitioner_spec by lia.
    by rewrite uint32_wrap_small by done. }
  split; [apply Heq|].
  split; [apply is_power_two_pow2; lia|].
  intros env the_hasher R N' G st.
  by apply compute_row_partition_numbers_ext.
Qed.

Lemma power_of_two_partitioners_agree_witness :
  (0 <= 4294967295 < 2 ^ 32)%Z
  /\ (0 <= 4)%Z
  /\ 16%Z = (2 ^ 4)%Z
  /\ (16 < 2 ^ 31)%Z
  /\ bitwise_partitioner 16 4294967295 = Z.land 4294967295 (16 - 1)
  /\ modulo_partitioner 16 4294967295 = (4294967295 mod 16)%Z
  /\ bitwise_partitioner 16 4294967295 = modulo_partitioner 16 4294967295
  /\ is_power_two 16 = true
  /\ forall env the_hasher R N' G st,
       compute_row_partition_numbers env the_hasher R N'
         (bitwise_partitioner 16) G st
       = compute_row_partition_numbers env the_hasher R N'
           (modulo_partitioner 16) G st.
Proof.
  assert (0 <= 4294967295 < 2 ^ 32)%Z as Hh by lia.
  assert (0 <= 4)%Z as Hk by lia.
  assert (16%Z = (2 ^ 4)%Z) as HN by reflexivity.
  assert (16 < 2 ^ 31)%Z as HN' by lia.
  repeat (split; [assumption|]).
  exact (power_of_two_partitioners_agree 4294967295 16 4 Hh Hk HN HN').
Defined.

(** ** Unsupported column types *)




(** ** The entry point [hash] *)

(** C8 (as amended): for every call to [hash] on a table with at least one
    column and at least one row, with a non-empty seed vector whose length
    differs from the number of columns, the operation raises a
    precondition-violation error. *)
Theorem hash_seed_mismatch (H : hash_functions) (env : exec_env)
    (input : table_view) (initial_hash : list Z) :
  0 < num_columns input ->
  0 < num_rows input ->
  initial_hash <> [] ->
  length initial_hash <> num_columns input ->
  result (hash H env input initial_hash)
  = inl (logic_error
           "Expected same size of initial hash values as number of columns").
Proof.
  intros HC HR Hne Hlen. unfold hash. cbv zeta. rewrite result_emit.
  destruct (Nat.eqb_spec (num_columns input) 0) as [|_]; [lia|].
  destruct (Nat.eqb_spec (num_rows input) 0) as [|_]; [lia|].
  cbn [orb]. rewrite result_emit.
  rewrite bool_decide_false by done. cbn [negb].
  destruct (Nat.eqb_spec (length initial_hash) (num_columns input)); done.
Qed.

Lemma hash_seed_mismatch_witness :
  0 < num_columns example_table
  /\ 0 < num_rows example_table
  /\ [1%Z; 2%Z] <> []
  /\ length [1%Z; 2%Z] <> num_columns example_table
  /\ result (hash example_hash example_env example_table [1%Z; 2%Z])
     = inl (logic_error
              "Expected same size of initial hash values as number of columns").
Proof.
  assert (0 < num_columns example_table) as HC by (vm_compute; lia).
  assert (0 < num_rows example_table) as HR by (vm_compute; lia).
  assert ([1%Z; 2%Z] <> []) as Hne by discriminate.
  assert (length [1%Z; 2%Z] <> num_columns example_table) as Hlen
    by (vm_compute; lia).
  repeat (split; [assumption|]).
  exact (hash_seed_mismatch example_hash example_env example_table
           [1%Z; 2%Z] HC HR Hne Hlen).
Defined.

(** C8 as stated fails on tables with no column or no row: [hash] returns
    the empty column before it looks at the seed vector. *)
Lemma hash_seed_mismatch_counterexample :
  length [1%Z] <> num_columns []
  /\ result (hash example_hash example_env [] [1%Z])
     = inr (mk_column INT32 [] None)
  /\ length [1%Z; 2%Z] <> num_columns [mk_column INT32 [] None]
  /\ result (hash example_hash example_env [mk_column INT32 [] None]
               [1%Z; 2%Z])
     = inr (mk_column INT32 [] None).
Proof. repeat split; (discriminate || reflexivity). Qed.

(** C10: whenever [hash] returns a column, its element type is INT32 (the
    signed type), it has no null mask, and it has [input.num_rows()]
    elements; when the table has no column or no row, the only event is the
    allocation of that column: nothing is hashed. *)
Theorem hash_output_column (H : hash_functions) (env : exec_env)
    (input : table_view) (initial_hash : list Z) (output : column_view) :
  result (hash H env input initial_hash) = inr output ->
  ctype output = INT32
  /\ size output = num_rows input
  /\ null_mask output = None
  /\ (num_columns input = 0 \/ num_rows input = 0 ->
      trace (hash H env input initial_hash)
      = [ev_alloc buf_hash_output (num_rows input)]
      /\ output
         = mk_column INT32
             (map (hash_output_buffer env) (seq 0 (num_rows input))) None).
Proof.
  unfold hash. cbv zeta. rewrite result_emit, trace_emit.
  destruct ((num_columns input =? 0) || (num_rows input =? 0)) eqn:Hguard.
  - intros [= <-]. unfold size. cbn [ctype cdata null_mask].
    rewrite length_map, length_seq. auto.
  - rewrite result_emit.
    assert (~ (num_columns input = 0 \/ num_rows input = 0)) as Hno.
    { apply orb_false_iff in Hguard as [H1 H2].
      apply Nat.eqb_neq in H1, H2. tauto. }
    destruct (negb (bool_decide (initial_hash = []))).
    + destruct (length initial_hash =? num_columns input); [|done].
      rewrite !result_emit. intros [= <-].
      unfold size. cbn [ctype cdata null_mask].
      rewrite length_map, length_seq. tauto.
    + rewrite !result_emit. intros [= <-].
      unfold size. cbn [ctype cdata null_mask].
      rewrite length_map, length_seq. tauto.
Qed.

Lemma hash_output_column_witness :
  result (hash example_hash example_env example_table [])
  = inr (mk_column INT32 [2915; 1025; 3876; 8776; 1954]%Z None)
  /\ ctype (mk_column INT32 [2915; 1025; 3876; 8776; 1954]%Z None) = INT32
  /\ size (mk_column INT32 [2915; 1025; 3876; 8776; 1954]%Z None)
     = num_rows example_table
  /\ null_mask (mk_column INT32 [2915; 1025; 3876; 8776; 1954]%Z None) = None
  /\ (num_columns example_table = 0 \/ num_rows example_table = 0 ->
      trace (hash example_hash example_env example_table [])
      = [ev_alloc buf_hash_output (num_rows example_table)]
      /\ mk_column INT32 [2915; 1025; 3876; 8776; 1954]%Z None
         = mk_column INT32
             (map (hash_output_buffer example_env)
                (seq 0 (num_rows example_table))) None).
Proof.
  assert (result (hash example_hash example_env example_table [])
          = inr (mk_column INT32 [2915; 1025; 3876; 8776; 1954]%Z None)) as Hres
    by (vm_compute; reflexivity).
  split; [exact Hres|].
  exact (hash_output_column example_hash example_env example_table [] _ Hres).
Defined.

(** ** Empty input *)

Lemma empty_like_schema t : map ctype (empty_like t) = map ctype t.
Proof. unfold empty_like. rewrite map_map. by apply map_ext. Qed.

Lemma empty_like_rows t :
  Forall (fun c => size c = 0 /\ null_mask c = None) (empty_like t)
  /\ num_rows (empty_like t) = 0.
Proof.
  split.
  - unfold empty_like. apply List.Forall_forall. intros c Hc.
    apply in_map_iff in Hc as (c' & <- & _). done.
  - by destruct t.
Qed.

(** C9: for every call to [hash_partition] with R = 0 rows, or N <= 0
    partitions, or a key subview with zero columns, the operation returns,
    without an error and without asking anything of the device, a table
    with the schema of the input and zero rows, together with an empty
    [partition_offsets]. *)
Theorem hash_partition_empty (H : hash_functions) (env : exec_env)
    (input : table_view) (columns_to_hash : list nat) (N : Z) :
  (N <= 0)%Z \/ num_rows input = 0
  \/ num_columns (select input columns_to_hash) = 0 ->
  exists out,
    result (hash_partition H env input columns_to_hash N) = inr (out, [])
    /\ trace (hash_partition H env input columns_to_hash N) = []
    /\ map ctype out = map ctype input
    /\ Forall (fun c => size c = 0 /\ null_mask c = None) out
    /\ num_rows out = 0.
Proof.
  intros Hguard. exists (empty_like input).
  assert (hash_partition H env input columns_to_hash N
          = ret (empty_like input, [])) as ->.
  { unfold hash_partition. cbv zeta.
    destruct Hguard as [HN|[HR|HK]].
    - apply Z.leb_le in HN. by rewrite HN.
    - apply Nat.eqb_eq in HR. rewrite HR. by rewrite orb_true_r.
    - apply Nat.eqb_eq in HK. rewrite HK. by rewrite orb_true_r. }
  split; [done|]. split; [done|].
  split; [apply empty_like_schema|]. apply empty_like_rows.
Qed.

Lemma hash_partition_empty_witness :
  ((0 <= 0)%Z \/ num_rows example_table = 0
   \/ num_columns (select example_table [0; 1]) = 0)
  /\ exists out,
       result (hash_partition example_hash example_env example_table [0; 1] 0)
       = inr (out, [])
       /\ trace (hash_partition example_hash example_env example_table
                   [0; 1] 0) = []
       /\ map ctype out = map ctype example_table
       /\ Forall (fun c => size c = 0 /\ null_mask c = None) out
       /\ num_rows out = 0.
Proof.
  assert ((0 <= 0)%Z \/ num_rows example_table = 0
          \/ num_columns (select example_table [0; 1]) = 0) as Hguard
    by (left; lia).
  split; [assumption|].
  exact (hash_partition_empty example_hash example_env example_table
           [0; 1] 0 Hguard).
Defined.

(** * Further properties of the code *)

(** ** Partitioners *)

(** X1: for every number of partitions N that is a positive [size_type] and
    every hash value, the partitioner that [hash_partition_table] selects
    returns a partition index in [0, N), namely the hash (as an unsigned
    32-bit value) modulo N. *)
Theorem selected_partitioner_index (N h : Z) :
  (0 < N < 2 ^ 31)%Z ->
  let p := (if is_power_two N then bitwise_partitioner N h
            else modulo_partitioner N h) in
  (0 <= p < N)%Z /\ p = ((h mod 2 ^ 32) mod N)%Z.
Proof.
  intros HN p. subst p.
  pose proof (partition_of_range N h HN) as Hr.
  pose proof (partition_of_spec N h HN) as Hs.
  unfold partition_of, uint32_wrap in *. by destruct (is_power_two N).
Qed.

Lemma selected_partitioner_index_witness :
  (0 < 1000 < 2 ^ 31)%Z
  /\ let p := (if is_power_two 1000 then bitwise_partitioner 1000 (-1)
               else modulo_partitioner 1000 (-1)) in
     (0 <= p < 1000)%Z /\ p = (((-1) mod 2 ^ 32) mod 1000)%Z.
Proof.
  assert (0 < 1000 < 2 ^ 31)%Z as HN by lia.
  split; [assumption|].
  exact (selected_partitioner_index 1000 (-1) HN).
Defined.

(** X2: [is_power_two] accepts exactly the powers of two among the positive
    [size_type] values. *)
Theorem is_power_two_iff (N : Z) :
  (0 < N < 2 ^ 31)%Z ->
  is_power_two N = true <-> exists k, (0 <= k <= 30)%Z /\ N = (2 ^ k)%Z.
Proof.
  intros HN. split.
  - by apply is_power_two_inv.
  - intros (k & Hk & ->). by apply is_power_two_pow2.
Qed.

Lemma is_power_two_iff_witness :
  (0 < 12 < 2 ^ 31)%Z
  /\ (is_power_two 12 = true <-> exists k, (0 <= k <= 30)%Z /\ 12%Z = (2 ^ k)%Z).
Proof.
  assert (0 < 12 < 2 ^ 31)%Z as HN by lia.
  split; [assumption|]. exact (is_power_two_iff 12 HN).
Defined.

(** ** Loops *)

(** X4: for every grid of G > 0 blocks and every number of rows R with
    R + BLOCK_SIZE * G <= 2^31, the row loops of the G blocks of
    [BLOCK_SIZE] threads (lines 121 and 136-148, and again 240-251)
    terminate and together visit every row below R exactly once, row r
    being visited by block [block_of G r]; and for every number of
    partitions N with N + BLOCK_SIZE <= 2^31 the partition loops of a block
    (lines 124-129, 153-165, 232-236) terminate and visit every partition
    below N exactly once. *)
Theorem grid_stride_loops_visit_once (G R N : nat) :
  0 < G ->
  rows_fit G R ->
  partitions_fit N ->
  (exists rows,
     (forall b, b < G -> block_rows G b R = Some (rows b))
     /\ Permutation (flat_map rows (seq 0 G)) (seq 0 R)
     /\ forall b r, b < G -> In r (rows b) <-> r < R /\ block_of G r = b)
  /\ (forall r, block_of G r < G)
  /\ exists partitions,
       block_loop N = Some partitions
       /\ Permutation partitions (seq 0 N).
Proof.
  intros HG Hfit HNfit. split; [|split].
  - exists (fun b => Unbounded.block_rows G b R).
    split; [intros b Hb; by apply block_rows_in_range|].
    split; [by apply grid_rows_Permutation|].
    intros b r Hb. by apply block_rows_In.
  - intros r. by apply block_of_lt.
  - exists (Unbounded.block_loop BLOCK_SIZE N).
    split; [by apply block_loop_in_range|].
    apply block_loop_Permutation, BLOCK_SIZE_pos.
Qed.

Lemma grid_stride_loops_visit_once_witness :
  0 < 3
  /\ rows_fit 3 5000
  /\ partitions_fit 7
  /\ (exists rows,
        (forall b, b < 3 -> block_rows 3 b 5000 = Some (rows b))
        /\ Permutation (flat_map rows (seq 0 3)) (seq 0 5000)
        /\ forall b r, b < 3 ->
             In r (rows b) <-> r < 5000 /\ block_of 3 r = b)
  /\ (forall r, block_of 3 r < 3)
  /\ exists partitions,
       block_loop 7 = Some partitions
       /\ Permutation partitions (seq 0 7).
Proof.
  assert (0 < 3) as HG by lia.
  assert (rows_fit 3 5000) as Hfit
    by (unfold rows_fit; change (Z.of_nat BLOCK_SIZE) with 512%Z; lia).
  assert (partitions_fit 7) as HNfit
    by (unfold partitions_fit; change (Z.of_nat BLOCK_SIZE) with 512%Z; lia).
  repeat (split; [assumption|]).
  exact (grid_stride_loops_visit_once 3 5000 7 HG Hfit HNfit).
Defined.

(** ** What [hash_partition] accepts and returns *)



Lemma hash_partition_returns_schema (H : hash_functions) (env : exec_env)
    (input : table_view) (columns_to_hash : list nat) (N : Z)
    (out : table_view) (offsets : list nat) :
  result (hash_partition H env input columns_to_hash N) = inr (out, offsets) ->
  map ctype out = map ctype input
  /\ Forall (fun c => null_mask c = None) out
  /\ map size out
     = if (N <=? 0)%Z || (num_rows input =? 0)
          || (num_columns (select input columns_to_hash) =? 0)
       then map (fun _ => 0) input
       else map size input.
Proof.
  unfold hash_partition. cbv zeta.
  destruct ((N <=? 0)%Z || (num_rows input =? 0)
            || (num_columns (select input columns_to_hash) =? 0)) eqn:Hguard.
  - intros [= <- <-]. split; [apply empty_like_schema|]. split.
    + eapply List.Forall_impl; [|apply empty_like_rows]. by intros c [_ ?].
    + unfold empty_like. rewrite map_map. by apply map_ext.
  - assert (0 <= N)%Z as HN.
    { destruct (Z.leb_spec N 0) as [|HN]; [done|lia]. }
    assert (forall nullable,
              result (hash_partition_table H env nullable input
                        (select input columns_to_hash) N)
              = inr (out, offsets) ->
              map ctype out = map ctype input
              /\ Forall (fun c => null_mask c = None) out
              /\ map size out = map size input) as Hgen.
    { intros nullable. rewrite hash_partition_table_result by done.
      destruct (bool_decide _); [|done].
      destruct (routing_tables H env nullable
                  (select input columns_to_hash) N) as [rt|]; [|done].
      unfold scatter_columns.
      set (f := move_to_output_buffer_dispatcher _ _ _ _ _).
      destruct (result (transform_columns f 0 input)) as [e|cols] eqn:Hcols;
        [done|].
      intros [= <- _].
      apply transform_columns_result_inr in Hcols as [Hlen Hcols].
      assert (forall j c, input !! j = Some c ->
                exists b, cols !! j = Some b
                  /\ ctype b = ctype c /\ null_mask b = None
                  /\ size b = size c) as Hcol.
      { intros j c Hc. destruct (Hcols j c Hc) as (b & Hb & Hres).
        exists b. split; [done|].
        apply move_to_output_buffer_dispatcher_inv in Hres
          as (_ & _ & buf & Hbuf & ->).
        apply move_to_output_buffer_Some_length in Hbuf.
        unfold size. cbn [ctype null_mask cdata].
        rewrite Hbuf, length_map, length_seq. done. }
      split; [|split].
      - apply map_eq_lookup; [done|]. intros j c Hc.
        destruct (Hcol j c Hc) as (b & ? & ? & _). by exists b.
      - apply List.Forall_forall. intros b Hb.
        apply list_elem_of_In, list_elem_of_lookup in Hb as [j Hb].
        destruct (lookup_lt_is_Some_2 input j) as [c Hc].
        { rewrite <- Hlen. by eapply lookup_lt_Some. }
        destruct (Hcol j c Hc) as (b' & Hb' & _ & ? & _). congruence.
      - apply map_eq_lookup; [done|]. intros j c Hc.
        destruct (Hcol j c Hc) as (b & ? & _ & _ & ?). by exists b. }
    destruct (has_nulls (select input columns_to_hash)); apply Hgen.
Qed.

(** X6: whatever [hash_partition] returns has the schema of the input: the
    same number of columns with the same element types, in the same order,
    and no null mask on any column; past the guard every column has the
    number of rows of its input column, and on the early return every
    column is empty.  This holds for every number of partitions. *)
Theorem hash_partition_schema (H : hash_functions) (env : exec_env)
    (input : table_view) (columns_to_hash : list nat) (N : Z)
    (out : table_view) (offsets : list nat) :
  result (hash_partition H env input columns_to_hash N) = inr (out, offsets) ->
  map ctype out = map ctype input
  /\ Forall (fun c => null_mask c = None) out
  /\ map size out
     = if (N <=? 0)%Z || (num_rows input =? 0)
          || (num_columns (select input columns_to_hash) =? 0)
       then map (fun _ => 0) input
       else map size input.
Proof. apply hash_partition_returns_schema. Qed.

Lemma hash_partition_schema_witness :
  result (hash_partition example_hash example_env example_table [0; 1] 2)
  = inr ([ mk_column INT32 [1; 2; 1; 1; 3]%Z None;
           mk_column INT32 [1; 2; 1; 1; 4]%Z None;
           mk_column INT64 [3; 1; 4; 2; 9]%Z None ], [0; 4])
  /\ map ctype [ mk_column INT32 [1; 2; 1; 1; 3]%Z None;
                 mk_column INT32 [1; 2; 1; 1; 4]%Z None;
                 mk_column INT64 [3; 1; 4; 2; 9]%Z None ]
     = map ctype example_table
  /\ Forall (fun c => null_mask c = None)
       [ mk_column INT32 [1; 2; 1; 1; 3]%Z None;
         mk_column INT32 [1; 2; 1; 1; 4]%Z None;
         mk_column INT64 [3; 1; 4; 2; 9]%Z None ]
  /\ map size [ mk_column INT32 [1; 2; 1; 1; 3]%Z None;
                mk_column INT32 [1; 2; 1; 1; 4]%Z None;
                mk_column INT64 [3; 1; 4; 2; 9]%Z None ]
     = if (2 <=? 0)%Z || (num_rows example_table =? 0)
          || (num_columns (select example_table [0; 1]) =? 0)
       then map (fun _ => 0) example_table
       else map size example_table.
Proof.
  assert (result (hash_partition example_hash example_env example_table
                    [0; 1] 2)
          = inr ([ mk_column INT32 [1; 2; 1; 1; 3]%Z None;
                   mk_column INT32 [1; 2; 1; 1; 4]%Z None;
                   mk_column INT64 [3; 1; 4; 2; 9]%Z None ], [0; 4]))
    as Hres by (vm_compute; reflexivity).
  split; [exact Hres|].
  exact (hash_partition_schema example_hash example_env example_table
           [0; 1] 2 _ _ Hres).
Defined.

(** ** Partition offsets and partition contents *)

Lemma list_eq_lookups (l : list nat) n (f : nat -> nat) :
  length l = n -> (forall i, i < n -> l !!! i = f i) -> l = map f (seq 0 n).
Proof.
  intros Hlen Hf. apply list_eq_same_length with n;
    [by rewrite length_map, length_seq|done|].
  intros i x y Hi Hx Hy.
  apply list_lookup_total_correct in Hx. rewrite Hf in Hx by done.
  assert (map f (seq 0 n) !! i = Some (f i)) as Hm.
  { change (map f (seq 0 n)) with (f <$> seq 0 n).
    by rewrite list_lookup_fmap, lookup_seq_lt. }
  congruence.
Qed.

(** X7: the offsets that [hash_partition] returns, on a table with R rows,
    0 < R <= 1908874240, with at least one key column and N partitions,
    0 < N <= 2^31 - BLOCK_SIZE, are the exclusive scan of the partition
    sizes; they depend neither on the order in which the atomic increments
    take effect nor on what uninitialised memory holds. *)
Theorem partition_offsets_formula (H : hash_functions) (env : exec_env)
    (input : table_view) (columns_to_hash : list nat) (N : Z)
    (out : table_view) (partition_offsets : list nat) :
  table_wf input ->
  0 < num_rows input ->
  (Z.of_nat (num_rows input) <= max_num_rows)%Z ->
  columns_to_hash <> [] ->
  valid_keys input columns_to_hash ->
  (0 < N)%Z ->
  (N + Z.of_nat BLOCK_SIZE <= 2 ^ 31)%Z ->
  atomic_order_ok env ->
  result (hash_partition H env input columns_to_hash N)
  = inr (out, partition_offsets) ->
  partition_offsets
  = exclusive_scan
      (map (partition_size H input columns_to_hash N) (seq 0 (Z.to_nat N))).
Proof.
  intros Hwf HR Hrows Hne Hkeys HN HNfit Horder Hres.
  apply (invocation_result H env input columns_to_hash N
           Hwf HR Hrows Hne Hkeys HN HNfit) in Hres as (Hoffs & _ & _).
  pose proof (invocation_routing_ok H env input columns_to_hash N
                Hwf HR Hne Hkeys HN HNfit Horder) as Hok.
  rewrite Hoffs. f_equal. apply list_eq_lookups.
  - apply (rt_length_global _ _ _ _ _ _ Hok).
  - intros p Hp. by apply (rt_global _ _ _ _ _ _ Hok).
Qed.

Lemma partition_offsets_formula_witness :
  table_wf example_table
  /\ 0 < num_rows example_table
  /\ (Z.of_nat (num_rows example_table) <= max_num_rows)%Z
  /\ [0; 1] <> []
  /\ valid_keys example_table [0; 1]
  /\ (0 < 3)%Z
  /\ (3 + Z.of_nat BLOCK_SIZE <= 2 ^ 31)%Z
  /\ atomic_order_ok example_env_zero
  /\ result (hash_partition example_hash example_env_zero example_table
               [0; 1] 3)
     = inr ([mk_column INT32 [3; 2; 1; 1; 1]%Z None;
             mk_column INT32 [4; 2; 1; 1; 1]%Z None;
             mk_column INT64 [9; 1; 2; 4; 3]%Z None], [0; 0; 2])
  /\ [0; 0; 2]
     = exclusive_scan
         (map (partition_size example_hash example_table [0; 1] 3)
              (seq 0 (Z.to_nat 3))).
Proof.
  assert (table_wf example_table) as Hwf by (repeat constructor).
  assert (0 < num_rows example_table) as HR by (vm_compute; lia).
  assert (Z.of_nat (num_rows example_table) <= max_num_rows)%Z as Hrows
    by (vm_compute; discriminate).
  assert ([0; 1] <> []) as Hne by discriminate.
  assert (valid_keys example_table [0; 1]) as Hk by (repeat constructor).
  assert (0 < 3)%Z as HN by lia.
  assert (3 + Z.of_nat BLOCK_SIZE <= 2 ^ 31)%Z as HNfit
    by (change (Z.of_nat BLOCK_SIZE) with 512%Z; lia).
  assert (result (hash_partition example_hash example_env_zero example_table
                    [0; 1] 3)
          = inr ([mk_column INT32 [3; 2; 1; 1; 1]%Z None;
                  mk_column INT32 [4; 2; 1; 1; 1]%Z None;
                  mk_column INT64 [9; 1; 2; 4; 3]%Z None], [0; 0; 2]))
    as Hres by (vm_compute; reflexivity).
  repeat (split; [assumption|]). split; [exact example_env_zero_order|].
  split; [exact Hres|].
  exact (partition_offsets_formula example_hash example_env_zero
           example_table [0; 1] 3 _ _ Hwf HR Hrows Hne Hk HN HNfit
           example_env_zero_order Hres).
Defined.

(** Every address of the output buffer is the destination of a row. *)
Lemma destination_surjective part sched R N G rt d :
  routing_ok part sched R N G rt -> 0 < G -> d < R ->
  exists r, r < R /\ destination G rt r = d.
Proof.
  intros Hok HG Hd.
  assert (Permutation (map (destination G rt) (seq 0 R)) (seq 0 R)) as Hperm.
  { apply Permutation_map_same_l.
    - apply NoDup_map_NoDup_ForallPairs; [|apply seq_NoDup].
      intros x y Hx Hy. apply in_seq in Hx, Hy.
      apply (destination_inj _ _ _ _ _ _ Hok HG); lia.
    - intros x Hx. apply in_map_iff in Hx as (r & <- & Hr).
      apply in_seq in Hr. apply in_seq.
      pose proof (destination_lt _ _ _ _ _ _ Hok HG r). lia. }
  assert (In d (map (destination G rt) (seq 0 R))) as Hin.
  { eapply Permutation_in; [symmetry; exact Hperm|]. apply in_seq. lia. }
  apply in_map_iff in Hin as (r & Hr & Hin). apply in_seq in Hin.
  exists r. split; [lia|done].
Qed.

(** X8: on a table with R rows, 0 < R <= 1908874240, and with at most 1024
    partitions, every position d of the table that [hash_partition] returns
    holds an input row, and that row belongs to the partition whose range
    [offsets[p], offsets[p] + size of p) contains d: the partitions are
    contiguous and hold only their own rows. *)
Theorem hash_partition_partition_contents (H : hash_functions)
    (env : exec_env) (input : table_view) (columns_to_hash : list nat)
    (N : Z) :
  table_wf input ->
  0 < num_rows input ->
  (Z.of_nat (num_rows input) <= max_num_rows)%Z ->
  columns_to_hash <> [] ->
  valid_keys input columns_to_hash ->
  scatterable input ->
  (0 < N <= 1024)%Z ->
  atomic_order_ok env ->
  exists out offsets,
    result (hash_partition H env input columns_to_hash N) = inr (out, offsets)
    /\ forall d, d < num_rows input ->
         exists r,
           r < num_rows input
           /\ row out d = row input r
           /\ let p := row_partition H input columns_to_hash N r in
              offsets !!! p <= d
              < offsets !!! p + partition_size H input columns_to_hash N p.
Proof.
  intros Hwf HR Hrows Hne Hkeys Hsc HN Horder.
  destruct (supported_partitions N HN) as (HN0 & HNfit & HNmax).
  destruct (hash_partition_scatters H env input columns_to_hash N
              Hwf HR Hrows Hne Hkeys HN0 HNfit Horder HNmax Hsc)
    as (out & Hres & _ & _ & Hnum & Hrow).
  pose proof (invocation_routing_ok H env input columns_to_hash N
                Hwf HR Hne Hkeys HN0 HNfit Horder) as Hok.
  destruct (invocation_grid input HR) as [HG HGR].
  exists out. eexists. split; [exact Hres|].
  intros d Hd.
  destruct (destination_surjective _ _ _ _ _ _ d Hok HG Hd) as (r & Hr & <-).
  exists r. split; [done|]. split; [by apply Hrow|].
  cbv zeta.
  pose proof (destination_in_partition _ _ _ _ _ _ Hok HG r Hr) as Hin.
  rewrite (rt_global _ _ _ _ _ _ Hok) in Hin
    by apply (rt_part_lt _ _ _ _ _ _ Hok).
  exact Hin.
Qed.

Lemma hash_partition_partition_contents_witness :
  table_wf example_table
  /\ 0 < num_rows example_table
  /\ (Z.of_nat (num_rows example_table) <= max_num_rows)%Z
  /\ [0; 1] <> []
  /\ valid_keys example_table [0; 1]
  /\ scatterable example_table
  /\ (0 < 3 <= 1024)%Z
  /\ atomic_order_ok example_env_zero
  /\ exists out offsets,
       result (hash_partition example_hash example_env_zero example_table
                 [0; 1] 3)
       = inr (out, offsets)
       /\ forall d, d < num_rows example_table ->
            exists r,
              r < num_rows example_table
              /\ row out d = row example_table r
              /\ let p := row_partition example_hash example_table [0; 1] 3 r
                 in offsets !!! p <= d
                    < offsets !!! p
                      + partition_size example_hash example_table [0; 1] 3 p.
Proof.
  assert (table_wf example_table) as Hwf by (repeat constructor).
  assert (0 < num_rows example_table) as HR by (vm_compute; lia).
  assert (Z.of_nat (num_rows example_table) <= max_num_rows)%Z as Hrows
    by (vm_compute; discriminate).
  assert ([0; 1] <> []) as Hne by discriminate.
  assert (valid_keys example_table [0; 1]) as Hk by (repeat constructor).
  assert (scatterable example_table) as Hs by (repeat constructor).
  assert (0 < 3 <= 1024)%Z as HN by lia.
  repeat (split; [assumption|]). split; [exact example_env_zero_order|].
  exact (hash_partition_partition_contents example_hash example_env_zero
           example_table [0; 1] 3 Hwf HR Hrows Hne Hk Hs HN
           example_env_zero_order).
Defined.

(** ** The entry point [hash] *)

Lemma hash_raises_cond (H : hash_functions) (env : exec_env)
    (input : table_view) (initial_hash : list Z) :
  (exists e, result (hash H env input initial_hash) = inl e)
  <-> (0 < num_columns input /\ 0 < num_rows input
       /\ initial_hash <> []
       /\ length initial_hash <> num_columns input).
Proof.
  split.
  - intros [e He]. revert He. unfold hash. cbv zeta. rewrite result_emit.
    destruct (Nat.eqb_spec (num_columns input) 0) as [|HC]; [done|].
    destruct (Nat.eqb_spec (num_rows input) 0) as [|HR]; [done|].
    cbn [orb]. rewrite result_emit.
    destruct (decide (initial_hash = [])) as [->|Hne].
    { rewrite bool_decide_true by done. cbn [negb].
      by rewrite result_emit. }
    rewrite bool_decide_false by done. cbn [negb].
    destruct (Nat.eqb_spec (length initial_hash) (num_columns input))
      as [|Hlen].
    { by rewrite !result_emit. }
    intros _. repeat split; (lia || done).
  - intros (HC & HR & Hne & Hlen). eexists.
    unfold hash. cbv zeta. rewrite result_emit.
    destruct (Nat.eqb_spec (num_columns input) 0) as [|_]; [lia|].
    destruct (Nat.eqb_spec (num_rows input) 0) as [|_]; [lia|].
    cbn [orb]. rewrite result_emit.
    rewrite bool_decide_false by done. cbn [negb].
    destruct (Nat.eqb_spec (length initial_hash) (num_columns input)); done.
Qed.

(** X9: [hash] raises exactly when the table has a column and a row and the
    seed vector is non-empty with a length other than the number of
    columns; in every other case it returns a column. *)
Theorem hash_raises_iff (H : hash_functions) (env : exec_env)
    (input : table_view) (initial_hash : list Z) :
  (exists e, result (hash H env input initial_hash) = inl e)
  <-> (0 < num_columns input /\ 0 < num_rows input
       /\ initial_hash <> []
       /\ length initial_hash <> num_columns input).
Proof. apply hash_raises_cond. Qed.

(** X10: the column that [hash] returns holds, for every row, the row hash
    reinterpreted as a signed 32-bit integer (the seeded hasher when seeds
    are given, the unseeded one otherwise); no cell of the freshly allocated
    column is left as allocated, so the result does not depend on what the
    memory held, and every value is within the INT32 range. *)
Theorem hash_returns_row_hashes (H : hash_functions) (env : exec_env)
    (input : table_view) (initial_hash : list Z) (output : column_view) :
  result (hash H env input initial_hash) = inr output ->
  output = mk_column INT32 (hash_values H input initial_hash) None
  /\ Forall (fun v => (- 2 ^ 31 <= v < 2 ^ 31)%Z) (cdata output)
  /\ forall env', result (hash H env' input initial_hash) = inr output.
Proof.
  assert (forall env0 out0,
            result (hash H env0 input initial_hash) = inr out0 ->
            out0 = mk_column INT32 (hash_values H input initial_hash) None)
    as Hval.
  { intros env0 out0. unfold hash, hash_values. cbv zeta.
    rewrite result_emit.
    destruct ((num_columns input =? 0) || (num_rows input =? 0)) eqn:Hguard.
    - assert (num_rows input = 0) as ->.
      { apply orb_true_iff in Hguard as [HC|HR].
        - apply Nat.eqb_eq in HC. by destruct input.
        - by apply Nat.eqb_eq in HR. }
      by intros [= <-].
    - rewrite result_emit.
      destruct (bool_decide (initial_hash = [])); cbn [negb].
      + rewrite !result_emit. by intros [= <-].
      + destruct (length initial_hash =? num_columns input); [|done].
        rewrite !result_emit. by intros [= <-]. }
  intros Hres. pose proof (Hval env output Hres) as ->.
  split; [done|]. split.
  - cbn [cdata]. unfold hash_values. apply List.Forall_forall.
    intros v Hv. apply in_map_iff in Hv as (i & <- & _).
    unfold int32_wrap.
    pose proof (Z.mod_pos_bound
                  (uint32_wrap
                     (if bool_decide (initial_hash = [])
                      then row_hasher H (has_nulls input)
                             (row_cells (has_nulls input) input i)
                      else row_hasher_initial_values H (has_nulls input)
                             (map uint32_wrap initial_hash)
                             (row_cells (has_nulls input) input i))
                   + 2 ^ 31) (2 ^ 32) ltac:(lia))%Z.
    lia.
  - intros env'.
    destruct (result (hash H env' input initial_hash)) as [e|out'] eqn:Hres'.
    + exfalso.
      assert (exists e, result (hash H env input initial_hash) = inl e)
        as [e' He'].
      { apply hash_raises_cond. apply (hash_raises_cond H env'). eauto. }
      congruence.
    + by rewrite (Hval env' out' Hres').
Qed.

Lemma hash_returns_row_hashes_witness :
  result (hash example_hash example_env example_table [1; 2; 3]%Z)
  = inr (mk_column INT32 [2915 + 6 * 29791; 1025 + 6 * 29791;
                           3876 + 6 * 29791; 8776 + 6 * 29791;
                           1954 + 6 * 29791]%Z None)
  /\ mk_column INT32 [2915 + 6 * 29791; 1025 + 6 * 29791;
                      3876 + 6 * 29791; 8776 + 6 * 29791;
                      1954 + 6 * 29791]%Z None
     = mk_column INT32 (hash_values example_hash example_table [1; 2; 3]%Z)
         None
  /\ Forall (fun v => (- 2 ^ 31 <= v < 2 ^ 31)%Z)
       (cdata (mk_column INT32 [2915 + 6 * 29791; 1025 + 6 * 29791;
                                3876 + 6 * 29791; 8776 + 6 * 29791;
                                1954 + 6 * 29791]%Z None))
  /\ forall env',
       result (hash example_hash env' example_table [1; 2; 3]%Z)
       = inr (mk_column INT32 [2915 + 6 * 29791; 1025 + 6 * 29791;
                               3876 + 6 * 29791; 8776 + 6 * 29791;
                               1954 + 6 * 29791]%Z None).
Proof.
  assert (result (hash example_hash example_env example_table [1; 2; 3]%Z)
          = inr (mk_column INT32 [2915 + 6 * 29791; 1025 + 6 * 29791;
                                  3876 + 6 * 29791; 8776 + 6 * 29791;
                                  1954 + 6 * 29791]%Z None)) as Hres
    by (vm_compute; reflexivity).
  split; [exact Hres|].
  exact (hash_returns_row_hashes example_hash example_env example_table
           [1; 2; 3]%Z _ Hres).
Defined.

(** ** The two kernels together *)

Lemma list_eq_lookups_total `{Inhabited A} (l : list A) n :
  length l = n -> l = map (fun i => l !!! i) (seq 0 n).
Proof.
  intros Hlen. apply list_eq_same_length with n;
    [by rewrite length_map, length_seq|done|].
  intros i x y Hi Hx Hy.
  apply list_lookup_total_correct in Hx.
  assert (map (fun i => l !!! i) (seq 0 n) !! i = Some (l !!! i)) as Hm.
  { change (map (fun i => l !!! i) (seq 0 n))
      with ((fun i => l !!! i) <$> seq 0 n).
    by rewrite list_lookup_fmap, lookup_seq_lt. }
  congruence.
Qed.

(** The histogram kernel on zero-filled tables, in the range where no
    counter wraps. *)
Lemma histogram_kernel_run env the_hasher (N : Z) (B R : nat) :
  atomic_order_ok env ->
  (0 < N <= 1024)%Z ->
  0 < B ->
  rows_fit B R ->
  let the_partitioner :=
    if is_power_two N then bitwise_partitioner N else modulo_partitioner N in
  exists rt,
    compute_row_partition_numbers env the_hasher R (Z.to_nat N)
      the_partitioner B
      (mk_routing (replicate R 0) (replicate R 0)
                  (replicate (B * Z.to_nat N) 0) (replicate (Z.to_nat N) 0))
    = Some rt
    /\ routing_ok (partition_number_of the_hasher the_partitioner)
         (fun b => atomic_order env b (Unbounded.block_rows B b R))
         R (Z.to_nat N) B rt.
Proof.
  intros Horder HN HB Hfit the_partitioner.
  destruct (supported_partitions N HN) as (HN0 & HNfit & HNmax).
  assert (0 < N < 2 ^ 31)%Z as HN' by lia.
  eexists. split.
  - apply compute_row_partition_numbers_in_range; [done|].
    unfold partitions_fit. lia.
  - exact (compute_row_partition_numbers_ok env the_hasher
             the_partitioner R (Z.to_nat N) B Horder
             (fun r => partition_number_of_lt the_hasher N r HN') HB).
Qed.

(** X11: for every grid of B blocks with enough staging capacity
    (R <= B * BLOCK_SIZE * ROWS_PER_THREAD) whose row counters stay inside
    [size_type] (R + BLOCK_SIZE * B <= 2^31), at most 1024 partitions with
    a block histogram of B * N < 2^31 entries, and either partitioner, the histogram kernel completes, the scatter kernel
    run on its routing tables completes, and it writes a rearrangement of
    the input buffer, whatever the output buffer and the shared memory held
    before and whatever the order of the atomic increments was. *)
Theorem scatter_after_histogram_permutes (env : exec_env)
    (the_hasher : nat -> Z) (N : Z) (B : nat) (column_index : nat)
    (input_buf output_buf : list Z) :
  atomic_order_ok env ->
  (0 < N <= 1024)%Z ->
  0 < B ->
  length input_buf <= B * (BLOCK_SIZE * ROWS_PER_THREAD) ->
  rows_fit B (length input_buf) ->
  (Z.of_nat B * N < 2 ^ 31)%Z ->
  length output_buf = length input_buf ->
  let R := length input_buf in
  exists rt out,
    compute_row_partition_numbers env the_hasher R (Z.to_nat N)
      (if is_power_two N then bitwise_partitioner N
       else modulo_partitioner N)
      B
      (mk_routing (replicate R 0) (replicate R 0)
                  (replicate (B * Z.to_nat N) 0) (replicate (Z.to_nat N) 0))
    = Some rt
    /\ move_to_output_buffer env column_index input_buf output_buf R
         (Z.to_nat N) rt (exclusive_scan (block_partition_sizes rt)) B
       = Some out
    /\ Permutation out input_buf.
Proof.
  intros Horder HN HB HR Hfit _ Hlen R.
  destruct (supported_partitions N HN) as (HN0 & HNfit & HNmax).
  destruct (histogram_kernel_run env the_hasher N B R Horder HN HB Hfit)
    as (rt & Hrt & Hok).
  exists rt. eexists. split; [exact Hrt|]. split.
  { by apply (move_to_output_buffer_in_range env _ _ R (Z.to_nat N) B rt
                Hok HB HNmax HR). }
  set (out := Unbounded.move_to_output_buffer _ _ _ _ _ _ _ _ _).
  assert (length out = R) as Hout
    by (unfold out; by rewrite move_to_output_buffer_length).
  assert (forall r, r < R -> out !!! destination B rt r = input_buf !!! r)
    as Hcell.
  { intros r Hr. unfold out.
    by apply (move_to_output_buffer_spec env _ _ R (Z.to_nat N) B rt Hok). }
  assert (Permutation (map (destination B rt) (seq 0 R)) (seq 0 R)) as Hperm.
  { apply Permutation_map_same_l.
    - apply NoDup_map_NoDup_ForallPairs; [|apply seq_NoDup].
      intros x y Hx Hy. apply in_seq in Hx, Hy.
      apply (destination_inj _ _ _ _ _ _ Hok HB); lia.
    - intros x Hx. apply in_map_iff in Hx as (r & <- & Hr).
      apply in_seq in Hr. apply in_seq.
      pose proof (destination_lt _ _ _ _ _ _ Hok HB r). lia. }
  assert (map (fun r => out !!! destination B rt r) (seq 0 R) = input_buf)
    as Heq.
  { etransitivity;
      [|symmetry; apply (list_eq_lookups_total input_buf R eq_refl)].
    apply map_ext_in. intros r Hr. apply in_seq in Hr. apply Hcell. lia. }
  rewrite (list_eq_lookups_total out R Hout).
  rewrite <- Hperm, map_map. by rewrite Heq.
Qed.

Lemma scatter_after_histogram_permutes_witness :
  atomic_order_ok example_env_zero
  /\ (0 < 3 <= 1024)%Z
  /\ 0 < 2
  /\ length [10; 11; 12; 13; 14; 15; 16]%Z
     <= 2 * (BLOCK_SIZE * ROWS_PER_THREAD)
  /\ rows_fit 2 (length [10; 11; 12; 13; 14; 15; 16]%Z)
  /\ (Z.of_nat 2 * 3 < 2 ^ 31)%Z
  /\ length [0; 0; 0; 0; 0; 0; 0]%Z = length [10; 11; 12; 13; 14; 15; 16]%Z
  /\ let R := length [10; 11; 12; 13; 14; 15; 16]%Z in
     exists rt out,
       compute_row_partition_numbers example_env_zero
         (fun r => Z.of_nat (r * r)) R (Z.to_nat 3)
         (if is_power_two 3 then bitwise_partitioner 3
          else modulo_partitioner 3)
         2
         (mk_routing (replicate R 0) (replicate R 0)
                     (replicate (2 * Z.to_nat 3) 0)
                     (replicate (Z.to_nat 3) 0))
       = Some rt
       /\ move_to_output_buffer example_env_zero 0
            [10; 11; 12; 13; 14; 15; 16]%Z [0; 0; 0; 0; 0; 0; 0]%Z R
            (Z.to_nat 3) rt (exclusive_scan (block_partition_sizes rt)) 2
          = Some out
       /\ Permutation out [10; 11; 12; 13; 14; 15; 16]%Z.
Proof.
  assert (0 < 3 <= 1024)%Z as HN by lia.
  assert (0 < 2) as HB by lia.
  assert (length [10; 11; 12; 13; 14; 15; 16]%Z
          <= 2 * (BLOCK_SIZE * ROWS_PER_THREAD)) as HR
    by (vm_compute; lia).
  assert (rows_fit 2 (length [10; 11; 12; 13; 14; 15; 16]%Z)) as Hfit
    by (unfold rows_fit; change (Z.of_nat BLOCK_SIZE) with 512%Z;
        simpl; lia).
  assert (Z.of_nat 2 * 3 < 2 ^ 31)%Z as Hsize by lia.
  assert (length [0; 0; 0; 0; 0; 0; 0]%Z
          = length [10; 11; 12; 13; 14; 15; 16]%Z) as Hlen by reflexivity.
  split; [exact example_env_zero_order|].
  repeat (split; [assumption|]).
  exact (scatter_after_histogram_permutes example_env_zero
           (fun r => Z.of_nat (r * r)) 3 2 0
           [10; 11; 12; 13; 14; 15; 16]%Z [0; 0; 0; 0; 0; 0; 0]%Z
           example_env_zero_order HN HB HR Hfit Hsize Hlen).
Defined.

(** X12: memory safety of the scatter kernel in the supported range.  For a
    grid of B blocks with enough staging capacity whose row counters stay
    inside [size_type] (R + BLOCK_SIZE * B <= 2^31) and at most 1024
    partitions with B * N < 2^31, on the routing tables of the histogram kernel, the three
    store phases of every block complete and every store is inside its
    array: the stores into [partition_offset_shared] below N + 1, those into
    [partition_offset_global] below N, those into the staging buffer
    [block_output] below BLOCK_SIZE * ROWS_PER_THREAD, and those into the
    output buffer below the number of rows; no store of the model is
    dropped. *)
Theorem scatter_stores_in_bounds (env : exec_env) (the_hasher : nat -> Z)
    (N : Z) (B : nat) (column_index blockIdx : nat) (input_buf : list Z) :
  atomic_order_ok env ->
  (0 < N <= 1024)%Z ->
  0 < B ->
  length input_buf <= B * (BLOCK_SIZE * ROWS_PER_THREAD) ->
  rows_fit B (length input_buf) ->
  (Z.of_nat B * N < 2 ^ 31)%Z ->
  blockIdx < B ->
  let R := length input_buf in
  exists rt global_stores staging_stores output_stores,
    compute_row_partition_numbers env the_hasher R (Z.to_nat N)
      (if is_power_two N then bitwise_partitioner N
       else modulo_partitioner N)
      B
      (mk_routing (replicate R 0) (replicate R 0)
                  (replicate (B * Z.to_nat N) 0) (replicate (Z.to_nat N) 0))
    = Some rt
    /\ let sbps := exclusive_scan (block_partition_sizes rt) in
       let pos :=
         partition_offset_shared_of env column_index (Z.to_nat N) B blockIdx
           (block_partition_sizes rt) in
       partition_offset_global_stores (Z.to_nat N) B blockIdx sbps
       = Some global_stores
       /\ block_output_stores input_buf R B blockIdx
            (row_partition_numbers rt) (row_partition_offset rt) pos
          = Some staging_stores
       /\ output_buf_stores (Z.to_nat N) pos
            (apply_stores global_stores
               (partition_offset_global_init env column_index blockIdx
                  (Z.to_nat N)))
            (apply_stores staging_stores
               (block_output_init env column_index blockIdx))
          = Some output_stores
       /\ Forall (fun w => w.1 < Z.to_nat N + 1)
            (partition_offset_shared_stores (Z.to_nat N)
               (InclusiveSum
                  (temp_histo (Z.to_nat N) B blockIdx
                     (block_partition_sizes rt))))
       /\ Forall (fun w => w.1 < Z.to_nat N) global_stores
       /\ Forall (fun w => w.1 < BLOCK_SIZE * ROWS_PER_THREAD) staging_stores
       /\ Forall (fun w => w.1 < R) output_stores.
Proof.
  intros Horder HN HB HR Hfit _ Hb R.
  destruct (supported_partitions N HN) as (HN0 & HNfit & HNmax).
  assert (partitions_fit (Z.to_nat N)) as HNfit'
    by (unfold partitions_fit; lia).
  destruct (histogram_kernel_run env the_hasher N B R Horder HN HB Hfit)
    as (rt & Hrt & Hok).
  exists rt. eexists. eexists. eexists.
  split; [exact Hrt|]. cbv zeta.
  split; [by apply partition_offset_global_stores_in_range|].
  split; [by apply block_output_stores_in_range|].
  split.
  { apply output_buf_stores_in_range; [done|].
    intros p Hp.
    pose proof (partition_offset_shared_bound env _ _ R (Z.to_nat N) B rt
                  Hok HB HNmax HR column_index blockIdx p Hb Hp) as Hle.
    change (BLOCK_SIZE * ROWS_PER_THREAD) with 4096 in Hle.
    change (Z.of_nat nthreads_partition) with 16%Z. lia. }
  split; [|split; [|split]]; apply List.Forall_forall.
  - intros [a v] Hw.
    apply partition_offset_shared_stores_In in Hw
      as [[-> _]|(k & Hk & _ & -> & _)]; cbn [fst]; lia.
  - intros [a v] Hw. unfold Unbounded.partition_offset_global_stores in Hw.
    apply in_map_iff in Hw as (p & [= <- _] & Hp).
    apply block_loop_In in Hp as [Hp _]. done.
  - intros w Hw.
    by apply (block_output_stores_in_bounds env _ _ R (Z.to_nat N) B rt Hok
                HB HNmax HR column_index blockIdx input_buf).
  - intros w Hw.
    by apply (output_buf_stores_in_bounds env _ _ R (Z.to_nat N) B rt Hok
                HB HNmax HR column_index blockIdx input_buf).
Qed.

Lemma scatter_stores_in_bounds_witness :
  atomic_order_ok example_env_zero
  /\ (0 < 3 <= 1024)%Z
  /\ 0 < 2
  /\ length [10; 11; 12; 13; 14; 15; 16]%Z
     <= 2 * (BLOCK_SIZE * ROWS_PER_THREAD)
  /\ rows_fit 2 (length [10; 11; 12; 13; 14; 15; 16]%Z)
  /\ (Z.of_nat 2 * 3 < 2 ^ 31)%Z
  /\ 1 < 2
  /\ let R := length [10; 11; 12; 13; 14; 15; 16]%Z in
     exists rt global_stores staging_stores output_stores,
       compute_row_partition_numbers example_env_zero
         (fun r => Z.of_nat (r * r)) R (Z.to_nat 3)
         (if is_power_two 3 then bitwise_partitioner 3
          else modulo_partitioner 3)
         2
         (mk_routing (replicate R 0) (replicate R 0)
                     (replicate (2 * Z.to_nat 3) 0)
                     (replicate (Z.to_nat 3) 0))
       = Some rt
       /\ let sbps := exclusive_scan (block_partition_sizes rt) in
          let pos :=
            partition_offset_shared_of example_env_zero 0 (Z.to_nat 3) 2 1
              (block_partition_sizes rt) in
          partition_offset_global_stores (Z.to_nat 3) 2 1 sbps
          = Some global_stores
          /\ block_output_stores [10; 11; 12; 13; 14; 15; 16]%Z R 2 1
               (row_partition_numbers rt) (row_partition_offset rt) pos
             = Some staging_stores
          /\ output_buf_stores (Z.to_nat 3) pos
               (apply_stores global_stores
                  (partition_offset_global_init example_env_zero 0 1
                     (Z.to_nat 3)))
               (apply_stores staging_stores
                  (block_output_init example_env_zero 0 1))
             = Some output_stores
          /\ Forall (fun w => w.1 < Z.to_nat 3 + 1)
               (partition_offset_shared_stores (Z.to_nat 3)
                  (InclusiveSum
                     (temp_histo (Z.to_nat 3) 2 1
                        (block_partition_sizes rt))))
          /\ Forall (fun w => w.1 < Z.to_nat 3) global_stores
          /\ Forall (fun w => w.1 < BLOCK_SIZE * ROWS_PER_THREAD)
               staging_stores
          /\ Forall (fun w => w.1 < R) output_stores.
Proof.
  assert (0 < 3 <= 1024)%Z as HN by lia.
  assert (0 < 2) as HB by lia.
  assert (length [10; 11; 12; 13; 14; 15; 16]%Z
          <= 2 * (BLOCK_SIZE * ROWS_PER_THREAD)) as HR
    by (vm_compute; lia).
  assert (rows_fit 2 (length [10; 11; 12; 13; 14; 15; 16]%Z)) as Hfit
    by (unfold rows_fit; change (Z.of_nat BLOCK_SIZE) with 512%Z;
        simpl; lia).
  assert (Z.of_nat 2 * 3 < 2 ^ 31)%Z as Hsize by lia.
  assert (1 < 2) as Hb by lia.
  split; [exact example_env_zero_order|].
  repeat (split; [assumption|]).
  exact (scatter_stores_in_bounds example_env_zero
           (fun r => Z.of_nat (r * r)) 3 2 0 1
           [10; 11; 12; 13; 14; 15; 16]%Z
           example_env_zero_order HN HB HR Hfit Hsize Hb).
Defined.

(** ** The device work of an invocation *)

(** X13: on a table that it accepts, with R rows, 0 < R <= 1908874240, and
    N partitions, 0 < N <= 1024, [hash_partition] asks of the device, in
    this order: the five routing tables and the device view of the keys,
    one launch of the histogram kernel with
    ceil(R / (BLOCK_SIZE * ROWS_PER_THREAD)) blocks (with the bitmask
    partitioner exactly when [is_power_two N]), the two scans, the copy of
    the offsets, and then per input column, in column order, one output
    buffer of R cells and one launch of the scatter kernel; nothing else.
    The two tables of ceil(R / (BLOCK_SIZE * ROWS_PER_THREAD)) * N entries
    are within [size_type]. *)
Theorem hash_partition_device_work (H : hash_functions) (env : exec_env)
    (input : table_view) (columns_to_hash : list nat) (N : Z) :
  table_wf input ->
  0 < num_rows input ->
  (Z.of_nat (num_rows input) <= max_num_rows)%Z ->
  columns_to_hash <> [] ->
  valid_keys input columns_to_hash ->
  scatterable input ->
  (0 < N <= 1024)%Z ->
  atomic_order_ok env ->
  trace (hash_partition H env input columns_to_hash N)
  = routing_events (select input columns_to_hash) N
    ++ scatter_events 0 input
         (div_rounding_up_safe (num_rows input)
            (BLOCK_SIZE * ROWS_PER_THREAD))
  /\ (Z.of_nat (div_rounding_up_safe (num_rows input)
                  (BLOCK_SIZE * ROWS_PER_THREAD)) * N < 2 ^ 31)%Z.
Proof.
  intros Hwf HR Hrows Hne Hkeys Hsc HN Horder.
  destruct (supported_partitions N HN) as (HN0 & HNfit & HNmax).
  split.
  - rewrite <- (accepted_prefix_scatterable input Hsc) at 3.
    by apply invocation_trace.
  - by apply (invocation_table_size input N HR Hrows HN0 HNmax).
Qed.

Lemma hash_partition_device_work_witness :
  table_wf example_table
  /\ 0 < num_rows example_table
  /\ (Z.of_nat (num_rows example_table) <= max_num_rows)%Z
  /\ [0; 1] <> []
  /\ valid_keys example_table [0; 1]
  /\ scatterable example_table
  /\ (0 < 2 <= 1024)%Z
  /\ atomic_order_ok example_env
  /\ trace (hash_partition example_hash example_env example_table [0; 1] 2)
     = routing_events (select example_table [0; 1]) 2
       ++ scatter_events 0 example_table
            (div_rounding_up_safe (num_rows example_table)
               (BLOCK_SIZE * ROWS_PER_THREAD))
  /\ (Z.of_nat (div_rounding_up_safe (num_rows example_table)
                  (BLOCK_SIZE * ROWS_PER_THREAD)) * 2 < 2 ^ 31)%Z.
Proof.
  assert (table_wf example_table) as Hwf by (repeat constructor).
  assert (0 < num_rows example_table) as HR by (vm_compute; lia).
  assert (Z.of_nat (num_rows example_table) <= max_num_rows)%Z as Hrows
    by (vm_compute; discriminate).
  assert ([0; 1] <> []) as Hne by discriminate.
  assert (valid_keys example_table [0; 1]) as Hk by (repeat constructor).
  assert (scatterable example_table) as Hs by (repeat constructor).
  assert (0 < 2 <= 1024)%Z as HN by lia.
  repeat (split; [assumption|]). split; [exact example_env_order|].
  exact (hash_partition_device_work example_hash example_env example_table
           [0; 1] 2 Hwf HR Hrows Hne Hk Hs HN example_env_order).
Defined.

(** ** Uninitialised memory *)

Lemma routing_ok_tables part sched R N G rt :
  0 < G -> routing_ok part sched R N G rt ->
  rt = mk_routing
         (map part (seq 0 R))
         (map (fun r => rank_in part (sched (block_of G r)) r) (seq 0 R))
         (map (fun f => count_partition part (f / G) (sched (f mod G)))
              (seq 0 (N * G)))
         (map (fun p => count_partition part p (seq 0 R)) (seq 0 N)).
Proof.
  intros HG Hok. destruct rt as [rpn rpo bps gps].
  destruct Hok as [_ _ L1 L2 L3 L4 E1 E2 E3 E4]. cbn in *.
  f_equal; apply list_eq_lookups; try done.
  intros f Hf.
  pose proof (Nat.div_mod_eq f G) as Hdm.
  pose proof (Nat.mod_upper_bound f G ltac:(lia)) as Hm.
  assert (f / G < N) as Hq by (apply Nat.Div0.div_lt_upper_bound; lia).
  rewrite <- (E3 (f mod G) (f / G)) by done. f_equal. lia.
Qed.

Lemma routing_ok_sched_ext part sched sched' R N G rt :
  (forall b, sched' b = sched b) ->
  routing_ok part sched R N G rt -> routing_ok part sched' R N G rt.
Proof.
  intros Hext [P1 P2 L1 L2 L3 L4 E1 E2 E3 E4].
  split; try done.
  - intros b Hb. rewrite Hext. by apply P2.
  - intros r Hr. rewrite Hext. by apply E2.
  - intros b p Hb Hp. rewrite Hext. by apply E3.
Qed.

Lemma table_eq_rows (t t' : table_view) R :
  map ctype t = map ctype t' ->
  Forall (fun c => null_mask c = None) t ->
  Forall (fun c => null_mask c = None) t' ->
  Forall (fun c => size c = R) t ->
  Forall (fun c => size c = R) t' ->
  (forall d, d < R -> row t d = row t' d) ->
  t = t'.
Proof.
  revert t'. induction t as [|c t IH]; intros [|c' t'] Hty M M' S S' Hrow;
    try done.
  injection Hty as Hty1 Hty2.
  apply Forall_cons in M as [Mc M], M' as [Mc' M'].
  apply Forall_cons in S as [Sc S], S' as [Sc' S'].
  f_equal.
  - destruct c as [ty d m], c' as [ty' d' m']. cbn in *. subst.
    f_equal. unfold size in *. cbn in *.
    apply list_eq_same_length with (length d); try done.
    intros i x y Hi Hx Hy. specialize (Hrow i Hi).
    injection Hrow as Hrow _.
    apply list_lookup_total_correct in Hx, Hy. congruence.
  - apply IH; try done. intros d Hd. specialize (Hrow d Hd).
    by injection Hrow.
Qed.

(** X14: on a table with R rows, 0 < R <= 1908874240, and with at most
    1024 partitions, what [hash_partition] returns is determined by the
    table, the keys, N and the order of the atomic increments: two executions that differ only in the contents of
    uninitialised memory (the dynamic shared memory of both kernels and the
    fresh output buffers) return the same table and the same offsets. *)
Theorem hash_partition_ignores_uninitialised_memory (H : hash_functions)
    (env env' : exec_env) (input : table_view) (columns_to_hash : list nat)
    (N : Z) :
  table_wf input ->
  0 < num_rows input ->
  (Z.of_nat (num_rows input) <= max_num_rows)%Z ->
  columns_to_hash <> [] ->
  valid_keys input columns_to_hash ->
  scatterable input ->
  (0 < N <= 1024)%Z ->
  atomic_order_ok env ->
  (forall b l, atomic_order env' b l = atomic_order env b l) ->
  result (hash_partition H env' input columns_to_hash N)
  = result (hash_partition H env input columns_to_hash N).
Proof.
  intros Hwf HR Hrows Hne Hkeys Hsc HN Horder Hsame.
  assert (atomic_order_ok env') as Horder'
    by (intros b l; rewrite Hsame; apply Horder).
  destruct (supported_partitions N HN) as (HN0 & HNfit & HNmax).
  destruct (invocation_grid input HR) as [HG HGR].
  pose proof (invocation_routing_ok H env input columns_to_hash N
                Hwf HR Hne Hkeys HN0 HNfit Horder) as Hok.
  pose proof (invocation_routing_ok H env' input columns_to_hash N
                Hwf HR Hne Hkeys HN0 HNfit Horder') as Hok'.
  apply (routing_ok_sched_ext _ _
           (fun b => atomic_order env b
                       (Unbounded.block_rows
                          (div_rounding_up_safe (num_rows input)
                             (BLOCK_SIZE * ROWS_PER_THREAD))
                          b (num_rows input)))) in Hok';
    [|intros b; by rewrite Hsame].
  pose proof (routing_ok_tables _ _ _ _ _ _ HG Hok) as Hrt.
  pose proof (routing_ok_tables _ _ _ _ _ _ HG Hok') as Hrt'.
  pose proof (eq_trans Hrt' (eq_sym Hrt)) as Heq. clear Hrt Hrt'.
  destruct (hash_partition_scatters H env input columns_to_hash N
              Hwf HR Hrows Hne Hkeys HN0 HNfit Horder HNmax Hsc)
    as (out & Hres & Hty & Hm & _ & Hrow).
  destruct (hash_partition_scatters H env' input columns_to_hash N
              Hwf HR Hrows Hne Hkeys HN0 HNfit Horder' HNmax Hsc)
    as (out' & Hres' & Hty' & Hm' & _ & Hrow').
  rewrite Heq in Hres', Hrow'. rewrite Hres, Hres'. do 2 f_equal.
  assert (forall o offs e,
            result (hash_partition H e input columns_to_hash N)
            = inr (o, offs) ->
            Forall (fun c => size c = num_rows input) o) as Hsize.
  { intros o offs e Ho.
    apply hash_partition_returns_schema in Ho as (_ & _ & Hs).
    destruct (Z.leb_spec N 0) as [|_]; [lia|].
    destruct (Nat.eqb_spec (num_rows input) 0) as [|_]; [lia|].
    destruct (Nat.eqb_spec (num_columns (select input columns_to_hash)) 0)
      as [Hz|_].
    { pose proof (invocation_num_columns input columns_to_hash
                    Hwf HR Hne Hkeys). lia. }
    cbn [orb] in Hs.
    assert (Forall (fun s => s = num_rows input) (map size o)) as Hall.
    { rewrite Hs. apply List.Forall_map. exact Hwf. }
    by apply List.Forall_map in Hall. }
  apply (table_eq_rows out' out (num_rows input)); try done.
  - congruence.
  - by eapply Hsize.
  - by eapply Hsize.
  - intros d Hd.
    destruct (destination_surjective _ _ _ _ _ _ d Hok HG Hd)
      as (r & Hr & <-).
    by rewrite Hrow, Hrow'.
Qed.

Lemma hash_partition_ignores_uninitialised_memory_witness :
  table_wf example_table
  /\ 0 < num_rows example_table
  /\ (Z.of_nat (num_rows example_table) <= max_num_rows)%Z
  /\ [0; 1] <> []
  /\ valid_keys example_table [0; 1]
  /\ scatterable example_table
  /\ (0 < 3 <= 1024)%Z
  /\ atomic_order_ok example_env
  /\ (forall b l, atomic_order example_env_clean b l
                  = atomic_order example_env b l)
  /\ result (hash_partition example_hash example_env_clean example_table
               [0; 1] 3)
     = result (hash_partition example_hash example_env example_table
                 [0; 1] 3).
Proof.
  assert (table_wf example_table) as Hwf by (repeat constructor).
  assert (0 < num_rows example_table) as HR by (vm_compute; lia).
  assert (Z.of_nat (num_rows example_table) <= max_num_rows)%Z as Hrows
    by (vm_compute; discriminate).
  assert ([0; 1] <> []) as Hne by discriminate.
  assert (valid_keys example_table [0; 1]) as Hk by (repeat constructor).
  assert (scatterable example_table) as Hs by (repeat constructor).
  assert (0 < 3 <= 1024)%Z as HN by lia.
  assert (forall b l, atomic_order example_env_clean b l
                      = atomic_order example_env b l) as Hsame
    by (intros b l; reflexivity).
  repeat (split; [assumption|]). split; [exact example_env_order|].
  split; [assumption|].
  exact (hash_partition_ignores_uninitialised_memory example_hash
           example_env example_env_clean example_table [0; 1] 3
           Hwf HR Hrows Hne Hk Hs HN example_env_order Hsame).
Defined.

(** ** The largest table *)

Lemma foldl_and_then_None {A B} (f : A -> B -> option A) l :
  foldl (fun acc b => a' <~ acc ;; f a' b) None l = None.
Proof. induction l as [|b l IH]; [done|]. exact IH. Qed.

Lemma foldl_and_then_fails {A B} (f : A -> B -> option A) l1 b l2 acc :
  (forall a, f a b = None) ->
  foldl (fun acc b => a' <~ acc ;; f a' b) acc (l1 ++ b :: l2) = None.
Proof.
  intros Hf. rewrite foldl_app. cbn [foldl].
  destruct (foldl _ acc l1) as [a|]; cbn [and_then];
    [rewrite Hf|]; apply foldl_and_then_None.
Qed.

Lemma div_rounding_up_safe_Z R d :
  0 < d ->
  Z.of_nat (div_rounding_up_safe R d)
  = ((Z.of_nat R + Z.of_nat d - 1) / Z.of_nat d)%Z.
Proof.
  intros Hd. unfold div_rounding_up_safe.
  pose proof (Nat.div_mod_eq R d) as Hdm.
  pose proof (Nat.mod_upper_bound R d ltac:(lia)) as Hm.
  destruct (Nat.eqb_spec (R mod d) 0) as [Hz|Hnz].
  - apply Z.div_unique with (Z.of_nat d - 1)%Z; nia.
  - apply Z.div_unique with (Z.of_nat (R mod d) - 1)%Z; nia.
Qed.

(** The grid of a table of 1908874240 or 1908874241 rows. *)
Lemma max_num_rows_grid_size R :
  (Z.of_nat R = max_num_rows \/ Z.of_nat R = max_num_rows + 1)%Z ->
  Z.of_nat (div_rounding_up_safe R (BLOCK_SIZE * ROWS_PER_THREAD))
  = 466034%Z.
Proof.
  intros HR. rewrite div_rounding_up_safe_Z
    by (change (BLOCK_SIZE * ROWS_PER_THREAD) with 4096; lia).
  change (Z.of_nat (BLOCK_SIZE * ROWS_PER_THREAD)) with 4096%Z.
  destruct HR as [-> | ->]; reflexivity.
Qed.

(** Thread 0 of block 466032 in a grid of 466034 blocks. *)
Lemma size_type_indices_wraps :
  size_type_indices
    (int32_wrap (uint32_wrap (0 + uint32_wrap (466032 * 512))))
    (uint32_wrap (512 * 466034)) (max_num_rows + 1)
  = None.
Proof. vm_compute. reflexivity. Qed.

Lemma for_each_fails {A B} (f : A -> option (list B)) a l :
  f a = None -> for_each f (a :: l) = None.
Proof. intros Hf. cbn [for_each]. rewrite Hf. reflexivity. Qed.

Lemma block_rows_wraps G R :
  Z.of_nat G = 466034%Z ->
  Z.of_nat R = (max_num_rows + 1)%Z ->
  block_rows G (Z.to_nat 466032) R = None.
Proof.
  intros HG HR. unfold block_rows.
  change (seq 0 BLOCK_SIZE) with (0 :: seq 1 511).
  apply for_each_fails.
  rewrite HG, HR, Z2Nat.id by lia.
  exact size_type_indices_wraps.
Qed.

Lemma compute_row_partition_numbers_wraps env the_hasher N P G R st :
  Z.of_nat G = 466034%Z ->
  Z.of_nat R = (max_num_rows + 1)%Z ->
  compute_row_partition_numbers env the_hasher R N P G st = None.
Proof.
  intros HG HR.
  assert (seq 0 G
          = seq 0 (Z.to_nat 466032)
            ++ Z.to_nat 466032 :: seq (S (Z.to_nat 466032)) 1) as Hseq.
  { assert (G = Z.to_nat 466032 + 2) as -> by lia.
    rewrite seq_app, Nat.add_0_l. reflexivity. }
  unfold compute_row_partition_numbers. rewrite Hseq.
  apply foldl_and_then_fails. intros rt.
  unfold compute_row_partition_numbers_block.
  destruct (block_loop N); cbn [and_then]; [|reflexivity].
  rewrite block_rows_wraps by done. reflexivity.
Qed.

(** X15: the bound 1908874240 on the number of rows is the largest for
    which the row loops of the grid that [hash_partition_table] launches
    stay inside [size_type].  For a table of 1908874240 rows the grid has
    466034 blocks (line 338) and R + BLOCK_SIZE * 466034 = 2^31.  For one
    row more the grid has 466034 blocks too; thread 0 of block 466032
    visits row 1908874240, the increment of line 147 exceeds 2^31 - 1, and
    the loop is entered again with a negative row number: the histogram
    kernel has no defined result, whatever the hash function, the
    partitioner, the number of partitions and the tables are. *)
Theorem row_loop_wraps_beyond_max_num_rows (env : exec_env)
    (the_hasher : nat -> Z) (N : nat) (the_partitioner : Z -> Z)
    (st : routing) :
  let rows_per_block := BLOCK_SIZE * ROWS_PER_THREAD in
  let G := div_rounding_up_safe (Z.to_nat max_num_rows) rows_per_block in
  let R' := Z.to_nat (max_num_rows + 1) in
  let G' := div_rounding_up_safe R' rows_per_block in
  Z.of_nat G = 466034%Z
  /\ (Z.of_nat (Z.to_nat max_num_rows) + Z.of_nat BLOCK_SIZE * Z.of_nat G
      = 2 ^ 31)%Z
  /\ Z.of_nat G' = 466034%Z
  /\ block_rows G' (Z.to_nat 466032) R' = None
  /\ compute_row_partition_numbers env the_hasher R' N the_partitioner G' st
     = None.
Proof.
  assert (Z.of_nat (Z.to_nat max_num_rows) = max_num_rows) as HR
    by (apply Z2Nat.id; unfold max_num_rows; lia).
  assert (Z.of_nat (Z.to_nat (max_num_rows + 1)) = (max_num_rows + 1)%Z)
    as HR' by (apply Z2Nat.id; unfold max_num_rows; lia).
  pose proof (max_num_rows_grid_size _ (or_introl HR)) as HG.
  pose proof (max_num_rows_grid_size _ (or_intror HR')) as HG'.
  split; [exact HG|]. split.
  { apply (eq_trans (f_equal2 Z.add HR
                       (f_equal (Z.mul (Z.of_nat BLOCK_SIZE)) HG))).
    reflexivity. }
  split; [exact HG'|].
  split; [by apply block_rows_wraps|].
  by apply compute_row_partition_numbers_wraps.
Qed.
